(** * Vision-guided automation loop: model and verification

    The development follows the repository's sources:
    - [GeminiVision]: the action decoder ([parseAction], [validateCoordinates],
      [nextAction]) of src/ai/geminiVision.ts;
    - [BrowserOS]: the browser adapter ([browser.click], [browser.type],
      [browser.scroll], [withErrorHandling]) of src/native/browserOS.ts;
    - [VisionAgent]: the agent loop [runTask], [cleanupContacts] and
      [estimateSteps] of src/agent/visionAgent.ts;
    - [ContactSearch]: the text extractor, the merge and the validation
      stage of ContactSearchAgent.ts;
    - [Gateway]: the rate gate and the 429 path of [callLLM].

    JavaScript values are modelled as follows.  A string is the list of its
    UTF-16 code units.  A double is given by its value, a rational: the
    numbers that the decoder reads are rounded to the nearest double as
    IEEE 754 does, and can be Infinity.  Numbers that the program only uses
    as integers (step counters, the coordinates of a tap) are in [Z];
    confidences and times are rationals ([Q]), and their arithmetic is
    exact.  Code that can throw returns in [Res].  What the browser, the
    network and the model answer is given by an environment; time is a
    clock that the pauses and the network advance. *)

From Stdlib Require Import String Ascii.
From Stdlib Require Import List ZArith NArith QArith Qround Qpower Lia Lqa Bool.
From Stdlib Require Import Permutation Sorted.
Import ListNotations.

Set Implicit Arguments.

(** ** Results of code that may throw *)

Inductive Res (A : Type) : Type :=
| Ok (a : A)
| Err (message : list N).

Arguments Ok {A} a.
Arguments Err {A} message.

(** ** JavaScript strings *)

Module JS.

Definition jsstring := list N.

(** A literal: the code units of an ASCII string. *)
Definition js (s : string) : jsstring :=
  map N_of_ascii (list_ascii_of_string s).

Definition isLineTerminator (c : N) : bool :=
  ((c =? 10) || (c =? 13) || (c =? 8232) || (c =? 8233))%N.

Definition isWhiteSpace (c : N) : bool :=
  ((c =? 9) || (c =? 11) || (c =? 12) || (c =? 32) || (c =? 160)
   || (c =? 5760) || ((8192 <=? c) && (c <=? 8202)) || (c =? 8239)
   || (c =? 8287) || (c =? 12288) || (c =? 65279))%N.

(** The class [\s] of regular expressions, which is also what
    [String.prototype.trim] strips: white space and line terminators. *)
Definition isSpace (c : N) : bool := isWhiteSpace c || isLineTerminator c.

(** The class [.] (without the [s] flag). *)
Definition isDot (c : N) : bool := negb (isLineTerminator c).

(** The class [\d]. *)
Definition isDigit (c : N) : bool := ((48 <=? c) && (c <=? 57))%N.

Fixpoint dropWhile (p : N -> bool) (s : jsstring) : jsstring :=
  match s with
  | [] => []
  | c :: s' => if p c then dropWhile p s' else s
  end.

Fixpoint takeWhile (p : N -> bool) (s : jsstring) : jsstring :=
  match s with
  | [] => []
  | c :: s' => if p c then c :: takeWhile p s' else []
  end.

Definition trimStart (s : jsstring) : jsstring := dropWhile isSpace s.
Definition trimEnd (s : jsstring) : jsstring := rev (dropWhile isSpace (rev s)).
Definition trim (s : jsstring) : jsstring := trimEnd (trimStart s).

(** Case mapping of [toUpperCase] and [toLowerCase].  The ASCII letters,
    and the characters whose image contains an ASCII letter (the tables
    below, from the Unicode special casing), are mapped as Unicode maps
    them.  Every other code unit is mapped to itself: its image in Unicode
    has no ASCII code unit either.  Where the program compares a mapped text
    with an ASCII text (the tests of the decoder, the contact words), the
    model agrees with the Unicode mapping for every string; where both
    texts are mapped (the keys of contacts, targets, locations), it agrees
    for the strings that have no other cased character. *)
Definition upperSpecial : list (N * list N) :=
  [(223, [83; 83]); (305, [73]); (329, [700; 78]); (383, [83]);
   (496, [74; 780]); (7830, [72; 817]); (7831, [84; 776]);
   (7832, [87; 778]); (7833, [89; 778]); (7834, [65; 702]);
   (64256, [70; 70]); (64257, [70; 73]); (64258, [70; 76]);
   (64259, [70; 70; 73]); (64260, [70; 70; 76]); (64261, [83; 84]);
   (64262, [83; 84])]%N.

Definition lowerSpecial : list (N * list N) :=
  [(304, [105; 775]); (8490, [107])]%N.

Definition special (table : list (N * list N)) (c : N) : list N :=
  match find (fun p => (fst p =? c)%N) table with
  | Some (_, image) => image
  | None => [c]
  end.

Definition upperUnits (c : N) : list N :=
  if ((97 <=? c) && (c <=? 122))%N then [(c - 32)%N]
  else special upperSpecial c.

Definition lowerUnits (c : N) : list N :=
  if ((65 <=? c) && (c <=? 90))%N then [(c + 32)%N]
  else special lowerSpecial c.

Definition toUpperCase (s : jsstring) : jsstring := flat_map upperUnits s.
Definition toLowerCase (s : jsstring) : jsstring := flat_map lowerUnits s.

(** The canonical form of a code unit under the [i] flag of a regular
    expression (without the [u] flag): its upper-case image when that is one
    code unit, except that a code unit outside ASCII is never identified
    with an ASCII one.  The patterns of the program only have ASCII letters
    under this flag, and for those the function below is exact: a code unit
    has the canonical form of an ASCII letter exactly when it is that
    letter, in either case. *)
Definition upperUnit (c : N) : N :=
  if ((97 <=? c) && (c <=? 122))%N then (c - 32)%N else c.

Fixpoint startsWith (s p : jsstring) {struct p} : bool :=
  match p, s with
  | [], _ => true
  | _ :: _, [] => false
  | a :: p', c :: s' => (c =? a)%N && startsWith s' p'
  end.

Fixpoint includes (s p : jsstring) : bool :=
  startsWith s p ||
  match s with
  | [] => false
  | _ :: s' => includes s' p
  end.

Definition eqb (s t : jsstring) : bool :=
  (length s =? length t)%nat && startsWith s t.

(** *** Regular expressions

    A matcher is written in continuation-passing style, which gives the
    backtracking order of the ECMAScript matcher: a matcher receives what
    has to match after it, the rest of the input and the groups captured so
    far.  Greedy quantifiers try the longer match first, lazy ones the
    shorter. *)

Definition caps := list jsstring.
Definition cont := jsstring -> caps -> option caps.
Definition re := cont -> cont.

Definition accept : cont := fun _ cs => Some cs.

(** One code unit of a class. *)
Definition cls (p : N -> bool) : re :=
  fun k s cs =>
    match s with
    | c :: s' => if p c then k s' cs else None
    | [] => None
    end.

(** A literal code unit; under the [i] flag the comparison is made on the
    canonical (upper-case) form. *)
Definition unit_i (a : N) : re := cls (fun c => (upperUnit c =? upperUnit a)%N).
Definition unit_ (a : N) : re := cls (fun c => (c =? a)%N).

Definition seq (r1 r2 : re) : re := fun k => r1 (r2 k).

Fixpoint lit_i (p : jsstring) : re :=
  match p with
  | [] => fun k => k
  | a :: p' => seq (unit_i a) (lit_i p')
  end.

(** [p*], greedy. *)
Definition star (p : N -> bool) : re :=
  fun k =>
    fix go (s : jsstring) (cs : caps) {struct s} : option caps :=
      match s with
      | c :: s' =>
          if p c
          then match go s' cs with
               | Some r => Some r
               | None => k s cs
               end
          else k s cs
      | [] => k [] cs
      end.

(** [p+], greedy. *)
Definition plus (p : N -> bool) : re := seq (cls p) (star p).

(** [p*?], lazy. *)
Definition star_lazy (p : N -> bool) : re :=
  fun k =>
    fix go (s : jsstring) (cs : caps) {struct s} : option caps :=
      match k s cs with
      | Some r => Some r
      | None =>
          match s with
          | c :: s' => if p c then go s' cs else None
          | [] => None
          end
      end.

(** [p+?], lazy. *)
Definition plus_lazy (p : N -> bool) : re := seq (cls p) (star_lazy p).

(** [(?:r)?], greedy. *)
Definition opt (r : re) : re :=
  fun k s cs =>
    match r k s cs with
    | Some x => Some x
    | None => k s cs
    end.

(** A capturing group [(r)]: the group is what [r] consumed. *)
Definition group (r : re) : re :=
  fun k s cs =>
    r (fun s' cs' => k s' (cs' ++ [firstn (length s - length s') s])) s cs.

(** [$] without the [m] flag: the end of the input. *)
Definition eoi : re :=
  fun k s cs =>
    match s with
    | [] => k [] cs
    | _ :: _ => None
    end.

(** [String.prototype.match] with a regular expression without the [g]
    flag: the first position, from the left, at which the expression
    matches; the result lists the captured groups ([m[1]], [m[2]], ...). *)
Fixpoint exec (r : re) (s : jsstring) : option caps :=
  match r accept s [] with
  | Some cs => Some cs
  | None =>
      match s with
      | [] => None
      | _ :: s' => exec r s'
      end
  end.

(** [p{0,n}], greedy. *)
Fixpoint upto (n : nat) (p : N -> bool) : re :=
  fun k s cs =>
    match n with
    | O => k s cs
    | S n' =>
        match s with
        | c :: s' =>
            if p c
            then match upto n' p k s' cs with
                 | Some r => Some r
                 | None => k s cs
                 end
            else k s cs
        | [] => k [] cs
        end
    end.

(** [RegExp.prototype.test] for an expression that starts with [^]: it can
    only match at the start of the input. *)
Definition testAtStart (r : re) (s : jsstring) : bool :=
  match r accept s [] with
  | Some _ => true
  | None => false
  end.

(** [s.split(/\s+/)]: [cur] is the part being read, reversed, and [inSep]
    tells that the last code unit read was of a separator. *)
Fixpoint splitSpaces (s cur : jsstring) (inSep : bool) : list jsstring :=
  match s with
  | [] => [rev cur]
  | c :: s' =>
      if isSpace c
      then if inSep then splitSpaces s' [] true
           else rev cur :: splitSpaces s' [] true
      else splitSpaces s' (c :: cur) false
  end.

(** [s.split(a)] for a separator of one code unit. *)
Fixpoint splitUnit (a : N) (s cur : jsstring) : list jsstring :=
  match s with
  | [] => [rev cur]
  | c :: s' =>
      if (c =? a)%N then rev cur :: splitUnit a s' []
      else splitUnit a s' (c :: cur)
  end.

(** *** Numbers in strings *)

Definition digitValue (c : N) : Z := Z.of_N (c - 48).

Definition digitsValue (ds : jsstring) : Z :=
  fold_left (fun acc c => 10 * acc + digitValue c)%Z ds 0%Z.

(** A Number that is not negative: NaN, a double, given by its value, or
    +Infinity. *)
Inductive number := NaN | Double (q : Q) | Infinity.

Definition pow2 (e : Z) : Q := 2 ^ e.

(** The integer [e] with [2^e <= q < 2^(e+1)], for [q > 0]: the difference
    of the binary lengths of numerator and denominator, or one less. *)
Definition ilog2 (q : Q) : Z :=
  let e := (Z.log2 (Qnum q) - Z.log2 (Zpos (Qden q)))%Z in
  if Qle_bool (pow2 e) q then e else (e - 1)%Z.

(** The nearest integer, a tie going to the even one. *)
Definition roundHalfEven (x : Q) : Z :=
  let f := Qfloor x in
  match Qcompare (x - inject_Z f) (1 # 2) with
  | Lt => f
  | Gt => (f + 1)%Z
  | Eq => if Z.even f then f else (f + 1)%Z
  end.

(** The Number value of a rational [q >= 0] (IEEE 754 binary64, round to
    nearest, ties to even): the nearest multiple of the unit in the last
    place, which is [2^(e-52)] for [2^e <= q < 2^(e+1)] and [2^-1074] for
    the subnormal numbers; +Infinity when the rounded value reaches
    [2^1024]. *)
Definition toDouble (q : Q) : number :=
  if Qle_bool q 0 then Double 0
  else
    let ulp := pow2 (Z.max (ilog2 q - 52) (-1074)) in
    let v := inject_Z (roundHalfEven (q / ulp)) * ulp in
    if Qle_bool (pow2 1024) v then Infinity else Double v.

(** [parseFloat] on the literals the decoder passes to it: the longest
    prefix of the form digits, optionally followed by a point and digits,
    and the Number value of the decimal it denotes; NaN when there is no
    digit at the start. *)
Definition parseFloat (s : jsstring) : number :=
  let i := takeWhile isDigit s in
  let f :=
    match dropWhile isDigit s with
    | 46%N :: r => takeWhile isDigit r
    | _ => []
    end in
  match i, f with
  | [], [] => NaN
  | _, _ =>
      toDouble (inject_Z (digitsValue i)
                + inject_Z (digitsValue f) / inject_Z (10 ^ Z.of_nat (length f)))
  end.

(** [Math.round] of a double: the nearest integer, ties towards plus
    infinity. *)
Definition Math_round (q : Q) : Z := Qfloor (q + (1 # 2)).

(** [parseInt(s, 10)]: leading white space, an optional sign, then digits;
    [None] is NaN. *)
Definition parseInt (s : jsstring) : option Z :=
  let t := trimStart s in
  let '(neg, t') :=
    match t with
    | 45%N :: r => (true, r)
    | 43%N :: r => (false, r)
    | _ => (false, t)
    end in
  match takeWhile isDigit t' with
  | [] => None
  | ds => Some (if neg then - digitsValue ds else digitsValue ds)%Z
  end.

(** The decimal text of an integer, as in a template literal. *)
Fixpoint showPos (fuel : nat) (n : N) (acc : jsstring) : jsstring :=
  match fuel with
  | O => acc
  | S fuel' =>
      let acc' := (48 + n mod 10)%N :: acc in
      if (n <? 10)%N then acc' else showPos fuel' (n / 10)%N acc'
  end.

Definition showZ (z : Z) : jsstring :=
  match z with
  | Z0 => [48%N]
  | Zpos p => showPos (S (N.to_nat (N.log2 (Npos p)))) (Npos p) []
  | Zneg p => 45%N :: showPos (S (N.to_nat (N.log2 (Npos p)))) (Npos p) []
  end.

(** [String(x)] for a double [x] that is an integer [z >= 0], of [n] decimal
    digits (Number::toString): the digits are those of the integer [s] with
    the fewest digits [k] such that [s * 10^(n-k)] has the Number value
    [x], the closest to [x] if there are several.  [hasValue z c] tells
    that the integer [c] has the Number value [z]. *)
Definition hasValue (z c : Z) : bool :=
  match toDouble (inject_Z c) with
  | Double v => Qeq_bool v (inject_Z z)
  | _ => false
  end.

(** The digits for a given [k], if there are any: below or above [z]. *)
Definition digitsAt (z n k : Z) : option Z :=
  let unit := (10 ^ (n - k))%Z in
  let lo := (z / unit)%Z in
  let hi := (lo + 1)%Z in
  match hasValue z (lo * unit), hasValue z (hi * unit) with
  | true, true =>
      match (z - lo * unit ?= hi * unit - z)%Z with
      | Lt => Some lo
      | Gt => Some hi
      | Eq => Some (if Z.even lo then lo else hi)
      end
  | true, false => Some lo
  | false, true => Some hi
  | false, false => None
  end.

(** The least [k], from [k] on; seventeen digits tell any double. *)
Fixpoint shortestDigits (fuel : nat) (z n k : Z) : option (Z * Z) :=
  match fuel with
  | O => None
  | S fuel' =>
      match digitsAt z n k with
      | Some s => Some (s, k)
      | None => shortestDigits fuel' z n (k + 1)%Z
      end
  end.

Definition zeros (n : Z) : jsstring := repeat 48%N (Z.to_nat n).

(** The text: the digits and [n - k] zeros when [n <= 21], and exponent
    notation beyond.  (An integer that is not a double has no such digits;
    no Number is one.) *)
Definition showDigits (z : Z) : jsstring :=
  let n := Z.of_nat (length (showZ z)) in
  match shortestDigits 17 z n 1 with
  | Some (s, k) =>
      (* the digit above 9 is 10: one digit more *)
      let '(s, n, k) :=
        if (s =? 10 ^ k)%Z then (1, n + 1, 1)%Z else (s, n, k) in
      if (n <=? 21)%Z then showZ s ++ zeros (n - k)
      else
        match showZ s with
        | [] => []
        | d :: [] => d :: js "e+" ++ showZ (n - 1)
        | d :: ds => d :: 46%N :: ds ++ js "e+" ++ showZ (n - 1)
        end
  | None => showZ z
  end.

Definition showNumber (z : Z) : jsstring :=
  match z with
  | Zneg p => 45%N :: showDigits (Zpos p)
  | _ => showDigits z
  end.

(** [s.replace(/\s+/g, '')] *)
Definition removeSpaces (s : jsstring) : jsstring :=
  filter (fun c => negb (isSpace c)) s.

(** [RegExp.prototype.exec] for an expression with the [g] flag, on the
    text from [lastIndex] on: the first position at which the expression
    matches.  The result is [m[0]], the captured groups, and the text after
    the match, where [lastIndex] is left. *)
Fixpoint execFrom (r : re) (s : jsstring) : option (jsstring * caps * jsstring) :=
  match group r accept s [] with
  | Some cs =>
      let m0 := last cs [] in
      Some (m0, removelast cs, skipn (length m0) s)
  | None =>
      match s with
      | [] => None
      | _ :: s' => execFrom r s'
      end
  end.

(** [while ((match = re.exec(text)) !== null) ...]: the matches, in order.
    After an empty match [lastIndex] does not move and the loop does not
    end; [fuel] bounds the number of calls of [exec] that the model
    follows, and [None] means that it was not enough. *)
Fixpoint execAll (fuel : nat) (r : re) (s : jsstring)
  : option (list (jsstring * caps)) :=
  match fuel with
  | O => None
  | S fuel' =>
      match execFrom r s with
      | None => Some []
      | Some (m0, cs, rest) =>
          match execAll fuel' r rest with
          | Some l => Some ((m0, cs) :: l)
          | None => None
          end
      end
  end.

End JS.

Import JS.

(** ** The action decoder (src/ai/geminiVision.ts) *)

Module GeminiVision.

Inductive ActionType := click | type | scroll | done.
Inductive Direction := up | down.

(** A coordinate, as [Math.round] gives it for a Number that is not NaN:
    an integer, or Infinity. *)
Inductive Coordinate := Integer (z : Z) | Infinite.

(** [interface Action]: the tag and its optional fields.  For [x] and [y],
    [None] stands for a missing or a NaN coordinate: both are falsy, and
    every use of a coordinate in the program is behind a truthiness test. *)
Record Action := mkAction {
  a_type : ActionType;
  a_x : option Coordinate;
  a_y : option Coordinate;
  a_text : option jsstring;
  a_submit : option bool;
  a_direction : option Direction;
  a_answer : option jsstring
}.

Definition mkClickAt (x y : option Coordinate) : Action :=
  mkAction click x y None None None None.
(** A click at integer coordinates. *)
Definition mkClick (x y : option Z) : Action :=
  mkClickAt (option_map Integer x) (option_map Integer y).
Definition mkType (t : jsstring) (submit : bool) : Action :=
  mkAction type None None (Some t) (Some submit) None None.
Definition mkScroll (d : Direction) : Action :=
  mkAction scroll None None None None (Some d) None.
Definition mkDone (answer : jsstring) : Action :=
  mkAction done None None None None None (Some answer).

(** [/DONE\s*(.+)/i] *)
Definition reDone : re :=
  seq (lit_i (js "DONE")) (seq (star isSpace) (group (plus isDot))).

(** [\d+(?:\.\d+)?] *)
Definition reNumber : re :=
  seq (plus isDigit) (opt (seq (unit_ 46) (plus isDigit))).

(** [/CLICK\s+(\d+(?:\.\d+)?)\s+(\d+(?:\.\d+)?)/i] *)
Definition reClick : re :=
  seq (lit_i (js "CLICK"))
    (seq (plus isSpace)
       (seq (group reNumber) (seq (plus isSpace) (group reNumber)))).

(** [/TYPE\s+(.+?)(?:\s+SUBMIT)?$/i] *)
Definition reType : re :=
  seq (lit_i (js "TYPE"))
    (seq (plus isSpace)
       (seq (group (plus_lazy isDot))
          (seq (opt (seq (plus isSpace) (lit_i (js "SUBMIT")))) eoi))).

(** [m[i]] for a group of a successful match, followed by a method call:
    a group that did not take part is [undefined], and calling a method on
    it throws. *)
Definition groupOf (m : caps) (i : nat) : Res jsstring :=
  match nth_error m (i - 1) with
  | Some g => Ok g
  | None => Err (js "TypeError: Cannot read properties of undefined")
  end.

(** [parseFloat(m[i])]: [parseFloat(undefined)] is NaN. *)
Definition floatOf (m : caps) (i : nat) : number :=
  match nth_error m (i - 1) with
  | Some g => parseFloat g
  | None => NaN
  end.

(** [Math.round(x)] for a Number [x] that is not negative: NaN and Infinity
    are kept. *)
Definition roundNumber (x : number) : option Coordinate :=
  match x with
  | NaN => None
  | Double q => Some (Integer (Math_round q))
  | Infinity => Some Infinite
  end.

Definition parseAction (text : jsstring) : Res Action :=
  let cleanText := toUpperCase (trim text) in
  if startsWith cleanText (js "DONE") then
    match exec reDone text with
    | Some summaryMatch =>
        match groupOf summaryMatch 1 with
        | Ok g => Ok (mkDone (trim g))
        | Err e => Err e
        end
    | None => Ok (mkDone (js "Task completed"))
    end
  else
    match exec reClick text with
    | Some clickMatch =>
        Ok (mkClickAt (roundNumber (floatOf clickMatch 1))
                      (roundNumber (floatOf clickMatch 2)))
    | None =>
        match exec reType text with
        | Some typeMatch =>
            match groupOf typeMatch 1 with
            | Ok g =>
                Ok (mkType (trim g) (includes (toLowerCase text) (js "submit")))
            | Err e => Err e
            end
        | None =>
            if includes cleanText (js "SCROLL DOWN") then Ok (mkScroll down)
            else if includes cleanText (js "SCROLL UP") then Ok (mkScroll up)
            else Ok (mkScroll down)
        end
    end.

(** [validateCoordinates(x, y, viewportWidth, viewportHeight)] *)
Definition validateCoordinates (x y viewportWidth viewportHeight : Z) : bool :=
  ((x >=? 0) && (x <=? viewportWidth) && (y >=? 0) && (y <=? viewportHeight))%Z.

Record Viewport := mkViewport { width : Z; height : Z }.

(** [getViewportDimensions()] of geminiVision.ts. *)
Definition getViewportDimensions : Viewport := mkViewport 375 812.

Definition fallbackAction : Action := mkScroll down.

(** [nextAction(b64PNG, task)].  The HTTP exchange with the model is the
    environment's: [reply] is [Err] when [fetch] rejects, when the response
    is not ok or when its body is not JSON, and [Ok t] carries the text of
    the first candidate, if any.  Every failure is caught and answered by
    the fallback action. *)
Definition nextAction (reply : Res (option jsstring)) : Action :=
  match reply with
  | Err _ => fallbackAction
  | Ok None => fallbackAction
  | Ok (Some raw) =>
      match trim raw with
      | [] => fallbackAction
      | text =>
          match parseAction text with
          | Ok action => action
          | Err _ => fallbackAction
          end
      end
  end.

End GeminiVision.

Import GeminiVision.

(** ** The browser adapter (src/native/browserOS.ts) *)

Module BrowserOS.

(** The calls of a run: the calls made on the native module [api], and the
    calls of [browser.screenshot], [browser.getCurrentURL] and
    [browser.evaluateJavaScript] that the agent loop makes.  These three are
    not among the methods that browserOS.ts gives to [browser]: in the
    program as written each of them throws a TypeError, and nothing reaches
    the native module.  The model leaves what such a call answers to the
    environment, as it does for a native call, so that it also covers an
    adapter that has the three methods; [asWritten], below, tells the
    environments of the program as written. *)
Inductive ApiCall :=
| LoadURL (url : jsstring)
| Screenshot
| DispatchTap (x y duration : Z)
| DispatchKeyText (char : jsstring)
| DispatchKeyCode (keyCode : Z)
| ScrollBy (direction : Direction) (pixels : Z)
| GetCurrentURL
| EvaluateJavaScript.

(** A contact as the page script builds it ([any] in the source; a field
    [confidence] that is missing, or NaN, is [None]). *)
Inductive ContactKind := email | phone | address.
Inductive ContactSource := gemini | dom | screenshot.

Record Contact := mkContact {
  value : jsstring;
  kind : ContactKind;
  confidence : option Q;
  source : ContactSource;
  context : jsstring
}.

(** The environment of the adapter: what the native module (and the three
    calls above), the model endpoint and the page answer, given the calls
    made so far.  [Err m] is a rejection, or a throw, with an error of
    message [m]. *)
Record Env := mkEnv {
  native : list ApiCall -> ApiCall -> Res jsstring;
  nativeViewport : list ApiCall -> option Viewport;
  modelReply : list ApiCall -> jsstring -> Res (option jsstring);
  pageContacts : list ApiCall -> Res (list Contact)
}.

(** [String(error)] for an error of class [Error] and of message [m], as
    the native module and the adapter throw them.  (The text for an error
    of another class starts with the name of that class; no statement
    below gives the text of such an error.) *)
Definition String_ (m : jsstring) : jsstring := js "Error: " ++ m.

Section Adapter.

Variable env : Env.

(** Code of the adapter runs over the list of the calls made. *)
Definition Op (A : Type) := list ApiCall -> Res A * list ApiCall.

Definition call (c : ApiCall) : Op jsstring :=
  fun tr => (native env tr c, tr ++ [c]).

(** [getViewportDimensions()] of browserOS.ts: the native dimensions, or
    the default mobile viewport. *)
Definition getViewportDimensions : Op Viewport :=
  fun tr =>
    match nativeViewport env tr with
    | Some dimensions => (Ok dimensions, tr)
    | None => (Ok (mkViewport 390 844), tr)
    end.

(** [withErrorHandling(operation, fn)] *)
Definition withErrorHandling (A : Type) (operation : jsstring) (fn : Op A)
  : Op A :=
  fun tr =>
    match fn tr with
    | (Ok a, tr') => (Ok a, tr')
    | (Err m, tr') =>
        (Err (js "Browser operation failed (" ++ operation ++ js "): "
              ++ String_ m), tr')
    end.

(** [browser.newTab(url)] *)
Definition newTab (url : jsstring) : Op unit :=
  fun tr =>
    match call (LoadURL url) tr with
    | (Ok _, tr') => (Ok tt, tr')
    | (Err m, tr') =>
        (Err (js "Failed to navigate to " ++ url ++ js ": " ++ String_ m), tr')
    end.

(** [Math.max(0, Math.min(v, limit - 1))] *)
Definition clamp (v limit : Z) : Z := Z.max 0 (Z.min v (limit - 1)).

(** [browser.click(x, y)] *)
Definition browser_click (x y : Z) : Op unit :=
  fun tr =>
    match getViewportDimensions tr with
    | (Err m, tr') => (Err m, tr')
    | (Ok viewport, tr0) =>
        let x := clamp x (width viewport) in
        let y := clamp y (height viewport) in
        match call (DispatchTap x y 100) tr0 with
        | (Ok _, tr') => (Ok tt, tr')
        | (Err m, tr') =>
            (Err (js "Click failed at (" ++ showZ x ++ js ", " ++ showZ y
                  ++ js "): " ++ String_ m), tr')
        end
    end.

(** [for (const char of text)]: the string by code points, a surrogate pair
    being one character. *)
Definition isHighSurrogate (c : N) : bool := ((55296 <=? c) && (c <=? 56319))%N.
Definition isLowSurrogate (c : N) : bool := ((56320 <=? c) && (c <=? 57343))%N.

Fixpoint chars (s : jsstring) : list jsstring :=
  match s with
  | [] => []
  | [c] => [[c]]
  | c :: (d :: s'') as s' =>
      if isHighSurrogate c && isLowSurrogate d
      then [c; d] :: chars s''
      else [c] :: chars s'
  end.

Fixpoint typeChars (cs : list jsstring) : Op unit :=
  fun tr =>
    match cs with
    | [] => (Ok tt, tr)
    | char :: cs' =>
        match call (DispatchKeyText char) tr with
        | (Ok _, tr') => typeChars cs' tr'
        | (Err m, tr') => (Err m, tr')
        end
    end.

(** [browser.type(text, submit)] *)
Definition browser_type (text : jsstring) (submit : bool) : Op unit :=
  fun tr =>
    let wrap m := js "Typing failed: " ++ String_ m in
    match typeChars (chars text) tr with
    | (Err m, tr') => (Err (wrap m), tr')
    | (Ok _, tr1) =>
        if submit then
          match call (DispatchKeyCode 66) tr1 with
          | (Ok _, tr') => (Ok tt, tr')
          | (Err m, tr') => (Err (wrap m), tr')
          end
        else (Ok tt, tr1)
    end.

(** [browser.scroll(down)] *)
Definition browser_scroll (down_ : bool) : Op unit :=
  fun tr =>
    let direction := if down_ then down else up in
    match call (ScrollBy direction 500) tr with
    | (Ok _, tr') => (Ok tt, tr')
    | (Err m, tr') =>
        (Err (js "Scroll " ++ (if down_ then js "down" else js "up")
              ++ js " failed: " ++ String_ m), tr')
    end.

End Adapter.

End BrowserOS.

Import BrowserOS.

(** ** The agent loop (src/agent/visionAgent.ts) *)

Module VisionAgent.

(** [interface AgentResult] *)
Record AgentResult := mkResult {
  success : bool;
  answer : option jsstring;
  steps : Z;
  actions : list jsstring;
  contacts : list Contact;
  error : option jsstring;
  finalURL : option jsstring
}.

(** The variables of one run of [runTask]: the result under construction,
    the locals [currentStep] and [extractedContacts], and the calls made.
    [iterations] counts the executions of the loop body; the code does not
    read it. *)
Record Run := mkRun {
  result : AgentResult;
  currentStep : Z;
  extractedContacts : list Contact;
  calls : list ApiCall;
  iterations : nat
}.

(** Code of [runTask]: it changes the run and returns or throws. *)
Definition Task (A : Type) := Run -> Res A * Run.

Definition ret (A : Type) (a : A) : Task A := fun st => (Ok a, st).

Definition bind (A B : Type) (m : Task A) (k : A -> Task B) : Task B :=
  fun st =>
    match m st with
    | (Ok a, st') => k a st'
    | (Err e, st') => (Err e, st')
    end.

Notation "x <- m ;; k" := (bind m (fun x => k))
  (at level 61, m at next level, right associativity).
Notation "m ;; k" := (bind m (fun _ => k))
  (at level 61, right associativity).

Definition modifyResult (f : AgentResult -> AgentResult) : Task unit :=
  fun st =>
    (Ok tt, mkRun (f (result st)) (currentStep st) (extractedContacts st)
                  (calls st) (iterations st)).

Definition setExtracted (l : list Contact) : Task unit :=
  fun st =>
    (Ok tt, mkRun (result st) (currentStep st) l (calls st) (iterations st)).

Definition getExtracted : Task (list Contact) :=
  fun st => (Ok (extractedContacts st), st).

(** [currentStep++; result.steps = currentStep] *)
Definition nextStep : Task Z :=
  fun st =>
    let n := (currentStep st + 1)%Z in
    let r := result st in
    (Ok n,
     mkRun (mkResult (success r) (answer r) n (actions r) (contacts r)
                     (error r) (finalURL r))
           n (extractedContacts st) (calls st) (S (iterations st))).

(** An operation of the adapter, run on the calls of this run. *)
Definition perform (A : Type) (op : Op A) : Task A :=
  fun st =>
    let '(r, tr) := op (calls st) in
    (r, mkRun (result st) (currentStep st) (extractedContacts st) tr
              (iterations st)).

Definition pushAction (line : jsstring) : Task unit :=
  modifyResult (fun r =>
    mkResult (success r) (answer r) (steps r) (actions r ++ [line])
             (contacts r) (error r) (finalURL r)).

Definition setSuccess (b : bool) : Task unit :=
  modifyResult (fun r =>
    mkResult b (answer r) (steps r) (actions r) (contacts r) (error r)
             (finalURL r)).

Definition setAnswer (a : jsstring) : Task unit :=
  modifyResult (fun r =>
    mkResult (success r) (Some a) (steps r) (actions r) (contacts r)
             (error r) (finalURL r)).

Definition setFinalURL (u : jsstring) : Task unit :=
  modifyResult (fun r =>
    mkResult (success r) (answer r) (steps r) (actions r) (contacts r)
             (error r) (Some u)).

Definition setContacts (l : list Contact) : Task unit :=
  modifyResult (fun r =>
    mkResult (success r) (answer r) (steps r) (actions r) l (error r)
             (finalURL r)).

Definition setError (e : jsstring) : Task unit :=
  modifyResult (fun r =>
    mkResult (success r) (answer r) (steps r) (actions r) (contacts r)
             (Some e) (finalURL r)).

(** Truthiness of an optional number and of an optional string. *)
Definition truthyNum (v : option Coordinate) : bool :=
  match v with
  | Some (Integer z) => negb (z =? 0)%Z
  | Some Infinite => true
  | None => false
  end.

Definition truthyStr (v : option jsstring) : bool :=
  match v with
  | Some (_ :: _) => true
  | _ => false
  end.

Definition typeName (t : ActionType) : jsstring :=
  match t with
  | click => js "click"
  | type => js "type"
  | scroll => js "scroll"
  | done => js "done"
  end.

(** A coordinate in a template literal. *)
Definition showCoordinate (v : option Coordinate) : jsstring :=
  match v with
  | Some (Integer z) => showNumber z
  | Some Infinite => js "Infinity"
  | None => js "undefined"
  end.

Definition showDirection (d : option Direction) : jsstring :=
  match d with
  | Some up => js "up"
  | _ => js "down"
  end.

(** The line [Gemini Action: ...] of the action log. *)
Definition actionLine (action : Action) : jsstring :=
  js "Gemini Action: " ++ typeName (a_type action)
  ++ (if truthyStr (a_text action)
      then [32%N; 34%N] ++ match a_text action with Some t => t | None => [] end
           ++ [34%N]
      else [])
  ++ (if truthyNum (a_x action)
      then js " (" ++ showCoordinate (a_x action) ++ js ","
           ++ showCoordinate (a_y action)
           ++ js ")"
      else []).

Definition kindEqb (a b : ContactKind) : bool :=
  match a, b with
  | email, email | phone, phone | address, address => true
  | _, _ => false
  end.

Definition sourceEqb (a b : ContactSource) : bool :=
  match a, b with
  | gemini, gemini | dom, dom | screenshot, screenshot => true
  | _, _ => false
  end.

Definition confEqb (a b : option Q) : bool :=
  match a, b with
  | Some p, Some q => Qeq_bool p q
  | None, None => true
  | _, _ => false
  end.

(** Equality of the JSON texts of two contacts. *)
Definition sameJSON (a b : Contact) : bool :=
  JS.eqb (value a) (value b) && kindEqb (kind a) (kind b)
  && confEqb (confidence a) (confidence b)
  && sourceEqb (source a) (source b) && JS.eqb (context a) (context b).

(** [[...new Set(l.map(c => JSON.stringify(c)))].map(s => JSON.parse(s))]:
    the first occurrence of every JSON text, in order. *)
Fixpoint uniqueJSON (seen l : list Contact) : list Contact :=
  match l with
  | [] => []
  | c :: l' =>
      if existsb (sameJSON c) seen then uniqueJSON seen l'
      else c :: uniqueJSON (seen ++ [c]) l'
  end.

Section RunTask.

Variable env : Env.

(** [extractContactsFromCurrentPage()]: the page script is evaluated and
    its JSON answer parsed; any failure gives the empty list.  As written,
    the call of [browser.evaluateJavaScript] always fails. *)
Definition extractContactsFromCurrentPage : Task (list Contact) :=
  fun st =>
    let found := pageContacts env (calls st) in
    match perform (withErrorHandling (js "dom_extraction")
                     (call env EvaluateJavaScript)) st with
    | (Ok _, st') =>
        match found with
        | Ok l => (Ok l, st')
        | Err _ => (Ok [], st')
        end
    | (Err _, st') => (Ok [], st')
    end.

Definition extractFinalContacts : Task (list Contact) :=
  extractContactsFromCurrentPage.

(** How one execution of the loop body ends: at its end, or by
    [return result]. *)
Inductive BodyExit := Continue | Return.

(** The [click] case of the [switch].  The viewport of the validation is
    the one of [getViewportDimensions] imported from geminiVision.ts.
    [validateCoordinates] is false when a coordinate is Infinity, which no
    bound [x <= viewportWidth] admits. *)
Definition doClick (action : Action) : Task unit :=
  match a_x action, a_y action with
  | Some x, Some y =>
      if truthyNum (Some x) && truthyNum (Some y) then
        let viewport := GeminiVision.getViewportDimensions in
        match x, y with
        | Integer x, Integer y =>
            if validateCoordinates x y (width viewport) (height viewport) then
              perform (withErrorHandling (js "click") (browser_click env x y)) ;;
              pushAction (js "Clicked at (" ++ showZ x ++ js ", " ++ showZ y
                          ++ js ")")
            else
              perform (browser_scroll env true)
        | _, _ => perform (browser_scroll env true)
        end
      else ret tt
  | _, _ => ret tt
  end.

(** The [type] case. *)
Definition doType (action : Action) : Task unit :=
  match a_text action with
  | Some (c :: t) =>
      let text := c :: t in
      let submit := match a_submit action with Some b => b | None => false end in
      perform (withErrorHandling (js "type") (browser_type env text submit)) ;;
      pushAction (js "Typed: " ++ [34%N] ++ text ++ [34%N]
                  ++ (if submit then js " + Enter" else []))
  | _ => ret tt
  end.

(** The [scroll] case. *)
Definition doScroll (action : Action) : Task unit :=
  let isDown := match a_direction action with Some down => true | _ => false end in
  perform (withErrorHandling (js "scroll") (browser_scroll env isDown)) ;;
  pushAction (js "Scrolled " ++ showDirection (a_direction action)).

(** The [done] case, up to [return result].  As written, the call of
    [browser.getCurrentURL] throws, after [success] and [answer] are set. *)
Definition doDone (action : Action) : Task unit :=
  setSuccess true ;;
  setAnswer (if truthyStr (a_answer action)
             then match a_answer action with Some a => a | None => [] end
             else js "Task completed successfully") ;;
  url <- perform (call env GetCurrentURL) ;;
  setFinalURL url ;;
  extracted <- getExtracted ;;
  (match extracted with
   | [] => l <- extractFinalContacts ;; setExtracted l
   | _ :: _ => ret tt
   end) ;;
  extracted' <- getExtracted ;;
  setContacts extracted'.

(** Steps 5 and what follows in the body: the [switch], the pause and the
    extraction after a click or a typing. *)
Definition execute (action : Action) : Task BodyExit :=
  match a_type action with
  | done => doDone action ;; ret Return
  | t =>
      (match t with
       | click => doClick action
       | type => doType action
       | _ => doScroll action
       end) ;;
      (match t with
       | click | type =>
           newContacts <- extractContactsFromCurrentPage ;;
           match newContacts with
           | [] => ret tt
           | _ :: _ =>
               extracted <- getExtracted ;;
               setExtracted (uniqueJSON [] (extracted ++ newContacts))
           end
       | _ => ret tt
       end) ;;
      ret Continue
  end.

Definition getCalls : Task (list ApiCall) := fun st => (Ok (calls st), st).

(** The body of [while (currentStep < maxSteps)].  As written, the call of
    [browser.screenshot] throws, and the body ends there. *)
Definition loopBody : Task BodyExit :=
  n <- nextStep ;;
  shot <- perform (withErrorHandling (js "screenshot") (call env Screenshot)) ;;
  pushAction (js "Screenshot #" ++ showZ n) ;;
  tr <- getCalls ;;
  pushAction (actionLine (nextAction (modelReply env tr shot))) ;;
  execute (nextAction (modelReply env tr shot)).

(** How the [while] statement ends. *)
Inductive LoopExit := Exited | Returned.

(** The loop.  [fuel] bounds the number of executions of the body that the
    model follows; [None] means that it was not enough. *)
Fixpoint mainLoop (fuel : nat) (maxSteps : Z) (st : Run)
  : option (Res LoopExit * Run) :=
  if (currentStep st <? maxSteps)%Z then
    match fuel with
    | O => None
    | S fuel' =>
        match loopBody st with
        | (Ok Continue, st') => mainLoop fuel' maxSteps st'
        | (Ok Return, st') => Some (Ok Returned, st')
        | (Err e, st') => Some (Err e, st')
        end
    end
  else Some (Ok Exited, st).

(** The statements after the loop, inside [try].  As written, the call of
    [browser.getCurrentURL] throws, after [answer] is set. *)
Definition afterLoop (maxSteps : Z) : Task unit :=
  setAnswer (js "Max steps (" ++ showZ maxSteps
             ++ js ") reached. Partial progress made.") ;;
  url <- perform (call env GetCurrentURL) ;;
  setFinalURL url ;;
  extracted <- getExtracted ;;
  setContacts extracted.

(** The [catch] block. *)
Definition onError (e : jsstring) : Task unit :=
  setError e ;;
  setSuccess false ;;
  setAnswer (js "Error occurred: " ++ e).

Definition initialRun : Run :=
  mkRun (mkResult false None 0 [] [] None None) 0 [] [] 0.

(** [runTask(task, maxSteps, onProgress)].  The prompt sent with the
    screenshot, and so the task, is part of the environment's
    [modelReply]; the progress callbacks and the pauses are not modelled.
    The final run is returned with the result. *)
Definition runTask (fuel : nat) (maxSteps : Z) : option Run :=
  let start :=
    (perform (withErrorHandling (js "navigation")
                (newTab env (js "https://www.google.com"))) ;;
     pushAction (js "Navigate to Google")) initialRun in
  match start with
  | (Err e, st) => Some (snd (onError e st))
  | (Ok _, st) =>
      match mainLoop fuel maxSteps st with
      | None => None
      | Some (Ok Returned, st') => Some st'
      | Some (Ok Exited, st') =>
          match afterLoop maxSteps st' with
          | (Ok _, st'') => Some st''
          | (Err e, st'') => Some (snd (onError e st''))
          end
      | Some (Err e, st') => Some (snd (onError e st'))
      end
  end.

End RunTask.

(** *** [visionAgentUtils.cleanupContacts] *)

Definition confOrZero (c : Contact) : Q :=
  match confidence c with
  | Some q => q
  | None => 0
  end.

(** [Array.prototype.findIndex] *)
Fixpoint findIndexFrom (A : Type) (p : A -> bool) (l : list A) (i : Z) : Z :=
  match l with
  | [] => (-1)%Z
  | a :: l' => if p a then i else findIndexFrom p l' (i + 1)%Z
  end.

Definition findIndex (A : Type) (p : A -> bool) (l : list A) : Z :=
  findIndexFrom p l 0.

(** [Array.prototype.filter] with a callback that uses the index. *)
Fixpoint filterFrom (A : Type) (f : A -> Z -> bool) (l : list A) (i : Z)
  : list A :=
  match l with
  | [] => []
  | a :: l' =>
      if f a i then a :: filterFrom f l' (i + 1)%Z
      else filterFrom f l' (i + 1)%Z
  end.

Definition sameValue (a b : Contact) : bool :=
  JS.eqb (toLowerCase (value a)) (toLowerCase (value b)).

(** [Array.prototype.sort] with the comparator
    [(a, b) => (b.confidence || 0) - (a.confidence || 0)].  The sort is
    stable; [a] goes before [b] when the comparator is negative. *)
Definition before (a b : Contact) : bool :=
  match (confOrZero b - confOrZero a) ?= 0 with
  | Lt => true
  | _ => false
  end.

Fixpoint insert (a : Contact) (l : list Contact) : list Contact :=
  match l with
  | [] => [a]
  | b :: l' => if before b a then b :: insert a l' else a :: l
  end.

Fixpoint sort (l : list Contact) : list Contact :=
  match l with
  | [] => []
  | a :: l' => insert a (sort l')
  end.

Definition cleanupContacts (contacts_ : list Contact) : list Contact :=
  let unique :=
    filterFrom
      (fun contact index =>
         (index =? findIndex (fun c => sameValue c contact) contacts_)%Z)
      contacts_ 0 in
  firstn 10
    (filter (fun c => match confOrZero c ?= (1 # 2) with Gt => true | _ => false end)
       (sort unique)).

(** *** [visionAgentUtils.estimateSteps] *)

Definition simpleTasks : list jsstring :=
  [js "search"; js "find"; js "get"; js "look up"].

Definition complexTasks : list jsstring :=
  [js "research"; js "analyze"; js "compare"; js "multiple"].

Definition estimateSteps (task : jsstring) : Z :=
  let lowerTask := toLowerCase task in
  if existsb (fun word => includes lowerTask word) simpleTasks then 8
  else if existsb (fun word => includes lowerTask word) complexTasks then 20
  else 12.

End VisionAgent.

Import VisionAgent.

(** ** The contact pipeline (ContactSearchAgent.ts) *)

Module ContactSearch.

Inductive ContactType := email | phone | address | social | general.
Inductive Source := text | vision | both.

Record Validation := mkValidation {
  domainMatch : option bool;
  patternMatch : option bool;
  locationMatch : option bool
}.

(** [type ContactResult] *)
Record ContactResult := mkContactResult {
  value : jsstring;
  type : ContactType;
  confidence : Q;
  source : Source;
  context : jsstring;
  validation : Validation
}.

(** [_deduplicateContacts]: [seen] is the set of the lower-cased values met
    so far. *)
Fixpoint dedupFrom (seen : list jsstring) (l : list ContactResult)
  : list ContactResult :=
  match l with
  | [] => []
  | contact :: l' =>
      if existsb (JS.eqb (toLowerCase (value contact))) seen
      then dedupFrom seen l'
      else contact :: dedupFrom (toLowerCase (value contact) :: seen) l'
  end.

Definition _deduplicateContacts (l : list ContactResult) : list ContactResult :=
  dedupFrom [] l.

Definition qmin (a b : Q) : Q := if Qle_bool a b then a else b.

(** Truthiness of an optional string. *)
Definition given (v : option jsstring) : option jsstring :=
  match v with
  | Some (c :: t) => Some (c :: t)
  | _ => None
  end.

Definition notSpaceNorAt (c : N) : bool := negb (isSpace c || (c =? 64)%N).

(** [/^[^\s@]+@[^\s@]+\.[^\s@]+$/] *)
Definition reEmail : re :=
  seq (plus notSpaceNorAt)
    (seq (unit_ 64)
       (seq (plus notSpaceNorAt)
          (seq (unit_ 46) (seq (plus notSpaceNorAt) eoi)))).

(** [email.split('@')[1]?.toLowerCase() || ''] *)
Definition domainOf (email_ : jsstring) : jsstring :=
  match splitUnit 64 email_ [] with
  | _ :: d :: _ => toLowerCase d
  | _ => []
  end.

Definition contactWord (s : jsstring) : bool :=
  includes (toLowerCase s) (js "contact")
  || includes (toLowerCase s) (js "info")
  || includes (toLowerCase s) (js "support").

(** [_validateEmail(email, target)]: confidence, domainMatch, patternMatch. *)
Definition _validateEmail (email_ : jsstring) (target : option jsstring)
  : Q * bool * bool :=
  let pm := testAtStart reEmail email_ in
  let c0 : Q := if pm then 4 # 5 else 3 # 10 in
  let dm :=
    match given target with
    | Some t =>
        existsb (fun part => includes (domainOf email_) part)
                (splitSpaces (toLowerCase t) [] false)
    | None => false
    end in
  let c1 := if dm then c0 + (3 # 20) else c0 in
  let c2 := if contactWord email_ then c1 + (1 # 10) else c1 in
  (qmin c2 1, dm, pm).

Definition isPhonePunct (c : N) : bool :=
  isSpace c || (c =? 45)%N || (c =? 40)%N || (c =? 41)%N.

(** [/^[\+]?[1-9][\d]{0,15}$/] *)
Definition rePhone : re :=
  seq (opt (unit_ 43))
    (seq (cls (fun c => (49 <=? c) && (c <=? 57))%N)
       (seq (upto 15 isDigit) eoi)).

Definition areaCodeLocations : list jsstring :=
  [js "New York"; js "NY"; js "Los Angeles"; js "CA"; js "San Francisco";
   js "CA"; js "Boston"; js "MA"; js "Seattle"; js "WA"].

(** [_validatePhone(phone, location)]: confidence, patternMatch,
    areaCodeMatchesLocation. *)
Definition _validatePhone (phone_ : jsstring) (location : option jsstring)
  : Q * bool * bool :=
  let cleanPhone := filter (fun c => negb (isPhonePunct c)) phone_ in
  let pm := testAtStart rePhone cleanPhone in
  let c0 : Q := if pm then 3 # 4 else 3 # 10 in
  let am :=
    match given location with
    | Some l =>
        startsWith cleanPhone (js "1")
        && existsb (fun loc => includes (toLowerCase l) (toLowerCase loc))
                   areaCodeLocations
    | None => false
    end in
  let c1 := if am then c0 + (3 # 20) else c0 in
  (qmin c1 1, pm, am).

Definition addressPatterns : list jsstring :=
  [js "st"; js "street"; js "ave"; js "avenue"; js "rd"; js "road";
   js "blvd"; js "boulevard"; js "suite"; js "floor"].

(** [_validateAddress(address, target, location)]: confidence and
    locationMatch. *)
Definition _validateAddress (address_ : jsstring)
    (target location : option jsstring) : Q * bool :=
  let c0 : Q := 3 # 5 in
  let lm :=
    match given location with
    | Some l => includes (toLowerCase address_) (toLowerCase l)
    | None => false
    end in
  let c1 := if lm then c0 + (1 # 5) else c0 in
  let tm :=
    match given target with
    | Some t => includes (toLowerCase address_) (toLowerCase t)
    | None => false
    end in
  let c2 := if tm then c1 + (3 # 20) else c1 in
  let c3 :=
    if existsb (fun pat => includes (toLowerCase address_) pat) addressPatterns
    then c2 + (1 # 10) else c2 in
  (qmin c3 1, lm).

Definition typeEqb (a b : ContactType) : bool :=
  match a, b with
  | email, email | phone, phone | address, address
  | social, social | general, general => true
  | _, _ => false
  end.

Definition typeText (t : ContactType) : jsstring :=
  match t with
  | email => js "email"
  | phone => js "phone"
  | address => js "address"
  | social => js "social"
  | general => js "general"
  end.

(** The body of the loop of [contact_validation_tool] for one contact. *)
Definition validateOne (target : jsstring) (contactType : ContactType)
    (location : option jsstring) (contact : ContactResult) : ContactResult :=
  let c0 : Q := 1 # 2 in
  let v0 := (false, false, false) in
  let '(c1, v1) :=
    if typeEqb contactType email && typeEqb (type contact) email then
      let '(c, dm, pm) := _validateEmail (value contact) (Some target) in
      (c, (dm, pm, false))
    else (c0, v0) in
  let '(c2, v2) :=
    if typeEqb contactType phone && typeEqb (type contact) phone then
      let '(c, pm, am) := _validatePhone (value contact) location in
      let '(dm1, _, lm1) := v1 in
      (c, (dm1, pm, match given location with Some _ => am | None => lm1 end))
    else (c1, v1) in
  let '(c3, v3) :=
    if typeEqb contactType address && typeEqb (type contact) address then
      let '(c, lm) := _validateAddress (value contact) (Some target) location in
      let '(dm2, pm2, _) := v2 in
      (c, (dm2, pm2, lm))
    else (c2, v2) in
  let c4 := match source contact with vision => c3 * (9 # 10) | _ => c3 end in
  let c5 := match source contact with both => c4 * (11 # 10) | _ => c4 end in
  let '(dm, pm, lm) := v3 in
  mkContactResult (value contact) (type contact) (qmin c5 1) (source contact)
    (target ++ js " - " ++ typeText contactType ++ js " contact")
    (mkValidation (Some dm) (Some pm) (Some lm)).

(** The [output] of [contact_validation_tool] (without its summary). *)
Record ValidationOutput := mkValidationOutput {
  originalCount : nat;
  validatedCount : nat;
  highConfidenceCount : nat;
  validatedContacts : list ContactResult;
  highConfidenceContacts : list ContactResult
}.

(** [contact_validation_tool] *)
Definition contact_validation_tool (contacts_ : list ContactResult)
    (target : jsstring) (contactType : ContactType)
    (location : option jsstring) : ValidationOutput :=
  let validated := map (validateOne target contactType location) contacts_ in
  let high := filter (fun c => Qle_bool (3 # 5) (confidence c)) validated in
  mkValidationOutput (length contacts_) (length validated) (length high)
    validated high.

(** [ContactSearchParams], the fields the stage reads. *)
Record Params := mkParams {
  p_target : jsstring;
  p_contactType : ContactType;
  p_location : option jsstring
}.

(** Steps 5 and 6 of [contact_extraction_tool], on the contacts of the text
    extractor and of the vision extractor (steps 1 to 4): combine,
    deduplicate, validate if asked.  The value is the list
    [validatedContacts] of the tool's output.  The two tools exchange their
    results as JSON texts; the stage is modelled on the values, which the
    texts carry unchanged. *)
Definition combineAndValidate (params : Params)
    (textContacts visionContacts : list ContactResult)
    (validateContacts : bool) : list ContactResult :=
  let allContacts := textContacts ++ visionContacts in
  let uniqueContacts := _deduplicateContacts allContacts in
  if validateContacts
  then validatedContacts
         (contact_validation_tool uniqueContacts (p_target params)
            (p_contactType params) (p_location params))
  else uniqueContacts.

(** *** [_extractContactsFromText] *)

Definition isAlpha (c : N) : bool :=
  (((97 <=? c) && (c <=? 122)) || ((65 <=? c) && (c <=? 90)))%N.

(** [[a-zA-Z0-9._%+-]] *)
Definition isLocalChar (c : N) : bool :=
  isAlpha c || isDigit c
  || (c =? 46)%N || (c =? 95)%N || (c =? 37)%N || (c =? 43)%N || (c =? 45)%N.

(** [[a-zA-Z0-9.-]] *)
Definition isDomainChar (c : N) : bool :=
  isAlpha c || isDigit c || (c =? 46)%N || (c =? 45)%N.

(** [/([a-zA-Z0-9._%+-]+@[a-zA-Z0-9.-]+\.[a-zA-Z]{2,})/g] *)
Definition emailRegex : re :=
  group
    (seq (plus isLocalChar)
       (seq (unit_ 64)
          (seq (plus isDomainChar)
             (seq (unit_ 46) (seq (cls isAlpha) (plus isAlpha)))))).

(** [[-.\s]] *)
Definition isPhoneSep (c : N) : bool :=
  (c =? 45)%N || (c =? 46)%N || isSpace c.

Definition digits3 : re := seq (cls isDigit) (seq (cls isDigit) (cls isDigit)).

(** [/(\+?1[-.\s]?)?\(?([0-9]{3})\)?[-.\s]?([0-9]{3})[-.\s]?([0-9]{4})/g] *)
Definition phoneRegex : re :=
  seq (opt (group (seq (opt (unit_ 43)) (seq (unit_ 49) (opt (cls isPhoneSep))))))
    (seq (opt (unit_ 40))
       (seq (group digits3)
          (seq (opt (unit_ 41))
             (seq (opt (cls isPhoneSep))
                (seq (group digits3)
                   (seq (opt (cls isPhoneSep))
                      (group (seq digits3 (cls isDigit))))))))).

(** [_isRelevantEmail(email, target)] *)
Definition _isRelevantEmail (email_ : jsstring) (target : option jsstring)
  : bool :=
  match given target with
  | None => true
  | Some t =>
      let targetDomain := removeSpaces (toLowerCase t) in
      let emailDomain := domainOf email_ in
      includes emailDomain targetDomain
      || includes email_ (js "contact")
      || includes email_ (js "info")
      || includes email_ (js "support")
  end.

(** The loop over the matches of [emailRegex]; [contacts_] is the array
    being filled.  A group that did not take part is [undefined], on which
    the first method call throws. *)
Fixpoint emailsOf (target : jsstring) (ms : list (jsstring * caps))
    (contacts_ : list ContactResult) : Res (list ContactResult) :=
  match ms with
  | [] => Ok contacts_
  | (_, m) :: ms' =>
      match groupOf m 1 with
      | Err e => Err e
      | Ok email_ =>
          emailsOf target ms'
            (if _isRelevantEmail email_ (Some target) then
               contacts_
               ++ [mkContactResult email_ email (3 # 4) text
                     (target ++ js " email found in text content")
                     (mkValidation
                        (Some (includes (toLowerCase email_)
                                 (removeSpaces (toLowerCase target))))
                        (Some true) None)]
             else contacts_)
      end
  end.

(** The body of the loop over the matches of [phoneRegex]. *)
Definition phonesOf (target : jsstring) (ms : list (jsstring * caps))
  : list ContactResult :=
  map (fun m =>
         mkContactResult (fst m) phone (7 # 10) text
           (target ++ js " phone number found in text")
           (mkValidation None (Some true) None))
      ms.

(** [_extractContactsFromText(text, params)]; [None] when [fuel] does not
    cover the matches. *)
Definition _extractContactsFromText (fuel : nat) (text_ : jsstring)
    (params : Params) : option (Res (list ContactResult)) :=
  let target := p_target params in
  let emails :=
    if typeEqb (p_contactType params) email
    then option_map (fun ms => emailsOf target ms [])
                    (execAll fuel emailRegex text_)
    else Some (Ok []) in
  let phones :=
    if typeEqb (p_contactType params) phone
    then option_map (phonesOf target) (execAll fuel phoneRegex text_)
    else Some [] in
  match emails, phones with
  | Some (Ok es), Some ps => Some (Ok (es ++ ps))
  | Some (Err e), _ => Some (Err e)
  | _, _ => None
  end.

(** *** [_parseTaskToParams]: the contact type detected in the task *)

Definition detectContactType (task : jsstring) : ContactType :=
  let lowerTask := toLowerCase task in
  if includes lowerTask (js "phone") || includes lowerTask (js "call")
     || includes lowerTask (js "number") then phone
  else if includes lowerTask (js "address")
          || includes lowerTask (js "location")
          || includes lowerTask (js "office") then address
  else if includes lowerTask (js "linkedin")
          || includes lowerTask (js "twitter")
          || includes lowerTask (js "social") then social
  else email.

End ContactSearch.

(** ** The model gateway ([callLLM]) *)

Module Gateway.

Inductive Provider := openai | google | openrouter.

(** [interface AIConfig], the fields that decide the control flow of
    [callLLM]; the others only go into the request body. *)
Record AIConfig := mkConfig {
  enabled : bool;
  apiKey : jsstring;
  provider : Provider;
  model : jsstring;
  requestsPerMinute : Q
}.

Record AgentResponse := mkAgentResponse {
  needsSearch : bool;
  searchQuery : jsstring;
  response : jsstring
}.

(** An HTTP response, as [callLLM] reads it: the status, the [retry-after]
    header, the [error] object of the body (if the body is JSON and has one)
    with its message, and what the code after [response.json()] makes of a
    successful body. *)
Record Response := mkResponse {
  status : Z;
  retryAfter : option jsstring;
  errorOf : option (option jsstring);
  decision : Res AgentResponse;
  candidateText : Res (option jsstring)
}.

Definition ok (r : Response) : bool :=
  ((200 <=? status r) && (status r <=? 299))%Z.

(** What the network does with one request: the time it takes and the
    response, or the rejection of [fetch]. *)
Record Exchange := mkExchange {
  latency : N;
  reply : Res Response
}.

(** The environment of one call: by how much each timer fires late, and the
    exchanges of the first request and of the retry. *)
Record CallEnv := mkCallEnv {
  gateLate : N;
  first : Exchange;
  retryLate : N;
  second : Exchange
}.

(** The clock ([Date.now()], in ms), the module variable [lastRequestTime],
    and the times at which requests were sent. *)
Record World := mkWorld {
  now : Q;
  lastRequestTime : Q;
  sent : list Q
}.

Definition ofN (n : N) : Q := inject_Z (Z.of_N n).

(** [await new Promise(resolve => setTimeout(resolve, delay))]: the timer
    fires [delay] ms later (at once if the delay is not positive), or
    later. *)
Definition sleep (delay : Q) (late : N) (w : World) : World :=
  let d := match delay ?= 0 with Gt => delay | _ => 0 end in
  mkWorld (now w + d + ofN late) (lastRequestTime w) (sent w).

(** [fetch(url, ...)]: the request is sent now; the answer comes
    [latency] ms later. *)
Definition fetch (x : Exchange) (w : World) : Res Response * World :=
  (reply x,
   mkWorld (now w + ofN (latency x)) (lastRequestTime w) (sent w ++ [now w])).

(** What a call returns: the decision read from the body, or, after a
    retry, the text of the first candidate. *)
Inductive Returned :=
| Decision (a : AgentResponse)
| RetryText (t : jsstring).

(** The rate gate. *)
Definition gate (config : AIConfig) (late : N) (w : World) : World :=
  let timeSinceLastRequest := now w - lastRequestTime w in
  let minRequestInterval := 60000 / requestsPerMinute config in
  let w1 :=
    match timeSinceLastRequest ?= minRequestInterval with
    | Lt => sleep (minRequestInterval - timeSinceLastRequest) late w
    | _ => w
    end in
  mkWorld (now w1) (now w1) (sent w1).

Definition showOpt (m : option jsstring) : jsstring :=
  match m with
  | Some t => t
  | None => js "undefined"
  end.

Definition orUnknown (e : option (option jsstring)) : jsstring :=
  match e with
  | Some (Some (c :: t)) => c :: t
  | _ => js "Unknown error"
  end.

(** [parseInt(response.headers.get('retry-after') || '60', 10) * 1000];
    NaN is given as 0, which is what the timer makes of it. *)
Definition retryTime (r : Response) : Q :=
  let retryAfter_ :=
    match retryAfter r with
    | Some (c :: t) => c :: t
    | _ => js "60"
    end in
  match parseInt retryAfter_ with
  | Some n => inject_Z (n * 1000)
  | None => 0
  end.

(** The retry of a 429: wait for [retry-after] seconds (60 when the header
    is missing or empty), send the request again once. *)
Definition retry429 (e : CallEnv) (r : Response) (w : World)
  : Res Returned * World :=
  let w1 := sleep (retryTime r) (retryLate e) w in
  match fetch (second e) w1 with
  | (Err m, w2) => (Err m, w2)
  | (Ok retryResponse, w2) =>
      if ok retryResponse then
        match candidateText retryResponse with
        | Err m => (Err m, w2)
        | Ok (Some (c :: t)) => (Ok (RetryText (c :: t)), w2)
        | Ok _ => (Ok (RetryText (js "No response from model")), w2)
        end
      else
        (Err (js "API Error (retry failed): " ++ showZ (status retryResponse)
              ++ js " - " ++ orUnknown (errorOf retryResponse)), w2)
  end.

Definition isGoogle (p : Provider) : bool :=
  match p with
  | google => true
  | _ => false
  end.

(** [callLLM(message, config, messageHistory)] *)
Definition callLLM (config : AIConfig) (e : CallEnv) (w : World)
  : Res Returned * World :=
  if negb (enabled config) || match apiKey config with [] => true | _ => false end
  then
    (Err (js "AI is not enabled or API key is missing. Configure in Settings."),
     w)
  else
    let w1 := gate config (gateLate e) w in
    match fetch (first e) w1 with
    | (Err m, w2) => (Err m, w2)
    | (Ok r, w2) =>
        if ok r then
          match decision r with
          | Ok a => (Ok (Decision a), w2)
          | Err m => (Err m, w2)
          end
        else
          let errorMsg := js "API Error: " ++ showZ (status r) in
          match errorOf r with
          | Some message =>
              let errorMsg1 := errorMsg ++ js " - " ++ showOpt message in
              if isGoogle (provider config) && (status r =? 429)%Z then
                retry429 e r w2
              else if isGoogle (provider config)
                      && startsWith (model config) (js "gemini-2.5-")
                      && (status r =? 404)%Z then
                (Err (errorMsg1 ++ js " (Gemini 2.5 may have temporary availability issues. Try gemini-1.5-flash instead.)"), w2)
              else (Err errorMsg1, w2)
          | None => (Err errorMsg, w2)
          end
    end.

(** Calls made one after the other: each call with its environment and the
    time that passes before it. *)
Fixpoint callAll (config : AIConfig) (es : list (N * CallEnv)) (w : World)
  : World :=
  match es with
  | [] => w
  | (idle, e) :: es' =>
      let w0 := mkWorld (now w + ofN idle) (lastRequestTime w) (sent w) in
      callAll config es' (snd (callLLM config e w0))
  end.

End Gateway.

(** ** Vocabulary for the decoder *)

(** A coordinate that is not negative: an integer from 0 on, or Infinity. *)
Definition nonNegative (c : Coordinate) : Prop :=
  match c with
  | Integer z => (0 <= z)%Z
  | Infinite => True
  end.

(** A well-formed action: the fields of its variant, and only those, are
    present, and the coordinates of a click are Numbers that are not
    negative, each an integer or Infinity. *)
Definition wellFormed (a : Action) : Prop :=
  match a_type a with
  | click =>
      exists x y, a = mkClickAt (Some x) (Some y) /\ nonNegative x /\ nonNegative y
  | type => exists t b, a = mkType t b
  | scroll => exists d, a = mkScroll d
  | done => exists summary, a = mkDone summary
  end.

(** The tests of the four rules of [parseAction], as the code makes them. *)
Definition ruleDone (text : jsstring) : bool :=
  startsWith (toUpperCase (trim text)) (js "DONE").




(** The summary of a DONE answer.  [claimedSummary] follows the words of
    the specification: the text after DONE, trimmed, or the default if that
    is empty.  [firstLineSummary] is the first line of the text after DONE,
    white space skipped, trimmed; the default if nothing but line
    terminators follows DONE. *)
Definition claimedSummary (text : jsstring) : jsstring :=
  match trim (skipn 4 (trim text)) with
  | [] => js "Task completed"
  | r => r
  end.

Definition firstLineSummary (text : jsstring) : jsstring :=
  let rest := skipn 4 (trimStart text) in
  if existsb isDot rest
  then trim (takeWhile isDot (trimStart rest))
  else js "Task completed".

(** [DONE a], a line feed, [b]. *)
Definition twoLineDone : jsstring := js "DONE a" ++ [10%N] ++ js "b".

(** What a matcher can consume and capture.  [consumes r P]: whenever [r]
    succeeds, it has consumed a prefix that satisfies [P], captured nothing,
    and its continuation succeeded on the rest.  [captures r P] also tells
    the groups that [r] added. *)
Definition consumes (r : re) (P : jsstring -> Prop) : Prop :=
  forall k s cs out,
    r k s cs = Some out ->
    exists u s', s = u ++ s' /\ P u /\ k s' cs = Some out.

Definition captures (r : re) (P : jsstring -> caps -> Prop) : Prop :=
  forall k s cs out,
    r k s cs = Some out ->
    exists u s' c, s = u ++ s' /\ P u c /\ k s' (cs ++ c) = Some out.

(** A text that starts with a digit. *)
Definition numberLike (g : jsstring) : Prop :=
  exists c r, g = c :: r /\ isDigit c = true.

(** ** Vocabulary for the contact lists *)

(** The key under which [cleanupContacts] identifies contacts. *)
Definition keyOf (c : Contact) : jsstring := toLowerCase (value c).

(** The contacts of [suf] whose key occurs neither in [pre] nor earlier in
    [suf]. *)
Fixpoint firstOcc (pre suf : list Contact) : list Contact :=
  match suf with
  | [] => []
  | c :: suf' =>
      if existsb (fun c' => sameValue c' c) pre
      then firstOcc (pre ++ [c]) suf'
      else c :: firstOcc (pre ++ [c]) suf'
  end.

(** [a] may stand before [b] in a list sorted by descending confidence. *)
Definition descending (a b : Contact) : Prop := confOrZero b <= confOrZero a.

(** [l1] is [l2] with some elements left out. *)
Inductive subseq (A : Type) : list A -> list A -> Prop :=
| subseq_nil : subseq [] []
| subseq_skip a l1 l2 : subseq l1 l2 -> subseq l1 (a :: l2)
| subseq_keep a l1 l2 : subseq l1 l2 -> subseq (a :: l1) (a :: l2).

(** The values of [l] are new with respect to [seen] and to each other
    (lower-cased). *)
Fixpoint fresh (seen : list jsstring) (l : list ContactSearch.ContactResult)
  : Prop :=
  match l with
  | [] => True
  | c :: l' =>
      existsb (JS.eqb (toLowerCase (ContactSearch.value c))) seen = false /\
      fresh (toLowerCase (ContactSearch.value c) :: seen) l'
  end.

(** ** Vocabulary for the gateway *)

(** A configuration with which [callLLM] reaches the network. *)
Definition active (config : Gateway.AIConfig) : Prop :=
  Gateway.enabled config = true /\ Gateway.apiKey config <> [].

(** The condition under which [callLLM] retries: the response is not ok,
    its body has an error object, the provider is google and the status is
    429. *)
Definition retries (config : Gateway.AIConfig) (r : Gateway.Response) : bool :=
  negb (Gateway.ok r)
  && match Gateway.errorOf r with Some _ => true | None => false end
  && Gateway.isGoogle (Gateway.provider config)
  && (Gateway.status r =? 429)%Z.

(** No two consecutive times of [ts] are less than [d] apart. *)
Fixpoint spaced (d : Q) (ts : list Q) : Prop :=
  match ts with
  | [] => True
  | a :: r =>
      match r with
      | [] => True
      | b :: _ => d <= b - a /\ spaced d r
      end
  end.

(** ** How a run ends *)



Definition Failed (st : Run) : Prop :=
  success (result st) = false /\
  exists e, error (result st) = Some e /\
            answer (result st) = Some (js "Error occurred: " ++ e).

(** The part of a run that decides how it ends. *)
Definition core (st : Run)
  : bool * option jsstring * option jsstring * Z * nat :=
  (success (result st), error (result st), answer (result st),
   currentStep st, iterations st).

(** The part of the result that reports the progress made. *)
Definition progress (st : Run) : list Contact * option jsstring :=
  (contacts (result st), finalURL (result st)).

(** A task that leaves it alone. *)
Definition quiet (A : Type) (m : Task A) : Prop :=
  forall st, progress (snd (m st)) = progress st.

(** The result reports the contacts gathered and a final URL. *)
Definition reportsProgress (st : Run) : Prop :=
  contacts (result st) = extractedContacts st /\
  exists url, finalURL (result st) = Some url.

(** A task that leaves the core alone. *)
Definition stable (A : Type) (m : Task A) : Prop :=
  forall st, core (snd (m st)) = core st.

(** ** Environments and inputs used in the examples *)

(** Every native call succeeds with an empty answer, there is no native
    viewport, the model answers nothing and the page has no contact. *)
Definition quietEnv : Env :=
  mkEnv (fun _ _ => Ok []) (fun _ => None) (fun _ _ => Ok None) (fun _ => Ok []).

(** The model decides [CLICK 100 200] at every step, every native call
    succeeds except the second screenshot, and the page holds one address. *)
Definition infoContact : Contact :=
  mkContact (js "info@acme.com") email (Some (4 # 5)) dom
            (js "body text extraction").

Definition secondShotFails : Env :=
  mkEnv
    (fun tr c =>
       match c with
       | Screenshot =>
           if existsb (fun d => match d with Screenshot => true | _ => false end) tr
           then Err (js "capture failed")
           else Ok (js "iVBORw0KGgo=")
       | _ => Ok []
       end)
    (fun _ => None)
    (fun _ _ => Ok (Some (js "CLICK 100 200")))
    (fun _ => Ok [infoContact]).

(** The free-tier configuration of the application, and the same for
    another provider. *)
Definition freeTier : Gateway.AIConfig :=
  Gateway.mkConfig true (js "key") Gateway.google (js "gemini-1.5-pro") 15.


(** A 429 with an error body and [retry-after: 1], answered after 100 ms,
    twice. *)
Definition quota429 : Gateway.Response :=
  Gateway.mkResponse 429 (Some (js "1")) (Some (Some (js "quota")))
    (Err []) (Ok None).

Definition twice429 : Gateway.CallEnv :=
  Gateway.mkCallEnv 0 (Gateway.mkExchange 100 (Ok quota429))
                    0 (Gateway.mkExchange 100 (Ok quota429)).

Definition noon : Gateway.World := Gateway.mkWorld 1000000 0 [].

(** A contact of another type than the one searched, found by the vision
    extractor, and the search. *)
Definition visionPhone : ContactSearch.ContactResult :=
  ContactSearch.mkContactResult (js "+1 212 555 0100") ContactSearch.phone
    (9 # 10) ContactSearch.vision (js "Gemini extraction")
    (ContactSearch.mkValidation None None None).

Definition emailSearch : ContactSearch.Params :=
  ContactSearch.mkParams (js "Acme") ContactSearch.email None.

Definition lowContact : Contact :=
  mkContact (js "a@x.com") email (Some (11 # 20)) dom (js "body text extraction").

(** The model answers [DONE Found 1 email]; the page is
    https://acme.com/contact and holds one address. *)
Definition doneAtOnce : Env :=
  mkEnv
    (fun _ c =>
       match c with
       | GetCurrentURL => Ok (js "https://acme.com/contact")
       | _ => Ok []
       end)
    (fun _ => None)
    (fun _ _ => Ok (Some (js "DONE Found 1 email")))
    (fun _ => Ok [infoContact]).

(** ** Vocabulary for the calls of a run *)

Definition isScreenshot (c : ApiCall) : bool :=
  match c with
  | Screenshot => true
  | _ => false
  end.

(** A tap of 100 ms inside the viewport against which [runTask] validates
    the coordinates of a click. *)
Definition tapInBounds (c : ApiCall) : Prop :=
  match c with
  | DispatchTap x y duration =>
      (0 <= x <= width GeminiVision.getViewportDimensions)%Z /\
      (0 <= y <= height GeminiVision.getViewportDimensions)%Z /\
      duration = 100%Z
  | _ => True
  end.

(** A call that the execution of an action may make: not a screenshot, and
    if a tap, one in bounds. *)
Definition actionCall (c : ApiCall) : Prop :=
  isScreenshot c = false /\ tapInBounds c.

(** An operation, a task, that only adds such calls to the calls made. *)
Definition opAdds (A : Type) (op : Op A) : Prop :=
  forall tr, exists new, snd (op tr) = tr ++ new /\ Forall actionCall new.

Definition adds (A : Type) (m : Task A) : Prop :=
  forall st, exists new,
    calls (snd (m st)) = calls st ++ new /\ Forall actionCall new.

(** The counters of a run, and a task that leaves them alone. *)
Definition counters (st : Run) : Z * Z * nat :=
  (steps (result st), currentStep st, iterations st).

Definition keeps (A : Type) (m : Task A) : Prop :=
  forall st, counters (snd (m st)) = counters st.

(** The steps reported, the step counter and the number of executions of
    the body agree. *)
Definition inStep (st : Run) : Prop :=
  counters st
  = (Z.of_nat (iterations st), Z.of_nat (iterations st), iterations st).

(** Every native call succeeds, and the model wants to type [hi] and press
    Enter at every step. *)
Definition typist : Env :=
  mkEnv (fun _ _ => Ok []) (fun _ => None)
        (fun _ _ => Ok (Some (js "TYPE hi SUBMIT"))) (fun _ => Ok []).

(** The page cannot be loaded. *)
Definition offline : Env :=
  mkEnv (fun _ c =>
           match c with
           | LoadURL _ => Err (js "net::ERR_INTERNET_DISCONNECTED")
           | _ => Ok []
           end)
        (fun _ => None) (fun _ _ => Ok None) (fun _ => Ok []).

(** The environments of the program as written: [browser] has no method
    [screenshot], [getCurrentURL] or [evaluateJavaScript], so each of these
    calls throws, whatever was called before. *)
Definition asWritten (env : Env) : Prop :=
  forall tr,
    (exists m, native env tr Screenshot = Err m) /\
    (exists m, native env tr GetCurrentURL = Err m) /\
    (exists m, native env tr EvaluateJavaScript = Err m).

(** One of them: every native call succeeds, and the model wants to click
    at (100, 200). *)
Definition writtenBrowser : Env :=
  mkEnv (fun _ c =>
           match c with
           | Screenshot => Err (js "browser.screenshot is not a function")
           | GetCurrentURL => Err (js "browser.getCurrentURL is not a function")
           | EvaluateJavaScript =>
               Err (js "browser.evaluateJavaScript is not a function")
           | _ => Ok []
           end)
        (fun _ => None) (fun _ _ => Ok (Some (js "CLICK 100 200")))
        (fun _ => Ok []).

(** The run that [runTask] returns, for the examples. *)
Definition runOf (r : option Run) : Run :=
  match r with
  | Some st => st
  | None => initialRun
  end.

(** ** Vocabulary for the contact pipeline *)

(** The key under which [_deduplicateContacts] identifies contacts. *)
Definition resultKey (c : ContactSearch.ContactResult) : jsstring :=
  toLowerCase (ContactSearch.value c).

(** The threshold of [highConfidenceContacts]. *)
Definition highConfidence (c : ContactSearch.ContactResult) : bool :=
  Qle_bool (3 # 5) (ContactSearch.confidence c).

(** Two contacts that the extractors could return for the same value, with
    different confidences and contexts. *)
Definition salesText : ContactSearch.ContactResult :=
  ContactSearch.mkContactResult (js "sales@acme.com") ContactSearch.email
    (3 # 4) ContactSearch.text (js "Acme email found in text content")
    (ContactSearch.mkValidation (Some true) (Some true) None).

Definition salesGuess : ContactSearch.ContactResult :=
  ContactSearch.mkContactResult (js "sales@acme.com") ContactSearch.email
    (1 # 10) ContactSearch.text (js "guess")
    (ContactSearch.mkValidation None None None).

Definition hqAddress : ContactSearch.ContactResult :=
  ContactSearch.mkContactResult (js "somewhere") ContactSearch.address
    (1 # 10) ContactSearch.text (js "guess")
    (ContactSearch.mkValidation None None None).

(** The shape of what [emailRegex] matches: a local part, [@], a domain,
    a point and at least two letters. *)
Definition emailShape (u : jsstring) : Prop :=
  exists l d a1 a2 t,
    u = l ++ 64%N :: d ++ 46%N :: a1 :: a2 :: t /\
    l <> [] /\ forallb ContactSearch.isLocalChar l = true /\
    d <> [] /\ forallb ContactSearch.isDomainChar d = true /\
    ContactSearch.isAlpha a1 = true /\ ContactSearch.isAlpha a2 = true /\
    forallb ContactSearch.isAlpha t = true.

(** A contact as the text extractor builds it from a match of
    [emailRegex] in the text [s]. *)
Definition textEmail (s : jsstring) (c : ContactSearch.ContactResult) : Prop :=
  ContactSearch.type c = ContactSearch.email /\
  ContactSearch.source c = ContactSearch.text /\
  ContactSearch.confidence c = 3 # 4 /\
  emailShape (ContactSearch.value c) /\
  includes s (ContactSearch.value c) = true.

(** A page text and the search for the examples. *)
Definition contactPage : jsstring :=
  js "Write to info@acme.com or to Sales <sales@acme.co.uk>.".

(** The request log and the clock agree: the times of the requests are in
    order and not in the future, and neither is [lastRequestTime]. *)
Definition chronological (w : Gateway.World) : Prop :=
  Gateway.lastRequestTime w <= Gateway.now w /\
  Forall (fun t => t <= Gateway.now w) (Gateway.sent w) /\
  StronglySorted Qle (Gateway.sent w).

(** A configuration without a key, and an environment in which the network
    is down. *)
Definition keyless : Gateway.AIConfig :=
  Gateway.mkConfig true [] Gateway.google (js "gemini-1.5-pro") 15.

Definition networkDown : Gateway.CallEnv :=
  Gateway.mkCallEnv 0 (Gateway.mkExchange 30000 (Err (js "Aborted")))
                    0 (Gateway.mkExchange 0 (Err (js "Aborted"))).

(** A 429 whose [retry-after] header is an HTTP date, answered after
    100 ms, and then a success. *)
Definition dated429 : Gateway.Response :=
  Gateway.mkResponse 429 (Some (js "Wed, 21 Oct 2026 07:28:00 GMT"))
    (Some (Some (js "quota"))) (Err []) (Ok None).

Definition okAnswer : Gateway.Response :=
  Gateway.mkResponse 200 None None (Err []) (Ok (Some (js "hello"))).

Definition datedRetry : Gateway.CallEnv :=
  Gateway.mkCallEnv 0 (Gateway.mkExchange 100 (Ok dated429))
                    7 (Gateway.mkExchange 100 (Ok okAnswer)).

(** * Verification *)

(** ** The adapter's click *)

Lemma clamp_range (v limit : Z) :
  (1 <= limit -> 0 <= clamp v limit < limit)%Z.
Proof. unfold clamp. lia. Qed.

Lemma browser_click_calls (env : Env) (tr : list ApiCall) (x y : Z) :
  exists viewport,
    fst (BrowserOS.getViewportDimensions env tr) = Ok viewport /\
    snd (browser_click env x y tr)
    = tr ++ [DispatchTap (clamp x (width viewport)) (clamp y (height viewport)) 100].
Proof.
  unfold browser_click, BrowserOS.getViewportDimensions.
  destruct (nativeViewport env tr) as [v|].
  - exists v. split; [reflexivity|].
    unfold call. destruct (native env tr _); reflexivity.
  - exists (mkViewport 390 844). split; [reflexivity|].
    unfold call. destruct (native env tr _); reflexivity.
Qed.

(** C5.  For all integer coordinates [(x, y)] and every live viewport
    [(w, h)] with [w >= 1] and [h >= 1], [browser.click(x, y)] makes exactly
    one native call, a tap at [x' = max(0, min(x, w-1))] and
    [y' = max(0, min(y, h-1))], and [0 <= x' < w], [0 <= y' < h]. *)
Theorem click_coordinates_clamped (env : Env) (tr : list ApiCall)
    (x y w h : Z) :
  fst (BrowserOS.getViewportDimensions env tr) = Ok (mkViewport w h) ->
  (1 <= w)%Z -> (1 <= h)%Z ->
  exists x' y',
    snd (browser_click env x y tr) = tr ++ [DispatchTap x' y' 100] /\
    x' = Z.max 0 (Z.min x (w - 1)) /\ y' = Z.max 0 (Z.min y (h - 1)) /\
    (0 <= x' < w)%Z /\ (0 <= y' < h)%Z.
Proof.
  intros Hv Hw Hh.
  destruct (browser_click_calls env tr x y) as (v & Hv' & Hc).
  rewrite Hv in Hv'. injection Hv' as <-. simpl in Hc.
  exists (clamp x w), (clamp y h).
  split; [exact Hc|]. unfold clamp. repeat split; lia.
Qed.

Lemma click_coordinates_clamped_witness :
  exists x' y',
    snd (browser_click quietEnv 500 (-3) []) = [] ++ [DispatchTap x' y' 100] /\
    x' = Z.max 0 (Z.min 500 (390 - 1)) /\ y' = Z.max 0 (Z.min (-3) (844 - 1)) /\
    (0 <= x' < 390)%Z /\ (0 <= y' < 844)%Z.
Proof.
  apply (click_coordinates_clamped quietEnv [] 500 (-3) (w := 390) (h := 844)).
  - reflexivity.
  - lia.
  - lia.
Defined.

(** ** The agent loop *)

Lemma stable_bind (A B : Type) (m : Task A) (k : A -> Task B) :
  stable m -> (forall a, stable (k a)) -> stable (bind m k).
Proof.
  intros Hm Hk st. unfold bind. specialize (Hm st).
  destruct (m st) as [[a|e] st1]; simpl in *.
  - rewrite <- Hm. apply Hk.
  - exact Hm.
Qed.

Lemma stable_ret (A : Type) (a : A) : stable (ret a).
Proof. intro st. reflexivity. Qed.

Lemma stable_perform (A : Type) (op : Op A) : stable (perform op).
Proof.
  intro st. unfold perform. destruct (op (calls st)) as [r tr]. reflexivity.
Qed.

Lemma stable_pushAction (line : jsstring) : stable (pushAction line).
Proof. intro st. reflexivity. Qed.

Lemma stable_setFinalURL (u : jsstring) : stable (setFinalURL u).
Proof. intro st. reflexivity. Qed.

Lemma stable_setContacts (l : list Contact) : stable (setContacts l).
Proof. intro st. reflexivity. Qed.

Lemma stable_setExtracted (l : list Contact) : stable (setExtracted l).
Proof. intro st. reflexivity. Qed.

Lemma stable_getExtracted : stable getExtracted.
Proof. intro st. reflexivity. Qed.

Lemma stable_getCalls : stable getCalls.
Proof. intro st. reflexivity. Qed.

Create HintDb stable.

#[local] Hint Resolve stable_bind stable_ret stable_perform stable_pushAction
  stable_setFinalURL stable_setContacts stable_setExtracted
  stable_getExtracted stable_getCalls : stable.

Lemma stable_extract (env : Env) : stable (extractContactsFromCurrentPage env).
Proof.
  intro st. unfold extractContactsFromCurrentPage.
  pose proof (stable_perform
    (withErrorHandling (js "dom_extraction") (call env EvaluateJavaScript)) st) as H.
  destruct (perform _ st) as [[a|e] st1]; simpl in *.
  - destruct (pageContacts env (calls st)); exact H.
  - exact H.
Qed.

#[local] Hint Resolve stable_extract : stable.

Lemma stable_doClick (env : Env) (action : Action) : stable (doClick env action).
Proof.
  unfold doClick.
  destruct (a_x action) as [x|], (a_y action) as [y|]; auto with stable.
  destruct (truthyNum (Some x) && truthyNum (Some y)); auto with stable.
  destruct x as [x|], y as [y|]; auto with stable.
  destruct (validateCoordinates _ _ _ _); auto with stable.
Qed.

Lemma stable_doType (env : Env) (action : Action) : stable (doType env action).
Proof.
  unfold doType. destruct (a_text action) as [[|c t]|]; auto with stable.
Qed.

Lemma stable_doScroll (env : Env) (action : Action) : stable (doScroll env action).
Proof. unfold doScroll. auto with stable. Qed.

#[local] Hint Resolve stable_doClick stable_doType stable_doScroll : stable.

(** After the [done] case, whether it returns or throws, [success] is set;
    the error, the step and the count of iterations are as before. *)
Lemma doDone_core (env : Env) (action : Action) (st : Run) :
  let st' := snd (doDone env action st) in
  success (result st') = true /\
  error (result st') = error (result st) /\
  currentStep st' = currentStep st /\
  iterations st' = iterations st.
Proof.
  unfold doDone.
  set (rest := bind (perform (call env GetCurrentURL)) _).
  assert (Hrest : stable rest).
  { unfold rest. apply stable_bind; [auto with stable|]. intro url.
    apply stable_bind; [auto with stable|]. intros _.
    apply stable_bind; [auto with stable|]. intros extracted.
    apply stable_bind.
    - destruct extracted; auto with stable.
    - intros _. auto with stable. }
  unfold bind at 1. cbn [setSuccess modifyResult].
  unfold bind at 1. cbn [setAnswer modifyResult].
  match goal with |- context [rest ?s] => specialize (Hrest s) end.
  unfold core in Hrest. cbn [result success error answer currentStep iterations] in Hrest.
  injection Hrest as H1 H2 H3 H4 H5.
  cbv zeta. repeat split; assumption.
Qed.

Lemma execute_core (env : Env) (action : Action) (st : Run) :
  let r := fst (execute env action st) in
  let st' := snd (execute env action st) in
  error (result st') = error (result st) /\
  currentStep st' = currentStep st /\
  iterations st' = iterations st /\
  match r with
  | Ok Continue => success (result st') = success (result st)
  | Ok Return => success (result st') = true
  | Err _ => True
  end.
Proof.
  unfold execute.
  assert (Hs : forall m : Task BodyExit, stable m ->
            (forall s a, fst (m s) <> Ok a \/ a = Continue) ->
            let r := fst (m st) in let st' := snd (m st) in
            error (result st') = error (result st) /\
            currentStep st' = currentStep st /\
            iterations st' = iterations st /\
            match r with
            | Ok Continue => success (result st') = success (result st)
            | Ok Return => success (result st') = true
            | Err _ => True
            end).
  { intros m Hm Hc. specialize (Hm st). specialize (Hc st).
    unfold core in Hm. injection Hm as H1 H2 H3 H4 H5.
    cbv zeta. repeat split; try assumption.
    destruct (fst (m st)) as [[|]|e]; auto.
    destruct (Hc Return) as [Hc'|Hc']; [congruence|discriminate]. }
  destruct (a_type action).
  - apply Hs.
    + repeat (apply stable_bind; [auto with stable|intro]); auto with stable.
      destruct a0; auto with stable.
    + intros s a. unfold bind.
      destruct (doClick env action s) as [[u|e] s1]; simpl;
        [|left; discriminate].
      destruct (extractContactsFromCurrentPage env s1) as [[l|e] s2]; simpl;
        [|left; discriminate].
      destruct l; simpl; (destruct a; [right; reflexivity|left; discriminate]).
  - apply Hs.
    + repeat (apply stable_bind; [auto with stable|intro]); auto with stable.
      destruct a0; auto with stable.
    + intros s a. unfold bind.
      destruct (doType env action s) as [[u|e] s1]; simpl;
        [|left; discriminate].
      destruct (extractContactsFromCurrentPage env s1) as [[l|e] s2]; simpl;
        [|left; discriminate].
      destruct l; simpl; (destruct a; [right; reflexivity|left; discriminate]).
  - apply Hs.
    + repeat (apply stable_bind; [auto with stable|intro]); auto with stable.
    + intros s a. unfold bind.
      destruct (doScroll env action s) as [[u|e] s1]; simpl;
        [|left; discriminate].
      destruct a; [right; reflexivity|left; discriminate].
  - pose proof (doDone_core env action st) as H. cbv zeta in H.
    destruct H as (H1 & H2 & H3 & H4).
    unfold bind.
    destruct (doDone env action st) as [[u|e] s1]; simpl in *; auto.
Qed.

Lemma loopBody_core (env : Env) (st : Run) (r : Res BodyExit) (st' : Run) :
  loopBody env st = (r, st') ->
  error (result st') = error (result st) /\
  currentStep st' = (currentStep st + 1)%Z /\
  iterations st' = S (iterations st) /\
  match r with
  | Ok Continue => success (result st') = success (result st)
  | Ok Return => success (result st') = true
  | Err _ => True
  end.
Proof.
  intro H. unfold loopBody in H. unfold bind at 1 in H. cbn [nextStep] in H.
  match type of H with context [bind _ _ ?s] => set (st1 := s) in H end.
  assert (H1 : error (result st1) = error (result st) /\
               currentStep st1 = (currentStep st + 1)%Z /\
               iterations st1 = S (iterations st) /\
               success (result st1) = success (result st))
    by (repeat split; reflexivity).
  clearbody st1. destruct H1 as (E1 & C1 & I1 & S1).
  unfold bind at 1 in H.
  pose proof (stable_perform
    (withErrorHandling (js "screenshot") (call env Screenshot)) st1) as H2.
  destruct (perform _ st1) as [[shot|e] st2]; simpl in H2;
    unfold core in H2; injection H2 as S2 E2 A2 C2 I2.
  - unfold bind at 1 in H. cbn [pushAction modifyResult] in H.
    unfold bind at 1 in H. cbn [getCalls calls] in H.
    unfold bind at 1 in H. cbn [pushAction modifyResult] in H.
    match type of H with execute env ?a ?s = _ =>
      pose proof (execute_core env a s) as H3
    end.
    cbv zeta in H3. rewrite H in H3.
    cbn [fst snd result error success currentStep iterations] in H3.
    destruct H3 as (E3 & C3 & I3 & R3).
    repeat split; try congruence.
    destruct r as [[|]|]; congruence.
  - injection H as <- <-. repeat split; congruence.
Qed.



Lemma afterLoop_spec (env : Env) (maxSteps : Z) (st : Run) :
  let st' := snd (afterLoop env maxSteps st) in
  success (result st') = success (result st) /\
  error (result st') = error (result st) /\
  iterations st' = iterations st /\
  answer (result st')
  = Some (js "Max steps (" ++ showZ maxSteps
          ++ js ") reached. Partial progress made.").
Proof.
  unfold afterLoop.
  set (rest := bind (perform (call env GetCurrentURL)) _).
  assert (Hrest : stable rest).
  { unfold rest. repeat (apply stable_bind; [auto with stable|intro]).
    auto with stable. }
  unfold bind. cbn [setAnswer modifyResult].
  match goal with |- context [rest ?s] => specialize (Hrest s) end.
  unfold core in Hrest.
  cbn [result success error answer currentStep iterations] in Hrest.
  injection Hrest as H1 H2 H3 H4 H5.
  cbv zeta. repeat split; assumption.
Qed.



Example runTask_done_at_once :
  option_map
    (fun st => (success (result st), answer (result st), steps (result st),
                contacts (result st), finalURL (result st), error (result st)))
    (runTask doneAtOnce 25 25)
  = Some (true, Some (js "Found 1 email"), 1%Z, [infoContact],
          Some (js "https://acme.com/contact"), None).
Proof. vm_compute. reflexivity. Qed.

Example runTask_step_limit :
  option_map
    (fun st => (success (result st), steps (result st), iterations st,
                calls st, error (result st)))
    (runTask quietEnv 2 2)
  = Some (false, 2%Z, 2%nat,
          [LoadURL (js "https://www.google.com");
           Screenshot; ScrollBy down 500;
           Screenshot; ScrollBy down 500; GetCurrentURL],
          None).
Proof. vm_compute. reflexivity. Qed.

(** ** Validation of the coordinates in the loop *)

Lemma validateCoordinates_spec (x y w h : Z) :
  validateCoordinates x y w h = true <-> (0 <= x <= w /\ 0 <= y <= h)%Z.
Proof.
  unfold validateCoordinates.
  rewrite !andb_true_iff, Z.geb_le, Z.geb_le, !Z.leb_le. lia.
Qed.


(** A coordinate 0 is valid for [validateCoordinates], but falsy: the loop
    then makes no call at all. *)
Example doClick_zero (st : Run) :
  validateCoordinates 0 5 375 812 = true /\
  doClick quietEnv (mkClick (Some 0%Z) (Some 5%Z)) st = (Ok tt, st).
Proof. split; reflexivity. Qed.

(** A coordinate that is Infinity is truthy and outside the viewport: the
    loop scrolls down instead. *)
Example doClick_infinity :
  calls (snd (doClick quietEnv (mkClickAt (Some Infinite) (Some (Integer 5)))
                initialRun))
  = [ScrollBy down 500].
Proof. reflexivity. Qed.



(** ** The result of a failed run *)

Lemma mainLoop_at_limit (env : Env) (maxSteps : Z) (fuel : nat) (st : Run) :
  (maxSteps <= currentStep st)%Z ->
  mainLoop env fuel maxSteps st = Some (Ok Exited, st).
Proof.
  intro H. apply Z.ltb_ge in H. destruct fuel; simpl; rewrite H; reflexivity.
Qed.

(** C8 (evaluation).  On the adapter as written, every run ends in the
    [catch] block: it fails, and its result holds no final URL - and no
    contact, none having been gathered.  When the start page has loaded and
    the step limit is 1 or more, the run fails at the screenshot of its
    first step: the browser is on the start page, and the result does not
    tell. *)
Theorem runTask_failure_without_url (env : Env) (fuel : nat) (maxSteps : Z) :
  asWritten env -> (0 < fuel)%nat ->
  exists st,
    runTask env fuel maxSteps = Some st /\
    Failed st /\
    finalURL (result st) = None /\
    contacts (result st) = [] /\ extractedContacts st = [] /\
    (forall a,
        native env [] (LoadURL (js "https://www.google.com")) = Ok a ->
        (0 < maxSteps)%Z ->
        steps (result st) = 1%Z /\
        actions (result st) = [js "Navigate to Google"] /\
        calls st = [LoadURL (js "https://www.google.com"); Screenshot]).
Proof.
  intros Hw Hfuel. unfold runTask.
  unfold bind at 1.
  unfold perform, withErrorHandling, newTab, call. cbn [initialRun calls].
  destruct (native env [] (LoadURL (js "https://www.google.com"))) as [a|m].
  - cbn [pushAction modifyResult initialRun result currentStep
         extractedContacts calls iterations app success answer steps actions
         contacts error finalURL].
    destruct (Z_lt_le_dec 0 maxSteps) as [Hmax|Hmax].
    + destruct fuel as [|fuel]; [lia|]. cbn [mainLoop currentStep].
      apply Z.ltb_lt in Hmax. rewrite Hmax.
      destruct (Hw [LoadURL (js "https://www.google.com")]) as ((e & He) & _).
      unfold loopBody. unfold bind at 1. cbn [nextStep].
      unfold bind at 1. unfold perform, withErrorHandling, call.
      cbn [calls]. rewrite He.
      eexists. split; [reflexivity|].
      split; [split; [reflexivity|eexists; split; reflexivity]|].
      repeat split; reflexivity.
    + rewrite mainLoop_at_limit by (simpl; lia).
      destruct (Hw [LoadURL (js "https://www.google.com")])
        as (_ & (e & He) & _).
      unfold afterLoop. unfold bind at 1. cbn [setAnswer modifyResult].
      unfold bind at 1. unfold perform, call. cbn [calls]. rewrite He.
      eexists. split; [reflexivity|].
      split; [split; [reflexivity|eexists; split; reflexivity]|].
      split; [reflexivity|]. split; [reflexivity|]. split; [reflexivity|].
      intros; lia.
  - eexists. split; [reflexivity|].
    split; [split; [reflexivity|eexists; split; reflexivity]|].
    split; [reflexivity|]. split; [reflexivity|]. split; [reflexivity|].
    intros; discriminate.
Qed.

Lemma runTask_failure_without_url_witness :
  exists st,
    runTask writtenBrowser 25 25 = Some st /\
    Failed st /\
    finalURL (result st) = None /\
    contacts (result st) = [] /\ extractedContacts st = [] /\
    (forall a,
        native writtenBrowser [] (LoadURL (js "https://www.google.com")) = Ok a ->
        (0 < 25)%Z ->
        steps (result st) = 1%Z /\
        actions (result st) = [js "Navigate to Google"] /\
        calls st = [LoadURL (js "https://www.google.com"); Screenshot]).
Proof.
  apply (@runTask_failure_without_url writtenBrowser 25 25).
  - intro tr. repeat split; eexists; reflexivity.
  - lia.
Defined.

(** ** The matchers *)

Lemma consumes_weaken (r : re) (P Q : jsstring -> Prop) :
  consumes r P -> (forall u, P u -> Q u) -> consumes r Q.
Proof.
  intros H HPQ k s cs out E.
  destruct (H k s cs out E) as (u & s' & E1 & Hp & Hk).
  exists u, s'. auto.
Qed.

Lemma consumes_cls (p : N -> bool) :
  consumes (cls p) (fun u => exists c, u = [c] /\ p c = true).
Proof.
  intros k s cs out E. unfold cls in E.
  destruct s as [|c s']; [discriminate|].
  destruct (p c) eqn:Hp; [|discriminate].
  exists [c], s'. split; [reflexivity|]. split; [exists c; auto|exact E].
Qed.

Lemma consumes_seq (r1 r2 : re) (P1 P2 : jsstring -> Prop) :
  consumes r1 P1 -> consumes r2 P2 ->
  consumes (seq r1 r2) (fun u => exists u1 u2, u = u1 ++ u2 /\ P1 u1 /\ P2 u2).
Proof.
  intros H1 H2 k s cs out E. unfold seq in E.
  destruct (H1 _ _ _ _ E) as (u1 & s1 & E1 & Hp1 & Hk1).
  destruct (H2 _ _ _ _ Hk1) as (u2 & s2 & E2 & Hp2 & Hk2).
  exists (u1 ++ u2), s2. subst. rewrite <- app_assoc.
  split; [reflexivity|]. split; [exists u1, u2; auto|exact Hk2].
Qed.

Lemma consumes_star (p : N -> bool) :
  consumes (star p) (fun u => forallb p u = true).
Proof.
  intros k s. induction s as [|c s' IH]; intros cs out E.
  - exists [], []. auto.
  - simpl in E. destruct (p c) eqn:Hp.
    + destruct (star p k s' cs) eqn:Es.
      * injection E as <-.
        destruct (IH _ _ Es) as (u & s2 & E1 & Hu & Hk).
        exists (c :: u), s2. subst. simpl. rewrite Hp. auto.
      * exists [], (c :: s'). auto.
    + exists [], (c :: s'). auto.
Qed.

Lemma consumes_star_lazy (p : N -> bool) :
  consumes (star_lazy p) (fun u => forallb p u = true).
Proof.
  intros k s. induction s as [|c s' IH]; intros cs out E.
  - exists [], []. simpl in E. destruct (k [] cs); [auto|discriminate].
  - simpl in E. destruct (k (c :: s') cs) eqn:Ek.
    + injection E as <-. exists [], (c :: s'). auto.
    + destruct (p c) eqn:Hp; [|discriminate].
      destruct (IH _ _ E) as (u & s2 & E1 & Hu & Hk).
      exists (c :: u), s2. subst. simpl. rewrite Hp. auto.
Qed.

Lemma consumes_plus (p : N -> bool) :
  consumes (plus p) (fun u => exists c r, u = c :: r /\ p c = true).
Proof.
  eapply consumes_weaken.
  - apply consumes_seq; [apply consumes_cls|apply consumes_star].
  - intros u (u1 & u2 & -> & (c & -> & Hc) & _). exists c, u2. auto.
Qed.

Lemma consumes_plus_lazy (p : N -> bool) :
  consumes (plus_lazy p) (fun u => exists c r, u = c :: r /\ p c = true).
Proof.
  eapply consumes_weaken.
  - apply consumes_seq; [apply consumes_cls|apply consumes_star_lazy].
  - intros u (u1 & u2 & -> & (c & -> & Hc) & _). exists c, u2. auto.
Qed.

Lemma consumes_opt (r : re) (P : jsstring -> Prop) :
  consumes r P -> consumes (opt r) (fun u => P u \/ u = []).
Proof.
  intros H k s cs out E. unfold opt in E.
  destruct (r k s cs) eqn:Er.
  - injection E as <-. destruct (H _ _ _ _ Er) as (u & s' & E1 & Hp & Hk).
    exists u, s'. auto.
  - exists [], s. auto.
Qed.

Lemma consumes_eoi : consumes eoi (fun u => u = []).
Proof.
  intros k s cs out E. destruct s; [|discriminate].
  exists [], []. auto.
Qed.

Lemma consumes_lit_i (p : jsstring) : consumes (lit_i p) (fun _ => True).
Proof.
  induction p as [|a p IH].
  - intros k s cs out E. exists [], s. auto.
  - simpl. eapply consumes_weaken.
    + apply consumes_seq; [apply consumes_cls|exact IH].
    + auto.
Qed.

Lemma captures_weaken (r : re) (P Q : jsstring -> caps -> Prop) :
  captures r P -> (forall u c, P u c -> Q u c) -> captures r Q.
Proof.
  intros H HPQ k s cs out E.
  destruct (H k s cs out E) as (u & s' & c & E1 & Hp & Hk).
  exists u, s', c. auto.
Qed.

Lemma captures_none (r : re) (P : jsstring -> Prop) :
  consumes r P -> captures r (fun u c => P u /\ c = []).
Proof.
  intros H k s cs out E.
  destruct (H k s cs out E) as (u & s' & E1 & Hp & Hk).
  exists u, s', []. rewrite app_nil_r. auto.
Qed.

Lemma captures_group (r : re) (P : jsstring -> Prop) :
  consumes r P -> captures (group r) (fun u c => P u /\ c = [u]).
Proof.
  intros H k s cs out E. unfold group in E.
  destruct (H _ _ _ _ E) as (u & s' & E1 & Hp & Hk).
  exists u, s', [u]. split; [exact E1|]. split; [auto|].
  subst s. rewrite length_app in Hk.
  replace (length u + length s' - length s')%nat with (length u) in Hk by lia.
  rewrite firstn_app, firstn_all, Nat.sub_diag, firstn_O, app_nil_r in Hk.
  exact Hk.
Qed.

Lemma captures_seq (r1 r2 : re) (P1 P2 : jsstring -> caps -> Prop) :
  captures r1 P1 -> captures r2 P2 ->
  captures (seq r1 r2)
    (fun u c => exists u1 u2 c1 c2,
                  u = u1 ++ u2 /\ c = c1 ++ c2 /\ P1 u1 c1 /\ P2 u2 c2).
Proof.
  intros H1 H2 k s cs out E. unfold seq in E.
  destruct (H1 _ _ _ _ E) as (u1 & s1 & c1 & E1 & Hp1 & Hk1).
  destruct (H2 _ _ _ _ Hk1) as (u2 & s2 & c2 & E2 & Hp2 & Hk2).
  exists (u1 ++ u2), s2, (c1 ++ c2). subst. rewrite <- app_assoc.
  split; [reflexivity|]. split.
  - exists u1, u2, c1, c2. auto.
  - rewrite app_assoc. exact Hk2.
Qed.

Lemma exec_captures (r : re) (P : jsstring -> caps -> Prop) (s : jsstring)
    (out : caps) :
  captures r P -> exec r s = Some out -> exists u, P u out.
Proof.
  intros H. induction s as [|c s IH]; simpl; intro E.
  - destruct (r accept [] []) eqn:Er; [|discriminate].
    injection E as <-.
    destruct (H _ _ _ _ Er) as (u & s' & c' & _ & Hp & Hk).
    injection Hk as <-. exists u. exact Hp.
  - destruct (r accept (c :: s) []) eqn:Er.
    + injection E as <-.
      destruct (H _ _ _ _ Er) as (u & s' & c' & _ & Hp & Hk).
      injection Hk as <-. exists u. exact Hp.
    + auto.
Qed.

(** ** The decoder *)

Lemma reNumber_consumes : consumes reNumber numberLike.
Proof.
  eapply consumes_weaken.
  - apply consumes_seq.
    + apply consumes_plus.
    + apply consumes_opt. apply consumes_seq.
      * apply consumes_cls.
      * apply consumes_plus.
  - intros u (u1 & u2 & -> & (c & r & -> & Hc) & _).
    exists c, (r ++ u2). auto.
Qed.

Lemma reDone_captures : captures reDone (fun _ c => exists g, c = [g]).
Proof.
  eapply captures_weaken.
  - apply captures_seq.
    + apply captures_none, consumes_lit_i.
    + apply captures_seq.
      * apply captures_none, consumes_star.
      * apply captures_group, consumes_plus.
  - intros u c (u1 & u2 & c1 & c2 & _ & -> & (_ & ->) & H).
    destruct H as (u3 & u4 & c3 & c4 & _ & -> & (_ & ->) & (_ & ->)).
    exists u4. reflexivity.
Qed.

Lemma reClick_captures :
  captures reClick
    (fun _ c => exists g1 g2, c = [g1; g2] /\ numberLike g1 /\ numberLike g2).
Proof.
  eapply captures_weaken.
  - apply captures_seq; [apply captures_none, consumes_lit_i|].
    apply captures_seq; [apply captures_none, consumes_plus|].
    apply captures_seq; [apply captures_group, reNumber_consumes|].
    apply captures_seq; [apply captures_none, consumes_plus|].
    apply captures_group, reNumber_consumes.
  - intros u c (u1 & u2 & c1 & c2 & _ & -> & (_ & ->) & H).
    destruct H as (u3 & u4 & c3 & c4 & _ & -> & (_ & ->) & H).
    destruct H as (u5 & u6 & c5 & c6 & _ & -> & (H5 & ->) & H).
    destruct H as (u7 & u8 & c7 & c8 & _ & -> & (_ & ->) & (H8 & ->)).
    exists u5, u8. auto.
Qed.

Lemma reType_captures : captures reType (fun _ c => exists g, c = [g]).
Proof.
  eapply captures_weaken.
  - apply captures_seq; [apply captures_none, consumes_lit_i|].
    apply captures_seq; [apply captures_none, consumes_plus|].
    apply captures_seq; [apply captures_group, consumes_plus_lazy|].
    apply captures_none. apply consumes_seq.
    + apply consumes_opt. apply consumes_seq.
      * apply consumes_plus.
      * apply consumes_lit_i.
    + apply consumes_eoi.
  - intros u c (u1 & u2 & c1 & c2 & _ & -> & (_ & ->) & H).
    destruct H as (u3 & u4 & c3 & c4 & _ & -> & (_ & ->) & H).
    destruct H as (u5 & u6 & c5 & c6 & _ & -> & (_ & ->) & (_ & ->)).
    exists u5. reflexivity.
Qed.

Lemma digitsValue_nonneg (ds : jsstring) : (0 <= digitsValue ds)%Z.
Proof.
  unfold digitsValue.
  assert (H : forall acc, (0 <= acc)%Z ->
            (0 <= fold_left (fun a c => 10 * a + digitValue c) ds acc)%Z).
  { induction ds as [|d ds IH]; intros acc Hacc; cbn [fold_left];
      [exact Hacc|].
    apply IH. unfold digitValue. lia. }
  apply H. lia.
Qed.

(** *** The Number value of a decimal *)

Lemma pow2_pos (e : Z) : 0 < pow2 e.
Proof. apply Qpower_0_lt. reflexivity. Qed.

Lemma pow2_Z (e : Z) : (0 <= e)%Z -> pow2 e == inject_Z (2 ^ e).
Proof. intro H. unfold pow2. rewrite Zpower_Qpower by exact H. reflexivity. Qed.

Lemma pow2_add (a b : Z) : pow2 (a + b) == pow2 a * pow2 b.
Proof. unfold pow2. apply Qpower_plus. discriminate. Qed.

Lemma pow2_opp (a : Z) : pow2 (- a) == / pow2 a.
Proof. unfold pow2. apply Qpower_opp. Qed.

Lemma Qfloor_nonneg (x : Q) : 0 <= x -> (0 <= Qfloor x)%Z.
Proof. intro H. change 0%Z with (Qfloor 0). apply Qfloor_resp_le. exact H. Qed.

Lemma roundHalfEven_nonneg (x : Q) : 0 <= x -> (0 <= roundHalfEven x)%Z.
Proof.
  intro H. unfold roundHalfEven. pose proof (Qfloor_nonneg H) as F.
  destruct (Qcompare _ _); [destruct (Z.even _)| |]; lia.
Qed.

Lemma roundHalfEven_Z (x : Q) (m : Z) : x == inject_Z m -> roundHalfEven x = m.
Proof.
  intro H. unfold roundHalfEven.
  rewrite (Qfloor_comp _ _ H), Qfloor_Z.
  assert (E : Qcompare (x - inject_Z m) (1 # 2) = Lt).
  { apply -> Qlt_alt. lra. }
  rewrite E. reflexivity.
Qed.

Lemma toDouble_cases (q : Q) :
  toDouble q = Infinity \/ exists v, toDouble q = Double v /\ 0 <= v.
Proof.
  unfold toDouble. destruct (Qle_bool q 0) eqn:E0.
  - right. exists 0. split; [reflexivity|lra].
  - cbv zeta. destruct (Qle_bool (pow2 1024) _); [left; reflexivity|].
    right. eexists. split; [reflexivity|].
    assert (Hq : 0 < q).
    { apply Qnot_le_lt. intro H. apply Qle_bool_iff in H. congruence. }
    apply Qmult_le_0_compat; [|apply Qlt_le_weak, pow2_pos].
    change 0 with (inject_Z 0). rewrite <- Zle_Qle.
    apply roundHalfEven_nonneg. apply Qlt_le_weak.
    apply Qlt_shift_div_l; [apply pow2_pos|]. lra.
Qed.

Lemma pow2_succ (e : Z) : pow2 (e + 1) == 2 * pow2 e.
Proof. rewrite pow2_add. change (pow2 1) with 2. apply Qmult_comm. Qed.

Lemma pow2_log2 (a : Z) :
  (0 < a)%Z ->
  pow2 (Z.log2 a) <= inject_Z a /\ inject_Z a < 2 * pow2 (Z.log2 a).
Proof.
  intro Ha. pose proof (Z.log2_spec a Ha) as S.
  pose proof (Z.log2_nonneg a) as N.
  rewrite <- pow2_succ, !pow2_Z by lia.
  rewrite <- Zle_Qle, <- Zlt_Qlt.
  replace (Z.log2 a + 1)%Z with (Z.succ (Z.log2 a)) by lia. exact S.
Qed.

(** [ilog2] is the binary logarithm, rounded down. *)
Lemma ilog2_spec (q : Q) :
  0 < q -> pow2 (ilog2 q) <= q /\ q < pow2 (ilog2 q + 1).
Proof.
  intro Hq. destruct q as [a d].
  assert (Ha : (0 < a)%Z).
  { unfold Qlt in Hq. cbn in Hq. lia. }
  unfold ilog2. cbn [Qnum Qden].
  destruct (pow2_log2 Ha) as (A1 & A2).
  destruct (@pow2_log2 (Zpos d) eq_refl) as (D1 & D2).
  set (la := Z.log2 a) in *. set (ld := Z.log2 (Zpos d)) in *.
  pose proof (pow2_pos ld) as Pd. pose proof (pow2_pos (la - ld)) as P.
  assert (E : pow2 (la - ld) * pow2 ld == pow2 la).
  { rewrite <- pow2_add. replace (la - ld + ld)%Z with la by lia. reflexivity. }
  assert (Dp : 0 < inject_Z (Zpos d)) by reflexivity.
  assert (Q1 : a # d == inject_Z a / inject_Z (Zpos d)) by apply Qmake_Qdiv.
  assert (Up : a # d < 2 * pow2 (la - ld)).
  { rewrite Q1. apply Qlt_shift_div_r; [exact Dp|]. nra. }
  destruct (Qle_bool (pow2 (la - ld)) (a # d)) eqn:C.
  - apply Qle_bool_iff in C. rewrite pow2_succ. tauto.
  - assert (C' : a # d < pow2 (la - ld)).
    { apply Qnot_le_lt. intro H. apply Qle_bool_iff in H. congruence. }
    replace (la - ld - 1 + 1)%Z with (la - ld)%Z by lia.
    split; [|exact C'].
    assert (H2 : 2 * pow2 (la - ld - 1) == pow2 (la - ld)).
    { rewrite <- pow2_succ. replace (la - ld - 1 + 1)%Z with (la - ld)%Z by lia.
      reflexivity. }
    rewrite Q1. apply Qle_shift_div_l; [exact Dp|]. nra.
Qed.

Lemma pow2_le (a b : Z) : (a <= b)%Z -> pow2 a <= pow2 b.
Proof.
  intro H. unfold pow2. apply Qpower_le_compat_l; [exact H|]. discriminate.
Qed.

(** The integers below [2^53] are doubles. *)
Lemma toDouble_integer (q : Q) (n : Z) :
  q == inject_Z n -> (0 <= n < 2 ^ 53)%Z ->
  exists v, toDouble q = Double v /\ v == inject_Z n.
Proof.
  intros Hq Hn. unfold toDouble.
  destruct (Qle_bool q 0) eqn:E0.
  - apply Qle_bool_iff in E0. exists 0. split; [reflexivity|].
    assert (n = 0%Z).
    { rewrite Hq in E0. change 0 with (inject_Z 0) in E0.
      rewrite <- Zle_Qle in E0. lia. }
    subst n. reflexivity.
  - assert (Q0 : 0 < q).
    { apply Qnot_le_lt. intro H. apply Qle_bool_iff in H. congruence. }
    destruct (ilog2_spec Q0) as (L1 & L2).
    set (e := ilog2 q) in *.
    assert (He : (e < 53)%Z).
    { destruct (Z_lt_le_dec e 53) as [H|H]; [exact H|exfalso].
      apply pow2_le in H. rewrite (pow2_Z (e := 53)) in H by lia.
      assert (inject_Z n < inject_Z (2 ^ 53)) by (rewrite <- Zlt_Qlt; lia).
      lra. }
    assert (He0 : (0 <= e)%Z).
    { destruct (Z_lt_le_dec e 0) as [H|H]; [exfalso|exact H].
      assert (H1 : (e + 1 <= 0)%Z) by lia.
      apply pow2_le in H1. change (pow2 0) with 1 in H1.
      assert (inject_Z n < inject_Z 1) by (change (inject_Z 1) with 1; lra).
      rewrite <- Zlt_Qlt in H0.
      assert (n = 0%Z) by lia. subst n. change (inject_Z 0) with 0 in Hq. lra. }
    cbv zeta.
    replace (Z.max (e - 52) (-1074)) with (- (52 - e))%Z by lia.
    set (k := (52 - e)%Z).
    assert (U : pow2 (- k) == / inject_Z (2 ^ k)).
    { rewrite pow2_opp, pow2_Z by lia. reflexivity. }
    assert (Kp : 0 < inject_Z (2 ^ k)).
    { change 0 with (inject_Z 0). rewrite <- Zlt_Qlt. apply Z.pow_pos_nonneg; lia. }
    assert (R : roundHalfEven (q / pow2 (- k)) = (n * 2 ^ k)%Z).
    { apply roundHalfEven_Z. rewrite U, Hq, inject_Z_mult. field. lra. }
    rewrite R.
    assert (V : inject_Z (n * 2 ^ k) * pow2 (- k) == inject_Z n).
    { rewrite U, inject_Z_mult. field. lra. }
    destruct (Qle_bool (pow2 1024) _) eqn:O.
    + exfalso. apply Qle_bool_iff in O. rewrite V in O.
      rewrite pow2_Z in O by lia. rewrite <- Zle_Qle in O.
      assert ((2 ^ 53 < 2 ^ 1024)%Z) by (apply Z.pow_lt_mono_r; lia). lia.
    + eexists. split; [reflexivity|exact V].
Qed.

Lemma roundHalfEven_near (x : Q) :
  inject_Z (roundHalfEven x) - (1 # 2) <= x /\
  x <= inject_Z (roundHalfEven x) + (1 # 2).
Proof.
  unfold roundHalfEven.
  pose proof (Qfloor_le x) as F1. pose proof (Qlt_floor x) as F2.
  rewrite inject_Z_plus in F2. change (inject_Z 1) with 1 in F2.
  set (f := Qfloor x) in *.
  destruct (Qcompare_spec (x - inject_Z f) (1 # 2)) as [E|E|E].
  - destruct (Z.even f); [|rewrite inject_Z_plus; change (inject_Z 1) with 1];
      lra.
  - lra.
  - rewrite inject_Z_plus. change (inject_Z 1) with 1. lra.
Qed.

(** [toDouble] gives a nearest double: a multiple of the unit in the last
    place with a significand of at most 53 bits, at most half a unit from
    the number. *)
Lemma toDouble_nearest (q v : Q) :
  0 < q -> toDouble q = Double v ->
  let ulp := pow2 (Z.max (ilog2 q - 52) (-1074)) in
  (exists m, v == inject_Z m * ulp /\ (0 <= m <= 2 ^ 53)%Z) /\
  v - (1 # 2) * ulp <= q /\ q <= v + (1 # 2) * ulp.
Proof.
  intros Hq. unfold toDouble.
  destruct (Qle_bool q 0) eqn:E0.
  { apply Qle_bool_iff in E0. lra. }
  cbv zeta. set (p := Z.max (ilog2 q - 52) (-1074)).
  destruct (Qle_bool (pow2 1024) _); [discriminate|].
  intro H. injection H as <-.
  pose proof (pow2_pos p) as Pp.
  destruct (ilog2_spec Hq) as (_ & L2).
  assert (X0 : 0 <= q / pow2 p).
  { apply Qle_shift_div_l; [exact Pp|]. lra. }
  assert (X1 : q / pow2 p < inject_Z (2 ^ 53)).
  { apply Qlt_shift_div_r; [exact Pp|].
    rewrite <- pow2_Z by lia. rewrite <- pow2_add.
    apply Qlt_le_trans with (1 := L2). apply pow2_le. unfold p. lia. }
  destruct (roundHalfEven_near (q / pow2 p)) as (N1 & N2).
  pose proof (roundHalfEven_nonneg X0) as R0.
  set (m := roundHalfEven (q / pow2 p)) in *.
  assert (Eq : q == q / pow2 p * pow2 p) by (field; lra).
  split; [|split].
  - exists m. split; [reflexivity|]. split; [exact R0|].
    assert (inject_Z m < inject_Z (2 ^ 53 + 1)).
    { rewrite inject_Z_plus. change (inject_Z 1) with 1. lra. }
    rewrite <- Zlt_Qlt in H. lia.
  - apply Qle_trans with ((inject_Z m - (1 # 2)) * pow2 p).
    + apply Qle_lteq. right. ring.
    + apply Qle_trans with (q / pow2 p * pow2 p).
      * apply Qmult_le_compat_r; lra.
      * apply Qle_lteq. right. symmetry. exact Eq.
  - apply Qle_trans with ((inject_Z m + (1 # 2)) * pow2 p).
    + apply Qle_trans with (q / pow2 p * pow2 p).
      * apply Qle_lteq. right. exact Eq.
      * apply Qmult_le_compat_r; lra.
    + apply Qle_lteq. right. ring.
Qed.

Lemma Math_round_Z (v : Q) (n : Z) : v == inject_Z n -> Math_round v = n.
Proof.
  intro H. unfold Math_round.
  assert (E : v + (1 # 2) == inject_Z n + (1 # 2)) by lra.
  rewrite (Qfloor_comp _ _ E).
  pose proof (Qfloor_le (inject_Z n + (1 # 2))) as F1.
  pose proof (Qlt_floor (inject_Z n + (1 # 2))) as F2.
  set (f := Qfloor _) in *.
  assert (inject_Z f < inject_Z (n + 1)).
  { rewrite inject_Z_plus. change (inject_Z 1) with 1. lra. }
  assert (inject_Z n < inject_Z (f + 1)) by lra.
  rewrite <- Zlt_Qlt in *. lia.
Qed.

Lemma parseFloat_numberLike (g : jsstring) :
  numberLike g ->
  parseFloat g = Infinity \/ exists v, parseFloat g = Double v /\ 0 <= v.
Proof.
  intros (c & r & -> & Hc). unfold parseFloat.
  cbn [takeWhile]. rewrite Hc. apply toDouble_cases.
Qed.

Lemma Math_round_nonneg (q : Q) : 0 <= q -> (0 <= Math_round q)%Z.
Proof.
  intro H. unfold Math_round.
  change 0%Z with (Qfloor 0). apply Qfloor_resp_le. lra.
Qed.

Lemma roundNumber_numberLike (g : jsstring) :
  numberLike g ->
  exists c, roundNumber (parseFloat g) = Some c /\ nonNegative c.
Proof.
  intro H. destruct (parseFloat_numberLike H) as [E|(v & E & Hv)]; rewrite E.
  - exists Infinite. split; [reflexivity|exact I].
  - exists (Integer (Math_round v)).
    split; [reflexivity|apply Math_round_nonneg, Hv].
Qed.

Lemma parseAction_scroll_cases (text : jsstring) :
  (if includes (toUpperCase (trim text)) (js "SCROLL DOWN")
   then Ok (mkScroll down)
   else if includes (toUpperCase (trim text)) (js "SCROLL UP")
        then Ok (mkScroll up) else Ok (mkScroll down))
  = Ok (mkScroll (if includes (toUpperCase (trim text)) (js "SCROLL DOWN")
                  then down
                  else if includes (toUpperCase (trim text)) (js "SCROLL UP")
                       then up else down)).
Proof.
  destruct (includes _ (js "SCROLL DOWN")); [reflexivity|].
  destruct (includes _ (js "SCROLL UP")); reflexivity.
Qed.

(** The scenarios of the specification. *)
Example parseAction_click :
  parseAction (js "CLICK 320 410") = Ok (mkClick (Some 320%Z) (Some 410%Z)).
Proof. reflexivity. Qed.

Example parseAction_type_submit :
  parseAction (js "TYPE hello world SUBMIT")
  = Ok (mkType (js "hello world") true).
Proof. reflexivity. Qed.

Example parseAction_scroll_phrase :
  parseAction (js "Let me scroll down to see more") = Ok (mkScroll down).
Proof. reflexivity. Qed.

Example parseAction_rounds :
  parseAction (js "click 12.5   7.49 now")
  = Ok (mkClick (Some 13%Z) (Some 7%Z)).
Proof. reflexivity. Qed.

(** A number is read as the nearest double: above [2^53] not every integer
    is one, the decimal below one half is one half and rounds to 1, and a
    number of 400 digits is Infinity. *)
Example parseAction_nearest_double :
  parseAction (js "CLICK 9007199254740993 1")
  = Ok (mkClick (Some 9007199254740992%Z) (Some 1%Z)) /\
  parseAction (js "CLICK 0.49999999999999999 7")
  = Ok (mkClick (Some 1%Z) (Some 7%Z)) /\
  parseAction (js "CLICK 0.49999999999999994 7")
  = Ok (mkClick (Some 0%Z) (Some 7%Z)).
Proof. repeat split; vm_compute; reflexivity. Qed.

Example parseAction_infinity :
  parseAction (js "CLICK " ++ repeat 57%N 400 ++ js " 5")
  = Ok (mkClickAt (Some Infinite) (Some (Integer 5))).
Proof. vm_compute. reflexivity. Qed.

(** The action log prints the coordinates as JavaScript prints Numbers. *)
Example actionLine_numbers :
  actionLine (mkClick (Some 320%Z) (Some 410%Z))
  = js "Gemini Action: click (320,410)" /\
  actionLine (mkClickAt (Some Infinite) (Some (Integer 5)))
  = js "Gemini Action: click (Infinity,5)" /\
  actionLine (mkClick (Some (2 ^ 64)%Z) (Some (2 ^ 70)%Z))
  = js "Gemini Action: click (18446744073709552000,1.1805916207174113e+21)".
Proof. repeat split; vm_compute; reflexivity. Qed.

(** Long s and sharp s: [toUpperCase] maps them to S and to SS. *)
Example parseAction_long_s :
  parseAction (383%N :: js "croll up") = Ok (mkScroll up) /\
  parseAction (223%N :: js "croll up") = Ok (mkScroll up).
Proof. split; reflexivity. Qed.



(** ** The DONE rule *)

Lemma takeWhile_dropWhile (p : N -> bool) (s : jsstring) :
  s = takeWhile p s ++ dropWhile p s.
Proof.
  induction s as [|c s IH]; simpl; [reflexivity|].
  destruct (p c); simpl; [f_equal; exact IH|reflexivity].
Qed.

Lemma takeWhile_all (p : N -> bool) (s : jsstring) :
  forallb p (takeWhile p s) = true.
Proof.
  induction s as [|c s IH]; simpl; [reflexivity|].
  destruct (p c) eqn:E; simpl; [rewrite E; exact IH|reflexivity].
Qed.

Lemma dropWhile_suffix (p : N -> bool) (s : jsstring) :
  exists w, s = w ++ dropWhile p s.
Proof. exists (takeWhile p s). apply takeWhile_dropWhile. Qed.

Lemma trimEnd_prefix (t : jsstring) : exists w, t = trimEnd t ++ w.
Proof.
  unfold trimEnd. destruct (dropWhile_suffix isSpace (rev t)) as (w & E).
  exists (rev w). rewrite <- rev_app_distr, <- E, rev_involutive. reflexivity.
Qed.

Lemma lineTerminator_space (c : N) : isDot c = false -> isSpace c = true.
Proof.
  unfold isDot, isSpace. intro H. apply negb_false_iff in H. rewrite H.
  apply orb_true_r.
Qed.

Lemma space_not_D (c : N) : isSpace c = true -> (upperUnit c =? 68)%N = false.
Proof.
  intro H. apply N.eqb_neq. intro E.
  unfold upperUnit in E.
  destruct ((97 <=? c) && (c <=? 122))%N eqn:R.
  - apply andb_true_iff in R. destruct R as (R1 & R2).
    apply N.leb_le in R1, R2. assert (c = 100%N) by lia. subst c.
    discriminate H.
  - subst c. discriminate H.
Qed.

Lemma upperSpecial_heads (k : N) (image : list N) :
  In (k, image) upperSpecial ->
  exists u rest, image = u :: rest /\ ~ In u [68; 79; 78; 69]%N.
Proof.
  unfold upperSpecial. simpl. intro H.
  repeat (destruct H as [H|H];
          [injection H as <- <-; eexists; eexists;
           split; [reflexivity|]; simpl; intuition discriminate|]).
  destruct H.
Qed.

(** A character whose upper-case image starts with D, O, N or E is that
    letter, in either case. *)
Lemma upperUnits_head (c a : N) (rest : list N) :
  In a [68; 79; 78; 69]%N ->
  upperUnits c = a :: rest -> rest = [] /\ upperUnit c = a.
Proof.
  intros Ha H. unfold upperUnits in H. unfold upperUnit.
  destruct ((97 <=? c) && (c <=? 122))%N.
  - injection H as <- <-. auto.
  - unfold special in H.
    destruct (find _ upperSpecial) as [[k image]|] eqn:E.
    + apply find_some in E. destruct E as (E & _).
      destruct (@upperSpecial_heads _ _ E) as (u & r & -> & Hn).
      injection H as -> ->. contradiction.
    + injection H as <- <-. auto.
Qed.

Lemma upperUnits_cons (c : N) : upperUnits c <> [].
Proof.
  unfold upperUnits. destruct ((97 <=? c) && (c <=? 122))%N; [discriminate|].
  unfold special. destruct (find _ upperSpecial) as [[k image]|] eqn:E;
    [|discriminate].
  apply find_some in E. destruct E as (E & _).
  destruct (@upperSpecial_heads _ _ E) as (u & r & -> & _). discriminate.
Qed.

Lemma startsWith_upper (t : jsstring) (a : N) (p : jsstring) :
  In a [68; 79; 78; 69]%N ->
  startsWith (toUpperCase t) (a :: p) = true ->
  exists c t',
    t = c :: t' /\ upperUnit c = a /\ startsWith (toUpperCase t') p = true.
Proof.
  intros Ha H. destruct t as [|c t']; [discriminate H|].
  unfold toUpperCase in H. cbn [flat_map] in H.
  destruct (upperUnits c) as [|u rest] eqn:E;
    [exfalso; exact (@upperUnits_cons c E)|].
  cbn [app startsWith] in H. apply andb_true_iff in H. destruct H as (H1 & H2).
  apply N.eqb_eq in H1. subst u.
  destruct (@upperUnits_head c _ _ Ha E) as (-> & Hc).
  exists c, t'. auto.
Qed.

(** The input of a text that passes the DONE test: white space, the four
    letters in any case, and the rest. *)
Lemma ruleDone_shape (text : jsstring) :
  ruleDone text = true ->
  exists lead d o n e,
    text = lead ++ d :: o :: n :: e :: skipn 4 (trimStart text) /\
    forallb isSpace lead = true /\
    upperUnit d = 68%N /\ upperUnit o = 79%N /\
    upperUnit n = 78%N /\ upperUnit e = 69%N.
Proof.
  unfold ruleDone, trim. intro H.
  destruct (trimEnd_prefix (trimStart text)) as (w & Ew).
  change (js "DONE") with [68%N; 79%N; 78%N; 69%N] in H.
  apply startsWith_upper in H; [|simpl; auto].
  destruct H as (d & t1 & E1 & Hd & H).
  apply startsWith_upper in H; [|simpl; auto].
  destruct H as (o & t2 & -> & Ho & H).
  apply startsWith_upper in H; [|simpl; auto].
  destruct H as (n & t3 & -> & Hn & H).
  apply startsWith_upper in H; [|simpl; auto 6].
  destruct H as (e & r & -> & He & _).
  rewrite E1 in Ew.
  exists (takeWhile isSpace text), d, o, n, e.
  split; [|split; [apply takeWhile_all|auto]].
  assert (E4 : skipn 4 (trimStart text) = r ++ w)
    by (rewrite Ew; reflexivity).
  rewrite E4. cbn [app] in Ew. rewrite <- Ew.
  apply takeWhile_dropWhile.
Qed.

Lemma reDone_first (k : cont) (c : N) (s : jsstring) (cs : caps) :
  (upperUnit c =? 68)%N = false -> reDone k (c :: s) cs = None.
Proof.
  intro H. unfold reDone.
  change (js "DONE") with [68%N; 79%N; 78%N; 69%N].
  cbn [lit_i seq unit_i cls].
  change (upperUnit 68) with 68%N. rewrite H. reflexivity.
Qed.

Lemma exec_reDone_none (s : jsstring) :
  forallb (fun c => negb (upperUnit c =? 68)%N) s = true ->
  exec reDone s = None.
Proof.
  induction s as [|c s IH]; intro H.
  - reflexivity.
  - simpl in H. apply andb_true_iff in H. destruct H as (H1 & H2).
    apply negb_true_iff in H1.
    cbn [exec]. rewrite reDone_first by exact H1. apply IH, H2.
Qed.

Lemma exec_reDone_skip (lead s : jsstring) :
  forallb isSpace lead = true -> exec reDone (lead ++ s) = exec reDone s.
Proof.
  induction lead as [|c lead IH]; intro H; [reflexivity|].
  simpl in H. apply andb_true_iff in H. destruct H as (H1 & H2).
  cbn [app exec]. rewrite reDone_first by (apply space_not_D, H1).
  apply IH, H2.
Qed.

Lemma star_total (p : N -> bool) (k : cont) (cs : caps) :
  (forall s, k s cs <> None) ->
  forall s, star p k s cs = k (dropWhile p s) cs.
Proof.
  intros Hk s. induction s as [|c s IH]; [reflexivity|].
  simpl. destruct (p c); [|reflexivity].
  rewrite IH. destruct (k (dropWhile p s) cs) eqn:E; [reflexivity|].
  exfalso. exact (Hk _ E).
Qed.

Lemma firstn_takeWhile (p : N -> bool) (s : jsstring) :
  firstn (length s - length (dropWhile p s)) s = takeWhile p s.
Proof.
  rewrite (takeWhile_dropWhile p s) at 1 3.
  rewrite length_app.
  replace (length (takeWhile p s) + length (dropWhile p s)
           - length (dropWhile p s))%nat
    with (length (takeWhile p s)) by lia.
  rewrite firstn_app, firstn_all, Nat.sub_diag, firstn_O, app_nil_r.
  reflexivity.
Qed.

(** [(.+)] at the end of the expression: the longest run of code units
    that are not line terminators, if there is one. *)
Lemma group_dot_end (s : jsstring) :
  group (plus isDot) accept s []
  = match takeWhile isDot s with
    | [] => None
    | g => Some [g]
    end.
Proof.
  unfold group, plus, seq, cls.
  destruct s as [|c s]; [reflexivity|].
  cbn [takeWhile]. destruct (isDot c) eqn:Hc; [|reflexivity].
  rewrite star_total by (intros s0; discriminate).
  unfold accept. cbn [app]. f_equal. f_equal.
  pose proof (firstn_takeWhile isDot (c :: s)) as H.
  cbn [dropWhile takeWhile] in H. rewrite Hc in H.
  destruct (dropWhile_suffix isDot s) as (w & Ew).
  assert (Hl : (length (dropWhile isDot s) <= length s)%nat).
  { rewrite Ew at 2. rewrite length_app. lia. }
  cbn [length] in *.
  replace (S (length s) - length (dropWhile isDot s))%nat
    with (S (length s - length (dropWhile isDot s))) by lia.
  cbn [firstn]. f_equal.
  apply firstn_takeWhile.
Qed.

Lemma trim_spaces (g : jsstring) : forallb isSpace g = true -> trim g = [].
Proof.
  intro H. unfold trim, trimStart, trimEnd.
  assert (E : dropWhile isSpace g = []).
  { induction g as [|c g IH]; [reflexivity|].
    simpl in H. apply andb_true_iff in H. destruct H as (H1 & H2).
    simpl. rewrite H1. apply IH, H2. }
  rewrite E. reflexivity.
Qed.

Lemma no_dot_spaces (s : jsstring) :
  existsb isDot s = false -> forallb isSpace s = true.
Proof.
  induction s as [|c s IH]; intro H; [reflexivity|].
  simpl in H. apply orb_false_iff in H. destruct H as (H1 & H2).
  simpl. rewrite (lineTerminator_space _ H1). apply IH, H2.
Qed.

Lemma trimStart_spaces (s : jsstring) :
  forallb isSpace s = true -> trimStart s = [].
Proof.
  induction s as [|c s IH]; intro H; [reflexivity|].
  simpl in H. apply andb_true_iff in H. destruct H as (H1 & H2).
  unfold trimStart. simpl. rewrite H1. apply IH, H2.
Qed.

(** [\s*(.+)] at the end of the expression, with its backtracking. *)
Lemma done_tail (r : jsstring) :
  match star isSpace (group (plus isDot) accept) r [] with
  | Some m =>
      existsb isDot r = true /\
      exists g, m = [g] /\ trim g = trim (takeWhile isDot (trimStart r))
  | None => existsb isDot r = false
  end.
Proof.
  induction r as [|c r IH].
  - reflexivity.
  - cbn [star]. fold (star isSpace (group (plus isDot) accept)).
    destruct (isSpace c) eqn:Hs.
    + destruct (star isSpace (group (plus isDot) accept) r []) as [m|].
      * destruct IH as (He & g & -> & Hg). split.
        -- simpl. rewrite He. apply orb_true_r.
        -- exists g. split; [reflexivity|].
           unfold trimStart in *. simpl. rewrite Hs. exact Hg.
      * rewrite group_dot_end. cbn [takeWhile existsb].
        destruct (isDot c) eqn:Hd.
        -- split; [reflexivity|]. eexists. split; [reflexivity|].
           pose proof (no_dot_spaces _ IH) as Hr.
           assert (Ht : takeWhile isDot r = []).
           { destruct r as [|c' r']; [reflexivity|].
             simpl in IH. apply orb_false_iff in IH. destruct IH as (I1 & _).
             simpl. rewrite I1. reflexivity. }
           rewrite Ht.
           assert (Hall : forallb isSpace (c :: r) = true)
             by (simpl; rewrite Hs; exact Hr).
           rewrite (trimStart_spaces _ Hall). cbn [takeWhile].
           apply trim_spaces. simpl. rewrite Hs. reflexivity.
        -- simpl. exact IH.
    + rewrite group_dot_end.
      assert (Hd : isDot c = true).
      { destruct (isDot c) eqn:E; [reflexivity|].
        rewrite (lineTerminator_space _ E) in Hs. discriminate. }
      cbn [takeWhile existsb]. rewrite Hd.
      split; [reflexivity|]. eexists. split; [reflexivity|].
      unfold trimStart. cbn [dropWhile]. rewrite Hs.
      cbn [takeWhile]. rewrite Hd. reflexivity.
Qed.

Lemma upperUnit_letter (c a : N) :
  (65 <= a <= 90)%N ->
  upperUnit c = a <-> c = a \/ c = (a + 32)%N.
Proof.
  intro Ha. unfold upperUnit.
  destruct ((97 <=? c) && (c <=? 122))%N eqn:R.
  - apply andb_true_iff in R. destruct R as (R1 & R2).
    apply N.leb_le in R1, R2. lia.
  - apply andb_false_iff in R.
    destruct R as [R|R]; apply N.leb_gt in R; lia.
Qed.

(** The DONE test of the code is the test of the specification: the
    trimmed text begins with the letters D, O, N, E, each in either case. *)
Lemma ruleDone_iff (text : jsstring) :
  ruleDone text = true <->
  exists d o n e rest,
    trim text = d :: o :: n :: e :: rest /\
    (d = 68 \/ d = 100)%N /\ (o = 79 \/ o = 111)%N /\
    (n = 78 \/ n = 110)%N /\ (e = 69 \/ e = 101)%N.
Proof.
  unfold ruleDone. change (js "DONE") with [68%N; 79%N; 78%N; 69%N].
  split.
  - intro H.
    apply startsWith_upper in H; [|simpl; auto].
    destruct H as (d & t1 & E1 & Hd & H).
    apply startsWith_upper in H; [|simpl; auto].
    destruct H as (o & t2 & -> & Ho & H).
    apply startsWith_upper in H; [|simpl; auto].
    destruct H as (n & t3 & -> & Hn & H).
    apply startsWith_upper in H; [|simpl; auto 6].
    destruct H as (e & r & -> & He & _).
    apply upperUnit_letter in Hd, Ho, Hn, He; try lia.
    exists d, o, n, e, r. auto.
  - intros (d & o & n & e & r & -> & Hd & Ho & Hn & He).
    destruct Hd as [->| ->], Ho as [->| ->], Hn as [->| ->], He as [->| ->];
      reflexivity.
Qed.

(** C9 (as amended).  For every input that begins with DONE (in any case,
    after trimming), [parseAction] returns a done action whose summary is
    the first line of the text after DONE (leading white space skipped, up
    to the first line terminator), trimmed; the summary is the default
    [Task completed] when nothing but line terminators follows DONE. *)
Theorem parseAction_done_first_line (text : jsstring) :
  ruleDone text = true ->
  parseAction text = Ok (mkDone (firstLineSummary text)).
Proof.
  intro H. destruct (ruleDone_shape text H)
    as (lead & d & o & n & e & Et & Hl & Hd & Ho & Hn & He).
  unfold parseAction, firstLineSummary. unfold ruleDone in H. rewrite H.
  set (rest := skipn 4 (trimStart text)) in *.
  rewrite Et at 1. rewrite exec_reDone_skip by exact Hl.
  cbn [exec].
  assert (E0 : reDone accept (d :: o :: n :: e :: rest) []
               = star isSpace (group (plus isDot) accept) rest []).
  { unfold reDone. change (js "DONE") with [68%N; 79%N; 78%N; 69%N].
    cbn [lit_i seq unit_i cls].
    change (upperUnit 68) with 68%N. change (upperUnit 79) with 79%N.
    change (upperUnit 78) with 78%N. change (upperUnit 69) with 69%N.
    rewrite Hd, Ho, Hn, He. reflexivity. }
  rewrite E0. pose proof (done_tail rest) as Ht.
  destruct (star isSpace (group (plus isDot) accept) rest []) as [m|].
  - destruct Ht as (Hx & g & -> & Hg). rewrite Hx.
    cbn [groupOf nth_error Nat.sub]. rewrite Hg. reflexivity.
  - rewrite Ht.
    rewrite !reDone_first
      by (rewrite ?Ho, ?Hn, ?He; reflexivity).
    rewrite exec_reDone_none; [reflexivity|].
    pose proof (no_dot_spaces _ Ht) as Hs.
    clear -Hs. induction rest as [|c r IH]; [reflexivity|].
    simpl in Hs. apply andb_true_iff in Hs. destruct Hs as (H1 & H2).
    simpl. rewrite (space_not_D _ H1). apply IH, H2.
Qed.

Lemma parseAction_done_first_line_witness :
  parseAction (js "  done  Found 3 emails ")
  = Ok (mkDone (firstLineSummary (js "  done  Found 3 emails "))).
Proof.
  apply (parseAction_done_first_line (js "  done  Found 3 emails ")).
  reflexivity.
Defined.

(** C9, counterexample.  On [DONE a], a line feed, [b], the summary is [a],
    not the text after DONE. *)
Lemma parseAction_done_not_whole_text :
  ~ (ruleDone twoLineDone = true ->
     parseAction twoLineDone = Ok (mkDone (claimedSummary twoLineDone))).
Proof.
  intro H. specialize (H eq_refl). vm_compute in H. discriminate H.
Qed.

Example parseAction_done_two_lines :
  parseAction twoLineDone = Ok (mkDone (js "a")) /\
  claimedSummary twoLineDone = js "a" ++ [10%N] ++ js "b".
Proof. split; reflexivity. Qed.

Example parseAction_done_trailing_space :
  parseAction (js "DONE ") = Ok (mkDone []) /\
  claimedSummary (js "DONE ") = js "Task completed".
Proof. split; reflexivity. Qed.

(** ** The contact lists *)

Lemma startsWith_same_length (s t : jsstring) :
  length s = length t -> startsWith s t = true -> s = t.
Proof.
  revert t. induction s as [|c s IH]; intros [|a t] Hl H; try discriminate.
  - reflexivity.
  - simpl in H. apply andb_true_iff in H. destruct H as (H1 & H2).
    apply N.eqb_eq in H1. subst a. f_equal. apply IH; [|exact H2].
    simpl in Hl. lia.
Qed.

Lemma startsWith_refl (s : jsstring) : startsWith s s = true.
Proof.
  induction s as [|c s IH]; [reflexivity|].
  simpl. rewrite N.eqb_refl. exact IH.
Qed.

Lemma eqb_eq (s t : jsstring) : JS.eqb s t = true <-> s = t.
Proof.
  unfold JS.eqb. split.
  - intro H. apply andb_true_iff in H. destruct H as (H1 & H2).
    apply Nat.eqb_eq in H1. apply startsWith_same_length; assumption.
  - intros ->. rewrite Nat.eqb_refl, startsWith_refl. reflexivity.
Qed.

(** *** [_deduplicateContacts] *)

Lemma dedupFrom_fresh (l : list ContactSearch.ContactResult) :
  forall seen, fresh seen (ContactSearch.dedupFrom seen l).
Proof.
  induction l as [|c l IH]; intro seen; simpl; [exact I|].
  destruct (existsb _ seen) eqn:E.
  - apply IH.
  - simpl. split; [exact E|apply IH].
Qed.

Lemma dedupFrom_id (l : list ContactSearch.ContactResult) :
  forall seen, fresh seen l -> ContactSearch.dedupFrom seen l = l.
Proof.
  induction l as [|c l IH]; intros seen H; simpl; [reflexivity|].
  destruct H as (H1 & H2). rewrite H1. f_equal. apply IH, H2.
Qed.

Lemma deduplicate_idempotent (l : list ContactSearch.ContactResult) :
  ContactSearch._deduplicateContacts (ContactSearch._deduplicateContacts l)
  = ContactSearch._deduplicateContacts l.
Proof.
  unfold ContactSearch._deduplicateContacts.
  apply dedupFrom_id, dedupFrom_fresh.
Qed.

(** *** Subsequences *)

Lemma subseq_filter (A : Type) (f : A -> bool) (l : list A) :
  subseq (filter f l) l.
Proof.
  induction l as [|a l IH]; simpl; [constructor|].
  destruct (f a); [apply subseq_keep|apply subseq_skip]; exact IH.
Qed.

Lemma subseq_firstn (A : Type) (n : nat) (l : list A) : subseq (firstn n l) l.
Proof.
  revert n. induction l as [|a l IH]; intros [|n]; simpl.
  - constructor.
  - constructor.
  - apply subseq_skip. apply (IH 0%nat).
  - apply subseq_keep. apply IH.
Qed.

Lemma subseq_trans (A : Type) (l1 l2 l3 : list A) :
  subseq l1 l2 -> subseq l2 l3 -> subseq l1 l3.
Proof.
  intros H12 H23. revert l1 H12.
  induction H23 as [|a l2 l3 H IH|a l2 l3 H IH]; intros l1 H12.
  - exact H12.
  - constructor. apply IH, H12.
  - inversion H12; subst.
    + apply subseq_skip. apply IH. assumption.
    + apply subseq_keep. apply IH. assumption.
Qed.

Lemma subseq_In (A : Type) (l1 l2 : list A) (x : A) :
  subseq l1 l2 -> In x l1 -> In x l2.
Proof.
  induction 1 as [|a l1 l2 H IH|a l1 l2 H IH]; simpl; intro Hx.
  - exact Hx.
  - right. apply IH, Hx.
  - destruct Hx as [->|Hx]; [left; reflexivity|right; apply IH, Hx].
Qed.

Lemma subseq_Forall (A : Type) (P : A -> Prop) (l1 l2 : list A) :
  subseq l1 l2 -> Forall P l2 -> Forall P l1.
Proof.
  intros H H2. apply Forall_forall. intros x Hx.
  rewrite Forall_forall in H2. apply H2. eapply subseq_In; eassumption.
Qed.

Lemma subseq_map (A B : Type) (f : A -> B) (l1 l2 : list A) :
  subseq l1 l2 -> subseq (map f l1) (map f l2).
Proof.
  induction 1; simpl;
    [apply subseq_nil|apply subseq_skip|apply subseq_keep]; assumption.
Qed.

Lemma subseq_NoDup (A : Type) (l1 l2 : list A) :
  subseq l1 l2 -> NoDup l2 -> NoDup l1.
Proof.
  induction 1 as [|a l1 l2 H IH|a l1 l2 H IH]; intro Hn.
  - exact Hn.
  - inversion Hn; subst. apply IH. assumption.
  - inversion Hn; subst. constructor.
    + intro Hin. apply H2. eapply subseq_In; eassumption.
    + apply IH. assumption.
Qed.

Lemma subseq_sorted (A : Type) (R : A -> A -> Prop) (l1 l2 : list A) :
  subseq l1 l2 -> StronglySorted R l2 -> StronglySorted R l1.
Proof.
  induction 1 as [|a l1 l2 H IH|a l1 l2 H IH]; intro Hs.
  - exact Hs.
  - inversion Hs; subst. apply IH. assumption.
  - inversion Hs; subst. constructor.
    + apply IH. assumption.
    + eapply subseq_Forall; eassumption.
Qed.

(** *** [cleanupContacts]: the duplicates *)

Lemma sameValue_key (a b : Contact) : sameValue a b = true <-> keyOf a = keyOf b.
Proof. unfold sameValue. apply eqb_eq. Qed.

Lemma existsb_sameValue (c : Contact) (pre : list Contact) :
  existsb (fun c' => sameValue c' c) pre = true <-> In (keyOf c) (map keyOf pre).
Proof.
  rewrite existsb_exists, in_map_iff. split.
  - intros (x & Hx & Hs). exists x. split; [apply sameValue_key, Hs|exact Hx].
  - intros (x & Hk & Hx). exists x. split; [exact Hx|apply sameValue_key, Hk].
Qed.

Lemma findIndexFrom_bound (A : Type) (p : A -> bool) (l : list A) (i : Z) :
  existsb p l = true ->
  (i <= findIndexFrom p l i < i + Z.of_nat (length l))%Z.
Proof.
  revert i. induction l as [|a l IH]; intros i H; [discriminate|].
  simpl in H. cbn [findIndexFrom length]. destruct (p a).
  - lia.
  - specialize (IH (i + 1)%Z H). lia.
Qed.

Lemma findIndexFrom_app (A : Type) (p : A -> bool) (pre suf : list A) (i : Z) :
  findIndexFrom p (pre ++ suf) i
  = if existsb p pre then findIndexFrom p pre i
    else findIndexFrom p suf (i + Z.of_nat (length pre))%Z.
Proof.
  revert i. induction pre as [|a pre IH]; intro i.
  - simpl. f_equal. lia.
  - cbn [app findIndexFrom existsb length]. destruct (p a); [reflexivity|].
    rewrite IH. simpl orb. destruct (existsb p pre); [reflexivity|].
    f_equal. lia.
Qed.

(** The callback of the first [filter] keeps the contact at position
    [index] exactly when no earlier contact has its key. *)
Lemma first_index_test (pre suf : list Contact) (c : Contact) :
  (Z.of_nat (length pre)
   =? findIndex (fun c' => sameValue c' c) (pre ++ c :: suf))%Z
  = negb (existsb (fun c' => sameValue c' c) pre).
Proof.
  unfold findIndex. rewrite findIndexFrom_app.
  destruct (existsb (fun c' => sameValue c' c) pre) eqn:E.
  - pose proof (findIndexFrom_bound _ _ 0%Z E) as H.
    apply Z.eqb_neq. lia.
  - cbn [findIndexFrom].
    assert (Hc : sameValue c c = true) by (apply sameValue_key; reflexivity).
    rewrite Hc. apply Z.eqb_eq. lia.
Qed.

Lemma unique_firstOcc (suf : list Contact) :
  forall pre,
    filterFrom
      (fun contact index =>
         (index =? findIndex (fun c => sameValue c contact) (pre ++ suf))%Z)
      suf (Z.of_nat (length pre))
    = firstOcc pre suf.
Proof.
  induction suf as [|c suf IH]; intro pre; [reflexivity|].
  cbn [filterFrom firstOcc]. rewrite first_index_test.
  specialize (IH (pre ++ [c])).
  rewrite <- app_assoc in IH. cbn [app] in IH.
  rewrite length_app in IH. cbn [length] in IH.
  replace (Z.of_nat (length pre + 1)) with (Z.of_nat (length pre) + 1)%Z
    in IH by lia.
  rewrite IH. destruct (existsb _ pre); reflexivity.
Qed.

Lemma firstOcc_keys (suf : list Contact) :
  forall pre,
    NoDup (map keyOf (firstOcc pre suf)) /\
    (forall k, In k (map keyOf (firstOcc pre suf)) -> ~ In k (map keyOf pre)).
Proof.
  induction suf as [|c suf IH]; intro pre.
  - split; [constructor|intros k []].
  - cbn [firstOcc]. destruct (IH (pre ++ [c])) as (Hn & Hp).
    assert (Hp' : forall k, In k (map keyOf (firstOcc (pre ++ [c]) suf)) ->
                  ~ In k (map keyOf pre) /\ k <> keyOf c).
    { intros k Hk. specialize (Hp k Hk).
      rewrite map_app, in_app_iff in Hp. simpl in Hp. split.
      - tauto.
      - intro E. apply Hp. right. left. symmetry. exact E. }
    destruct (existsb (fun c' => sameValue c' c) pre) eqn:E.
    + split; [exact Hn|]. intros k Hk. apply Hp', Hk.
    + split.
      * cbn [map]. constructor; [|exact Hn].
        intro Hin. destruct (Hp' _ Hin) as (_ & Hne). apply Hne. reflexivity.
      * cbn [map]. intros k [<-|Hk].
        -- intro Hin. apply existsb_sameValue in Hin. congruence.
        -- apply Hp', Hk.
Qed.

Lemma firstOcc_id (suf : list Contact) :
  forall pre,
    NoDup (map keyOf suf) ->
    (forall k, In k (map keyOf suf) -> ~ In k (map keyOf pre)) ->
    firstOcc pre suf = suf.
Proof.
  induction suf as [|c suf IH]; intros pre Hn Hp; [reflexivity|].
  cbn [firstOcc]. cbn [map] in Hn, Hp. inversion Hn as [|k l Hk Hn']; subst.
  destruct (existsb (fun c' => sameValue c' c) pre) eqn:E.
  - apply existsb_sameValue in E. exfalso. apply (Hp (keyOf c)); [left; reflexivity|exact E].
  - f_equal. apply IH; [exact Hn'|].
    intros k Hin. rewrite map_app, in_app_iff. simpl.
    intros [H|[H|[]]].
    + apply (Hp k); [right; exact Hin|exact H].
    + subst k. exact (Hk Hin).
Qed.

(** *** [cleanupContacts]: the sort *)

Lemma before_lt (a b : Contact) :
  before a b = true <-> confOrZero b < confOrZero a.
Proof.
  unfold before.
  destruct (confOrZero b - confOrZero a ?= 0) eqn:E.
  - split; [discriminate|]. intro H. apply Qeq_alt in E. lra.
  - split; [|reflexivity]. intros _. apply Qlt_alt in E. lra.
  - split; [discriminate|]. intro H. apply Qgt_alt in E. lra.
Qed.

Lemma before_false (a b : Contact) :
  before a b = false <-> confOrZero a <= confOrZero b.
Proof.
  split.
  - intro H. destruct (Qlt_le_dec (confOrZero b) (confOrZero a)) as [L|L];
      [|exact L].
    apply before_lt in L. congruence.
  - intro H. destruct (before a b) eqn:E; [|reflexivity].
    apply before_lt in E. lra.
Qed.

Lemma insert_perm (a : Contact) (l : list Contact) :
  Permutation (insert a l) (a :: l).
Proof.
  induction l as [|b l IH]; simpl; [reflexivity|].
  destruct (before b a); [|reflexivity].
  rewrite IH. apply perm_swap.
Qed.

Lemma sort_perm (l : list Contact) : Permutation (sort l) l.
Proof.
  induction l as [|a l IH]; simpl; [reflexivity|].
  rewrite insert_perm. constructor. exact IH.
Qed.

Lemma insert_sorted (a : Contact) (l : list Contact) :
  StronglySorted descending l -> StronglySorted descending (insert a l).
Proof.
  induction 1 as [|b l Hs IH Hb]; simpl.
  - constructor; constructor.
  - destruct (before b a) eqn:E.
    + constructor; [exact IH|].
      rewrite insert_perm.
      constructor; [|exact Hb].
      apply before_lt in E. unfold descending. lra.
    + apply before_false in E.
      constructor; [constructor; assumption|].
      constructor; [exact E|].
      eapply Forall_impl; [|exact Hb].
      unfold descending. intros z Hz. lra.
Qed.

Lemma sort_sorted (l : list Contact) : StronglySorted descending (sort l).
Proof.
  induction l as [|a l IH]; simpl; [constructor|].
  apply insert_sorted, IH.
Qed.

Lemma sort_id (l : list Contact) : StronglySorted descending l -> sort l = l.
Proof.
  induction 1 as [|a l Hs IH Ha]; [reflexivity|].
  simpl. rewrite IH. destruct l as [|b l]; [reflexivity|].
  simpl. inversion Ha as [|x y Hab _]; subst.
  apply before_false in Hab. rewrite Hab. reflexivity.
Qed.

Lemma cleanupContacts_shape (l : list Contact) :
  cleanupContacts l
  = firstn 10
      (filter (fun c => match confOrZero c ?= (1 # 2) with
                        | Gt => true
                        | _ => false
                        end)
         (sort (firstOcc [] l))).
Proof.
  unfold cleanupContacts. rewrite <- (unique_firstOcc l []). reflexivity.
Qed.

Lemma cleanupContacts_fixed (l : list Contact) :
  NoDup (map keyOf l) ->
  StronglySorted descending l ->
  forallb (fun c => match confOrZero c ?= (1 # 2) with
                    | Gt => true
                    | _ => false
                    end) l = true ->
  (length l <= 10)%nat ->
  cleanupContacts l = l.
Proof.
  intros Hn Hs Hf Hl. rewrite cleanupContacts_shape.
  rewrite firstOcc_id; [|exact Hn|intros k _ []].
  rewrite sort_id by exact Hs.
  rewrite forallb_filter_id by exact Hf.
  apply firstn_all2, Hl.
Qed.

(** C7.  The merge stage is idempotent: cleaning a cleaned list, and
    deduplicating a deduplicated list, change nothing (same contacts, same
    confidences, same order). *)
Theorem merge_idempotent :
  (forall l : list Contact,
      cleanupContacts (cleanupContacts l) = cleanupContacts l) /\
  (forall l : list ContactSearch.ContactResult,
      ContactSearch._deduplicateContacts (ContactSearch._deduplicateContacts l)
      = ContactSearch._deduplicateContacts l).
Proof.
  split; [|exact deduplicate_idempotent].
  intro l. apply cleanupContacts_fixed.
  - rewrite cleanupContacts_shape.
    eapply subseq_NoDup.
    + apply subseq_map. eapply subseq_trans;
        [apply subseq_firstn|apply subseq_filter].
    + eapply Permutation_NoDup.
      * apply Permutation_map. symmetry. apply sort_perm.
      * apply (firstOcc_keys l []).
  - rewrite cleanupContacts_shape.
    eapply subseq_sorted.
    + eapply subseq_trans; [apply subseq_firstn|apply subseq_filter].
    + apply sort_sorted.
  - rewrite cleanupContacts_shape.
    apply forallb_forall. intros c Hc.
    eapply subseq_In in Hc; [|apply subseq_firstn].
    apply filter_In in Hc. exact (proj2 Hc).
  - rewrite cleanupContacts_shape. apply firstn_le_length.
Qed.

(** ** The confidence threshold *)

(** C6 (evaluation).  A phone number from the vision extractor, in a search
    for e-mail addresses, is validated at confidence 0.45; the validation
    tool leaves it out of [highConfidenceContacts], but the extraction tool
    returns [validatedContacts], where it is.  [cleanupContacts], whose
    threshold is 0.5, keeps a contact of confidence 0.55. *)
Theorem extraction_keeps_low_confidence :
  (exists c,
      ContactSearch.combineAndValidate emailSearch [] [visionPhone] true = [c] /\
      ContactSearch.confidence c == 9 # 20 /\
      ContactSearch.confidence c < 3 # 5) /\
  ContactSearch.highConfidenceContacts
    (ContactSearch.contact_validation_tool [visionPhone] (js "Acme")
       ContactSearch.email None) = [] /\
  cleanupContacts [lowContact] = [lowContact].
Proof.
  split; [|split; reflexivity].
  eexists. split; [vm_compute; reflexivity|].
  split; reflexivity.
Qed.

(** ** The rate gate *)

Lemma ofN_nonneg (n : N) : 0 <= Gateway.ofN n.
Proof.
  unfold Gateway.ofN. change 0 with (inject_Z 0). rewrite <- Zle_Qle. lia.
Qed.

Lemma sleep_spec (delay : Q) (late : N) (w : Gateway.World) :
  let w' := Gateway.sleep delay late w in
  Gateway.now w <= Gateway.now w' /\
  Gateway.now w + delay <= Gateway.now w' /\
  (0 < delay -> Gateway.now w' == Gateway.now w + delay + Gateway.ofN late) /\
  Gateway.lastRequestTime w' = Gateway.lastRequestTime w /\
  Gateway.sent w' = Gateway.sent w.
Proof.
  unfold Gateway.sleep. cbn [Gateway.now Gateway.lastRequestTime Gateway.sent].
  pose proof (ofN_nonneg late) as Hl.
  destruct (delay ?= 0) eqn:E.
  - apply Qeq_alt in E. repeat split; try lra.
  - apply Qlt_alt in E. repeat split; try lra.
  - apply Qgt_alt in E. repeat split; try lra.
Qed.

Lemma gate_spec (config : Gateway.AIConfig) (late : N) (w : Gateway.World) :
  let w' := Gateway.gate config late w in
  let minInterval := 60000 / Gateway.requestsPerMinute config in
  let elapsed := Gateway.now w - Gateway.lastRequestTime w in
  Gateway.lastRequestTime w' = Gateway.now w' /\
  Gateway.sent w' = Gateway.sent w /\
  Gateway.now w <= Gateway.now w' /\
  Gateway.lastRequestTime w + minInterval <= Gateway.now w' /\
  (elapsed < minInterval ->
   Gateway.now w' == Gateway.now w + (minInterval - elapsed) + Gateway.ofN late) /\
  (~ elapsed < minInterval -> Gateway.now w' = Gateway.now w).
Proof.
  unfold Gateway.gate.
  set (m := 60000 / Gateway.requestsPerMinute config). clearbody m.
  cbv zeta.
  destruct (Gateway.now w - Gateway.lastRequestTime w ?= m) eqn:E.
  - apply Qeq_alt in E.
    cbn [Gateway.now Gateway.lastRequestTime Gateway.sent].
    repeat split; try reflexivity; try (intros; lra).
  - apply Qlt_alt in E.
    pose proof (sleep_spec (m - (Gateway.now w - Gateway.lastRequestTime w))
                  late w) as Hs. cbv zeta in Hs.
    destruct Hs as (H1 & H2 & H3 & H4 & H5).
    cbn [Gateway.now Gateway.lastRequestTime Gateway.sent].
    split; [reflexivity|]. split; [exact H5|]. split; [exact H1|].
    split; [lra|]. split.
    + intros _. apply H3. lra.
    + intro H. exfalso. apply H. exact E.
  - apply Qgt_alt in E.
    cbn [Gateway.now Gateway.lastRequestTime Gateway.sent].
    repeat split; try reflexivity; try (intros; lra).
Qed.

Lemma fetch_spec (x : Gateway.Exchange) (w : Gateway.World) :
  let w' := snd (Gateway.fetch x w) in
  fst (Gateway.fetch x w) = Gateway.reply x /\
  Gateway.now w' == Gateway.now w + Gateway.ofN (Gateway.latency x) /\
  Gateway.lastRequestTime w' = Gateway.lastRequestTime w /\
  Gateway.sent w' = Gateway.sent w ++ [Gateway.now w].
Proof. repeat split; reflexivity. Qed.

(** What the retry does to the world. *)
Lemma retry429_world (e : Gateway.CallEnv) (r : Gateway.Response)
    (w : Gateway.World) :
  let w' := snd (Gateway.retry429 e r w) in
  exists t,
    Gateway.sent w' = Gateway.sent w ++ [t] /\
    Gateway.now w + Gateway.retryTime r <= t /\
    Gateway.now w <= t /\ t <= Gateway.now w' /\
    Gateway.lastRequestTime w' = Gateway.lastRequestTime w.
Proof.
  unfold Gateway.retry429.
  pose proof (sleep_spec (Gateway.retryTime r) (Gateway.retryLate e) w) as Hs.
  cbv zeta in Hs. destruct Hs as (H1 & H2 & _ & H4 & H5).
  set (w1 := Gateway.sleep _ _ w) in *. clearbody w1.
  pose proof (fetch_spec (Gateway.second e) w1) as Hf. cbv zeta in Hf.
  destruct Hf as (F1 & F2 & F3 & F4).
  pose proof (ofN_nonneg (Gateway.latency (Gateway.second e))) as Hl.
  destruct (Gateway.fetch (Gateway.second e) w1) as [rr w2].
  simpl in F1, F2, F3, F4. subst rr.
  assert (Hgoal : exists t,
            Gateway.sent w2 = Gateway.sent w ++ [t] /\
            Gateway.now w + Gateway.retryTime r <= t /\
            Gateway.now w <= t /\ t <= Gateway.now w2 /\
            Gateway.lastRequestTime w2 = Gateway.lastRequestTime w).
  { exists (Gateway.now w1).
    split; [rewrite F4, H5; reflexivity|].
    split; [exact H2|]. split; [exact H1|].
    split; [lra|]. rewrite F3. exact H4. }
  cbv zeta.
  destruct (Gateway.reply (Gateway.second e)) as [rr|m]; [|exact Hgoal].
  destruct (Gateway.ok rr); [|exact Hgoal].
  destruct (Gateway.candidateText rr) as [[[|c t]|]|m]; exact Hgoal.
Qed.

Lemma callLLM_retry (config : Gateway.AIConfig) (e : Gateway.CallEnv)
    (w : Gateway.World) (r : Gateway.Response) :
  active config ->
  Gateway.reply (Gateway.first e) = Ok r ->
  retries config r = true ->
  Gateway.callLLM config e w
  = Gateway.retry429 e r
      (snd (Gateway.fetch (Gateway.first e)
              (Gateway.gate config (Gateway.gateLate e) w))).
Proof.
  intros (He & Hk) Hr Ht. unfold Gateway.callLLM. rewrite He.
  destruct (Gateway.apiKey config) as [|c k]; [congruence|].
  cbn [negb orb]. cbv zeta. unfold Gateway.fetch at 1. rewrite Hr.
  unfold retries in Ht.
  apply andb_true_iff in Ht. destruct Ht as (Ht & H429).
  apply andb_true_iff in Ht. destruct Ht as (Ht & Hg).
  apply andb_true_iff in Ht. destruct Ht as (Hok & Herr).
  apply negb_true_iff in Hok. rewrite Hok.
  destruct (Gateway.errorOf r) as [msg|]; [|discriminate].
  rewrite Hg, H429. reflexivity.
Qed.

Lemma callLLM_once (config : Gateway.AIConfig) (e : Gateway.CallEnv)
    (w : Gateway.World) :
  active config ->
  (forall r, Gateway.reply (Gateway.first e) = Ok r -> retries config r = false) ->
  snd (Gateway.callLLM config e w)
  = snd (Gateway.fetch (Gateway.first e)
           (Gateway.gate config (Gateway.gateLate e) w)).
Proof.
  intros (He & Hk) Hr. unfold Gateway.callLLM. rewrite He.
  destruct (Gateway.apiKey config) as [|c k]; [congruence|].
  cbn [negb orb]. cbv zeta. unfold Gateway.fetch at 1.
  destruct (Gateway.reply (Gateway.first e)) as [r|m]; [|reflexivity].
  specialize (Hr r eq_refl). unfold retries in Hr.
  destruct (Gateway.ok r).
  - destruct (Gateway.decision r); reflexivity.
  - cbn [negb andb] in Hr.
    destruct (Gateway.errorOf r) as [msg|]; [|reflexivity].
    destruct (Gateway.isGoogle (Gateway.provider config)); cbn [andb] in *.
    + rewrite Hr. destruct (startsWith _ _ && _); reflexivity.
    + reflexivity.
Qed.

(** The world after a call that reached the network: the first request was
    sent when the gate opened, which is the new [lastRequestTime]; at most
    one more request followed. *)
Lemma callLLM_world (config : Gateway.AIConfig) (e : Gateway.CallEnv)
    (w : Gateway.World) :
  active config ->
  let w' := snd (Gateway.callLLM config e w) in
  let t := Gateway.now (Gateway.gate config (Gateway.gateLate e) w) in
  exists rest,
    Gateway.sent w' = Gateway.sent w ++ t :: rest /\
    (length rest <= 1)%nat /\
    Gateway.lastRequestTime w' = t /\
    t <= Gateway.now w'.
Proof.
  intros Ha. cbv zeta.
  pose proof (gate_spec config (Gateway.gateLate e) w) as Hg. cbv zeta in Hg.
  destruct Hg as (G1 & G2 & _).
  remember (Gateway.gate config (Gateway.gateLate e) w) as g eqn:Eg.
  pose proof (fetch_spec (Gateway.first e) g) as Hf. cbv zeta in Hf.
  destruct Hf as (F1 & F2 & F3 & F4).
  pose proof (ofN_nonneg (Gateway.latency (Gateway.first e))) as Hl.
  destruct (Gateway.reply (Gateway.first e)) as [r|m] eqn:Er.
  - destruct (retries config r) eqn:Et.
    + rewrite (@callLLM_retry config e w r Ha Er Et), <- Eg.
      pose proof (retry429_world e r (snd (Gateway.fetch (Gateway.first e) g)))
        as Hr. cbv zeta in Hr.
      destruct Hr as (t2 & R1 & R2 & R3 & R4 & R5).
      exists [t2]. rewrite R1, F4, G2, R5, F3, G1, <- app_assoc.
      repeat split; [simpl; lia|]. lra.
    + rewrite callLLM_once; [|exact Ha|].
      * rewrite <- Eg. exists []. rewrite F4, G2, F3, G1.
        repeat split; [simpl; lia|]. lra.
      * intros r' Hr'. rewrite Er in Hr'. injection Hr' as <-. exact Et.
  - rewrite callLLM_once; [|exact Ha|].
    + rewrite <- Eg. exists []. rewrite F4, G2, F3, G1.
      repeat split; [simpl; lia|]. lra.
    + intros r' Hr'. rewrite Er in Hr'. discriminate.
Qed.

Lemma callAll_bound (config : Gateway.AIConfig) :
  active config ->
  Gateway.requestsPerMinute config = 15 ->
  forall es w,
    es <> [] ->
    Gateway.lastRequestTime w + 4000 * inject_Z (Z.of_nat (length es))
    <= Gateway.now (Gateway.callAll config es w) /\
    Gateway.now w + 4000 * (inject_Z (Z.of_nat (length es)) - 1)
    <= Gateway.now (Gateway.callAll config es w).
Proof.
  intros Ha Hrpm es. induction es as [|[idle e] es IH]; intros w Hne;
    [congruence|].
  cbn [Gateway.callAll].
  set (w0 := Gateway.mkWorld _ _ _).
  pose proof (ofN_nonneg idle) as Hi.
  destruct (callLLM_world e w0 Ha) as (rest & _ & _ & L1 & L2).
  pose proof (gate_spec config (Gateway.gateLate e) w0) as Hg.
  cbv zeta in Hg. destruct Hg as (_ & _ & G3 & G4 & _).
  rewrite Hrpm in G4.
  set (t := Gateway.now (Gateway.gate config (Gateway.gateLate e) w0)) in *.
  set (w1 := snd (Gateway.callLLM config e w0)) in *.
  assert (H0 : Gateway.now w0 == Gateway.now w + Gateway.ofN idle)
    by reflexivity.
  assert (H0' : Gateway.lastRequestTime w0 = Gateway.lastRequestTime w)
    by reflexivity.
  rewrite H0' in G4. clearbody w0 t w1.
  assert (Hm : 60000 / 15 == 4000) by reflexivity.
  assert (Hs : inject_Z (Z.of_nat (length ((idle, e) :: es)))
               == inject_Z (Z.of_nat (length es)) + 1).
  { cbn [length]. rewrite Nat2Z.inj_succ. unfold Z.succ.
    rewrite inject_Z_plus. reflexivity. }
  rewrite Hs. destruct es as [|x es'].
  - cbn [Gateway.callAll length Z.of_nat].
    change (inject_Z 0) with 0. split; lra.
  - destruct (IH w1) as (I1 & I2); [discriminate|].
    rewrite L1 in I1. split; lra.
Qed.

(** C3 (as amended).  Before the first request of a call, [callLLM]
    computes the time elapsed since [lastRequestTime] and, when it is less
    than [minInterval = 60000 / requestsPerMinute], waits for the
    difference; the first request of the call is sent when the gate opens,
    which becomes [lastRequestTime], at least [minInterval] after the first
    request of the previous call; so [N] calls made one after the other at
    15 requests per minute take at least [(N - 1) * 4000] ms. *)
Theorem rate_gate_paces_calls :
  (forall config late w,
      let w' := Gateway.gate config late w in
      let minInterval := 60000 / Gateway.requestsPerMinute config in
      let elapsed := Gateway.now w - Gateway.lastRequestTime w in
      (elapsed < minInterval ->
       Gateway.now w' == Gateway.now w + (minInterval - elapsed)
                         + Gateway.ofN late) /\
      (~ elapsed < minInterval -> Gateway.now w' = Gateway.now w) /\
      Gateway.lastRequestTime w' = Gateway.now w') /\
  (forall config e w,
      active config ->
      let w' := snd (Gateway.callLLM config e w) in
      exists t rest,
        Gateway.sent w' = Gateway.sent w ++ t :: rest /\
        Gateway.lastRequestTime w' = t /\
        Gateway.lastRequestTime w + 60000 / Gateway.requestsPerMinute config
        <= t) /\
  (forall config e1 idle e2 w,
      active config ->
      let w1 := snd (Gateway.callLLM config e1 w) in
      let w2 := Gateway.callAll config [(idle, e2)] w1 in
      Gateway.lastRequestTime w1
      + 60000 / Gateway.requestsPerMinute config
      <= Gateway.lastRequestTime w2) /\
  (forall config es w,
      active config ->
      Gateway.requestsPerMinute config = 15 ->
      (inject_Z (Z.of_nat (length es)) - 1) * 4000
      <= Gateway.now (Gateway.callAll config es w) - Gateway.now w).
Proof.
  split; [|split; [|split]].
  - intros config late w.
    pose proof (gate_spec config late w) as H. cbv zeta in *.
    destruct H as (H1 & _ & _ & _ & H5 & H6). auto.
  - intros config e w Ha. cbv zeta.
    destruct (callLLM_world e w Ha) as (rest & S1 & _ & L1 & _).
    pose proof (gate_spec config (Gateway.gateLate e) w) as H. cbv zeta in H.
    destruct H as (_ & _ & _ & H4 & _).
    eexists. exists rest. split; [exact S1|]. split; [exact L1|exact H4].
  - intros config e1 idle e2 w Ha. cbv zeta. cbn [Gateway.callAll].
    set (w1 := snd (Gateway.callLLM config e1 w)).
    set (w0 := Gateway.mkWorld _ _ _).
    destruct (callLLM_world e2 w0 Ha) as (rest & _ & _ & L1 & _).
    pose proof (gate_spec config (Gateway.gateLate e2) w0) as H.
    cbv zeta in H. destruct H as (_ & _ & _ & H4 & _).
    rewrite L1. exact H4.
  - intros config es w Ha Hrpm. destruct es as [|x es].
    + cbn [Gateway.callAll length Z.of_nat]. change (inject_Z 0) with 0. lra.
    + destruct (@callAll_bound config Ha Hrpm (x :: es) w) as (_ & H2);
        [discriminate|]. lra.
Qed.

Lemma rate_gate_paces_calls_witness :
  (exists t rest,
      Gateway.sent (snd (Gateway.callLLM freeTier twice429 noon))
      = Gateway.sent noon ++ t :: rest /\
      Gateway.lastRequestTime (snd (Gateway.callLLM freeTier twice429 noon)) = t /\
      Gateway.lastRequestTime noon + 60000 / Gateway.requestsPerMinute freeTier
      <= t) /\
  (inject_Z (Z.of_nat (length [(0%N, twice429); (0%N, twice429)])) - 1) * 4000
  <= Gateway.now (Gateway.callAll freeTier [(0%N, twice429); (0%N, twice429)] noon)
     - Gateway.now noon.
Proof.
  destruct rate_gate_paces_calls as (_ & H2 & _ & H3).
  split.
  - apply (H2 freeTier twice429 noon). split; [reflexivity|discriminate].
  - apply (H3 freeTier). split; [reflexivity|discriminate]. reflexivity.
Defined.

(** C3, counterexample.  At 15 requests per minute, a 429 with
    [retry-after: 1] is retried 1100 ms after the first request. *)
Lemma retry_is_not_paced :
  ~ (active freeTier ->
     spaced (60000 / Gateway.requestsPerMinute freeTier)
       (Gateway.sent (snd (Gateway.callLLM freeTier twice429 noon)))).
Proof.
  intro H.
  assert (Ha : active freeTier) by (split; [reflexivity|discriminate]).
  specialize (H Ha). vm_compute in H. destruct H as (H & _).
  apply H. reflexivity.
Qed.

(** ** The retry after a 429 *)






(** ** The progress reported by the result *)

Lemma quiet_bind (A B : Type) (m : Task A) (k : A -> Task B) :
  quiet m -> (forall a, quiet (k a)) -> quiet (bind m k).
Proof.
  intros Hm Hk st. unfold bind. specialize (Hm st).
  destruct (m st) as [[a|e] st1]; simpl in *.
  - rewrite <- Hm. apply Hk.
  - exact Hm.
Qed.

Lemma quiet_ret (A : Type) (a : A) : quiet (ret a).
Proof. intro st. reflexivity. Qed.

Lemma quiet_perform (A : Type) (op : Op A) : quiet (perform op).
Proof.
  intro st. unfold perform. destruct (op (calls st)) as [r tr]. reflexivity.
Qed.

Lemma quiet_pushAction (line : jsstring) : quiet (pushAction line).
Proof. intro st. reflexivity. Qed.

Lemma quiet_setSuccess (b : bool) : quiet (setSuccess b).
Proof. intro st. reflexivity. Qed.

Lemma quiet_setAnswer (a : jsstring) : quiet (setAnswer a).
Proof. intro st. reflexivity. Qed.

Lemma quiet_setExtracted (l : list Contact) : quiet (setExtracted l).
Proof. intro st. reflexivity. Qed.

Lemma quiet_getExtracted : quiet getExtracted.
Proof. intro st. reflexivity. Qed.

Lemma quiet_getCalls : quiet getCalls.
Proof. intro st. reflexivity. Qed.

Lemma quiet_nextStep : quiet nextStep.
Proof. intro st. reflexivity. Qed.

Create HintDb quiet.

#[local] Hint Resolve quiet_bind quiet_ret quiet_perform quiet_pushAction
  quiet_setSuccess quiet_setAnswer quiet_setExtracted quiet_getExtracted
  quiet_getCalls quiet_nextStep : quiet.

(** The extraction from the page never throws, and only makes a call. *)
Lemma extract_spec (env : Env) (st : Run) :
  exists l st',
    extractContactsFromCurrentPage env st = (Ok l, st') /\
    result st' = result st /\
    extractedContacts st' = extractedContacts st.
Proof.
  unfold extractContactsFromCurrentPage, perform.
  destruct (withErrorHandling _ _ (calls st)) as [[a|e] tr].
  - destruct (pageContacts env (calls st)) as [l|m]; eauto.
  - eauto.
Qed.

Lemma quiet_extract (env : Env) : quiet (extractContactsFromCurrentPage env).
Proof.
  intro st. destruct (extract_spec env st) as (l & st' & E & Hr & _).
  rewrite E. unfold progress. simpl. rewrite Hr. reflexivity.
Qed.

#[local] Hint Resolve quiet_extract : quiet.

Lemma quiet_doClick (env : Env) (action : Action) : quiet (doClick env action).
Proof.
  unfold doClick.
  destruct (a_x action) as [x|], (a_y action) as [y|]; auto with quiet.
  destruct (truthyNum (Some x) && truthyNum (Some y)); auto with quiet.
  destruct x as [x|], y as [y|]; auto with quiet.
  destruct (validateCoordinates _ _ _ _); auto with quiet.
Qed.

Lemma quiet_doType (env : Env) (action : Action) : quiet (doType env action).
Proof.
  unfold doType. destruct (a_text action) as [[|c t]|]; auto with quiet.
Qed.

Lemma quiet_doScroll (env : Env) (action : Action) : quiet (doScroll env action).
Proof. unfold doScroll. auto with quiet. Qed.

#[local] Hint Resolve quiet_doClick quiet_doType quiet_doScroll : quiet.

(** The statements after the loop read the URL, then report: they can
    throw only before anything is reported. *)
Lemma report_spec (env : Env) (st : Run) (r : Res unit) (st' : Run) :
  (url <- perform (call env GetCurrentURL) ;;
   setFinalURL url ;;
   extracted <- getExtracted ;;
   setContacts extracted) st = (r, st') ->
  match r with
  | Ok _ => reportsProgress st'
  | Err _ => progress st' = progress st
  end.
Proof.
  unfold bind, perform, call.
  destruct (native env (calls st) GetCurrentURL) as [url|m];
    intro H; injection H as <- <-.
  - split; [reflexivity|]. exists url. reflexivity.
  - reflexivity.
Qed.

Lemma doDone_progress (env : Env) (action : Action) (st : Run)
    (r : Res unit) (st' : Run) :
  doDone env action st = (r, st') ->
  match r with
  | Ok _ => reportsProgress st'
  | Err _ => progress st' = progress st
  end.
Proof.
  unfold doDone. unfold bind at 1. cbn [setSuccess modifyResult].
  unfold bind at 1. cbn [setAnswer modifyResult].
  unfold bind at 1, perform, call. cbn [calls].
  destruct (native env (calls st) GetCurrentURL) as [url|m].
  - unfold bind at 1. cbn [setFinalURL modifyResult].
    unfold bind at 1. cbn [getExtracted extractedContacts].
    destruct (extractedContacts st) as [|c l] eqn:Ex.
    + unfold bind at 1. unfold extractFinalContacts. unfold bind at 1.
      match goal with |- context [extractContactsFromCurrentPage env ?s] =>
        destruct (extract_spec env s) as (l & s1 & E1 & Hr & He); rewrite E1
      end.
      cbn [setExtracted]. unfold bind. cbn [getExtracted setContacts
        modifyResult result extractedContacts].
      intro H. injection H as <- <-. split; [reflexivity|].
      exists url. cbn [result finalURL]. rewrite Hr. reflexivity.
    + unfold bind. cbn [ret getExtracted setContacts modifyResult result
        extractedContacts].
      intro H. injection H as <- <-. split; [cbn; congruence|].
      exists url. reflexivity.
  - intro H. injection H as <- <-. reflexivity.
Qed.

Lemma quiet_no_return (m : Task BodyExit) (st : Run) (r : Res BodyExit)
    (st' : Run) :
  quiet m ->
  (forall s, fst (m s) <> Ok Return) ->
  m st = (r, st') ->
  match r with
  | Ok Return => reportsProgress st'
  | _ => progress st' = progress st
  end.
Proof.
  intros Hq Hn H. specialize (Hq st). specialize (Hn st).
  rewrite H in Hq, Hn. simpl in Hq, Hn.
  destruct r as [[|]|]; congruence.
Qed.

Lemma execute_progress (env : Env) (action : Action) (st : Run)
    (r : Res BodyExit) (st' : Run) :
  execute env action st = (r, st') ->
  match r with
  | Ok Return => reportsProgress st'
  | _ => progress st' = progress st
  end.
Proof.
  unfold execute. destruct (a_type action).
  - apply quiet_no_return.
    + repeat (apply quiet_bind; [auto with quiet|intro]); auto with quiet.
      destruct a0; auto with quiet.
    + intro s. unfold bind.
      destruct (doClick env action s) as [[u|e] s1]; simpl; [|discriminate].
      destruct (extractContactsFromCurrentPage env s1) as [[l|e] s2]; simpl;
        [|discriminate].
      destruct l; simpl; discriminate.
  - apply quiet_no_return.
    + repeat (apply quiet_bind; [auto with quiet|intro]); auto with quiet.
      destruct a0; auto with quiet.
    + intro s. unfold bind.
      destruct (doType env action s) as [[u|e] s1]; simpl; [|discriminate].
      destruct (extractContactsFromCurrentPage env s1) as [[l|e] s2]; simpl;
        [|discriminate].
      destruct l; simpl; discriminate.
  - apply quiet_no_return.
    + repeat (apply quiet_bind; [auto with quiet|intro]); auto with quiet.
    + intro s. unfold bind.
      destruct (doScroll env action s) as [[u|e] s1]; simpl; discriminate.
  - unfold bind.
    destruct (doDone env action st) as [[u|e] s1] eqn:E;
      intro H; injection H as <- <-;
      exact (doDone_progress env action st E).
Qed.

Lemma loopBody_progress (env : Env) (st : Run) (r : Res BodyExit) (st' : Run) :
  loopBody env st = (r, st') ->
  match r with
  | Ok Return => reportsProgress st'
  | _ => progress st' = progress st
  end.
Proof.
  unfold loopBody. unfold bind at 1. cbn [nextStep].
  match goal with |- context [bind _ _ ?s] => set (st1 := s) end.
  assert (H1 : progress st1 = progress st) by reflexivity. clearbody st1.
  unfold bind at 1.
  pose proof (quiet_perform
    (withErrorHandling (js "screenshot") (call env Screenshot)) st1) as H2.
  destruct (perform _ st1) as [[shot|e] st2]; simpl in H2.
  - unfold bind at 1. cbn [pushAction modifyResult].
    unfold bind at 1. cbn [getCalls calls].
    unfold bind at 1. cbn [pushAction modifyResult].
    intro H. apply execute_progress in H.
    unfold progress in *. cbn [result contacts finalURL] in H.
    destruct r as [[|]|]; congruence.
  - intro H. injection H as <- <-. congruence.
Qed.

Lemma mainLoop_progress (env : Env) (maxSteps : Z) (fuel : nat) :
  forall st r st',
    mainLoop env fuel maxSteps st = Some (r, st') ->
    match r with
    | Ok Returned => reportsProgress st'
    | _ => progress st' = progress st
    end.
Proof.
  induction fuel as [|fuel IH]; intros st r st'; simpl;
    destruct (currentStep st <? maxSteps)%Z; try discriminate;
    try (intro H; injection H as <- <-; reflexivity).
  destruct (loopBody env st) as [rb st1] eqn:Hb.
  pose proof (loopBody_progress env st Hb) as Hp.
  destruct rb as [[|]|e].
  - intro H. specialize (IH _ _ _ H).
    destruct r as [[|]|]; congruence.
  - intro H. injection H as <- <-. exact Hp.
  - intro H. injection H as <- <-. exact Hp.
Qed.

Lemma afterLoop_progress (env : Env) (maxSteps : Z) (st : Run) (r : Res unit)
    (st' : Run) :
  afterLoop env maxSteps st = (r, st') ->
  match r with
  | Ok _ => reportsProgress st'
  | Err _ => progress st' = progress st
  end.
Proof.
  unfold afterLoop. unfold bind at 1. cbn [setAnswer modifyResult].
  intro H. apply report_spec in H. exact H.
Qed.

Lemma mainLoop_error (env : Env) (maxSteps : Z) (fuel : nat) :
  forall st r st',
    mainLoop env fuel maxSteps st = Some (r, st') ->
    error (result st') = error (result st).
Proof.
  induction fuel as [|fuel IH]; intros st r st'; simpl;
    destruct (currentStep st <? maxSteps)%Z; try discriminate;
    try (intro H; injection H as <- <-; reflexivity).
  destruct (loopBody env st) as [rb st1] eqn:Hb.
  destruct (loopBody_core env st Hb) as (E1 & _).
  destruct rb as [[|]|e].
  - intro H. rewrite (IH _ _ _ H). exact E1.
  - intro H. injection H as <- <-. exact E1.
  - intro H. injection H as <- <-. exact E1.
Qed.

(** X1.  In every environment, a run that ends without an error reports the
    contacts gathered and the final URL; a run that fails reports neither:
    its contact list is the initial, empty one, and it has no final URL. *)
Lemma runTask_progress (env : Env) (fuel : nat) (maxSteps : Z) (st : Run) :
  runTask env fuel maxSteps = Some st ->
  (error (result st) = None -> reportsProgress st) /\
  (error (result st) <> None ->
   contacts (result st) = [] /\ finalURL (result st) = None).
Proof.
  unfold runTask.
  set (start := bind _ _).
  assert (Hq : quiet start) by (unfold start; auto with quiet).
  assert (Hs : stable start) by (unfold start; auto with stable).
  specialize (Hq initialRun). specialize (Hs initialRun).
  unfold progress, core in Hq, Hs.
  cbn [initialRun result contacts finalURL success error answer currentStep
       iterations] in Hq, Hs.
  destruct (start initialRun) as [[u|e] st0]; simpl in Hq, Hs;
    injection Hq as Q1 Q2; injection Hs as S0 E0 A0 C0 I0.
  - destruct (mainLoop env fuel maxSteps st0) as [[r st1]|] eqn:Hl;
      [|discriminate].
    pose proof (mainLoop_progress env maxSteps fuel st0 Hl) as Hp.
    pose proof (mainLoop_error env maxSteps fuel st0 Hl) as He.
    rewrite E0 in He.
    destruct r as [[|]|e].
    + unfold progress in Hp. injection Hp as P1 P2.
      destruct (afterLoop env maxSteps st1) as [[u'|e] st2] eqn:Ha.
      * pose proof (afterLoop_progress env maxSteps st1 Ha) as Hr.
        intro H. injection H as <-. split; [intros _; exact Hr|].
        pose proof (afterLoop_spec env maxSteps st1) as Hx.
        rewrite Ha in Hx. cbv zeta in Hx. simpl in Hx.
        destruct Hx as (_ & Hx & _). congruence.
      * pose proof (afterLoop_progress env maxSteps st1 Ha) as Hr.
        unfold progress in Hr. injection Hr as R1 R2.
        intro H. injection H as <-. split.
        -- intro H. discriminate H.
        -- intros _. cbn. split; congruence.
    + intro H. injection H as <-. split; [intros _; exact Hp|congruence].
    + unfold progress in Hp. injection Hp as P1 P2.
      intro H. injection H as <-. split.
      * intro H. discriminate H.
      * intros _. cbn. split; congruence.
  - intro H. injection H as <-. split.
    + intro H. discriminate H.
    + intros _. cbn. split; assumption.
Qed.

(** * Further properties *)

(** ** Typing *)

Lemma chars_ind2 (P : jsstring -> Prop) :
  P [] ->
  (forall c, P [c]) ->
  (forall c d s,
      P s -> P (d :: s) -> P (c :: d :: s)) ->
  forall s, P s.
Proof.
  intros H0 H1 H2.
  assert (H : forall s, P s /\ forall c, P (c :: s)).
  { induction s as [|d s [IH1 IH2]].
    - split; [exact H0|exact H1].
    - split; [apply IH2|]. intro c. apply H2; [exact IH1|apply IH2]. }
  intro s. apply H.
Qed.

Lemma chars_cons2 (c d : N) (s : jsstring) :
  chars (c :: d :: s)
  = if isHighSurrogate c && isLowSurrogate d
    then [c; d] :: chars s
    else [c] :: chars (d :: s).
Proof. reflexivity. Qed.

(** [for (const char of text)] cuts the text into pieces of one code unit,
    or of two for a surrogate pair, and the pieces put together are the
    text. *)
Lemma chars_concat (s : jsstring) :
  concat (chars s) = s /\
  Forall (fun ch =>
            (exists c, ch = [c]) \/
            (exists c d, ch = [c; d] /\ isHighSurrogate c = true
                         /\ isLowSurrogate d = true))
         (chars s).
Proof.
  induction s as [|c|c d s [IH1 IH2] [IH3 IH4]] using chars_ind2.
  - split; [reflexivity|constructor].
  - split; [reflexivity|]. constructor; [left; eauto|constructor].
  - rewrite chars_cons2.
    destruct (isHighSurrogate c && isLowSurrogate d) eqn:E.
    + apply andb_true_iff in E. destruct E as [E1 E2]. split.
      * cbn [concat app]. rewrite IH1. reflexivity.
      * constructor; [right; eauto|exact IH2].
    + split.
      * cbn [concat app]. rewrite IH3. reflexivity.
      * constructor; [left; eauto|exact IH4].
Qed.

Lemma typeChars_trace (env : Env) (cs : list jsstring) :
  forall tr,
    exists keys rest,
      cs = keys ++ rest /\
      snd (typeChars env cs tr) = tr ++ map DispatchKeyText keys /\
      (forall u, fst (typeChars env cs tr) = Ok u -> rest = []) /\
      (forall m, fst (typeChars env cs tr) = Err m ->
                 exists pre ch,
                   keys = pre ++ [ch] /\
                   native env (tr ++ map DispatchKeyText pre) (DispatchKeyText ch)
                   = Err m).
Proof.
  induction cs as [|ch cs IH]; intro tr.
  - exists [], []. simpl. rewrite app_nil_r.
    split; [reflexivity|]. split; [reflexivity|]. split; [auto|discriminate].
  - cbn [typeChars]. unfold call.
    destruct (native env tr (DispatchKeyText ch)) as [a|m] eqn:En.
    + destruct (IH (tr ++ [DispatchKeyText ch]))
        as (keys & rest & E & Ht & Hok & Herr).
      exists (ch :: keys), rest. split; [simpl; congruence|].
      split; [rewrite Ht, <- app_assoc; reflexivity|].
      split; [exact Hok|].
      intros m Hm. destruct (Herr m Hm) as (pre & ch' & -> & Hn).
      exists (ch :: pre), ch'. split; [reflexivity|].
      rewrite <- app_assoc in Hn. exact Hn.
    + exists [ch], cs. split; [reflexivity|]. split; [reflexivity|].
      split; [discriminate|].
      simpl. intros m' Hm. injection Hm as <-.
      exists [], ch. split; [reflexivity|]. simpl. rewrite app_nil_r. exact En.
Qed.

(** X2.  [browser.type(text, submit)] dispatches the characters of the text in
    order, one key event each, and stops at the first event that fails:
    when it throws, the call that failed is the last call made, and its
    error is thrown as [Typing failed: ...].  Enter (key code 66) is
    dispatched only after the whole text, and only if [submit] is set; when
    the operation succeeds, the whole text was dispatched, piece by piece,
    and Enter too if [submit] is set. *)
Theorem browser_type_keys (env : Env) (text : jsstring) (submit : bool)
    (tr : list ApiCall) :
  exists keys enter,
    snd (browser_type env text submit tr)
    = tr ++ map DispatchKeyText keys ++ enter /\
    (exists rest, chars text = keys ++ rest) /\
    (enter = [] \/
     (enter = [DispatchKeyCode 66] /\ submit = true /\ keys = chars text)) /\
    (forall u, fst (browser_type env text submit tr) = Ok u ->
               keys = chars text /\ concat keys = text /\
               (submit = true -> enter = [DispatchKeyCode 66])) /\
    (forall m, fst (browser_type env text submit tr) = Err m ->
               exists m' made last,
                 m = js "Typing failed: " ++ String_ m' /\
                 snd (browser_type env text submit tr) = made ++ [last] /\
                 native env made last = Err m').
Proof.
  unfold browser_type.
  destruct (typeChars_trace env (chars text) tr)
    as (keys & rest & E & Ht & Hok & Herr).
  destruct (typeChars env (chars text) tr) as [[u|m] tr1];
    simpl in Ht, Hok, Herr.
  - assert (rest = []) by (apply (Hok u); reflexivity). subst rest.
    rewrite app_nil_r in E. subst keys tr1.
    destruct submit.
    + exists (chars text), [DispatchKeyCode 66].
      unfold call.
      destruct (native env (tr ++ map DispatchKeyText (chars text))
                  (DispatchKeyCode 66)) as [a|m] eqn:En;
        cbn [fst snd]; rewrite <- app_assoc.
      * split; [reflexivity|].
        split; [exists []; rewrite app_nil_r; reflexivity|].
        split; [right; auto|]. split; [|discriminate].
        intros _ _. split; [reflexivity|]. split; [apply chars_concat|auto].
      * split; [reflexivity|].
        split; [exists []; rewrite app_nil_r; reflexivity|].
        split; [right; auto|]. split; [discriminate|].
        intros m0 Hm. injection Hm as <-.
        exists m, (tr ++ map DispatchKeyText (chars text)), (DispatchKeyCode 66).
        split; [reflexivity|]. split; [|exact En].
        rewrite <- app_assoc. reflexivity.
    + exists (chars text), []. simpl. rewrite app_nil_r.
      split; [reflexivity|].
      split; [exists []; rewrite app_nil_r; reflexivity|].
      split; [left; reflexivity|]. split; [|discriminate].
      intros _ _. split; [reflexivity|]. split; [apply chars_concat|discriminate].
  - exists keys, []. simpl. rewrite app_nil_r.
    split; [exact Ht|]. split; [exists rest; exact E|].
    split; [left; reflexivity|]. split; [discriminate|].
    intros m0 Hm. injection Hm as <-.
    destruct (Herr m eq_refl) as (pre & ch & -> & Hn).
    exists m, (tr ++ map DispatchKeyText pre), (DispatchKeyText ch).
    split; [reflexivity|]. split; [|exact Hn].
    rewrite Ht, map_app, app_assoc. reflexivity.
Qed.

(** ** The calls of a run *)

Lemma actionCall_split (l : list ApiCall) :
  Forall actionCall l -> filter isScreenshot l = [] /\ Forall tapInBounds l.
Proof.
  induction 1 as [|c l [Hs Ht] _ [IH1 IH2]].
  - split; [reflexivity|constructor].
  - simpl. rewrite Hs. split; [exact IH1|constructor; assumption].
Qed.

Lemma opAdds_call (env : Env) (c : ApiCall) :
  actionCall c -> opAdds (call env c).
Proof.
  intros H tr. exists [c]. split; [reflexivity|constructor; auto].
Qed.

Lemma opAdds_withErrorHandling (A : Type) (operation : jsstring) (fn : Op A) :
  opAdds fn -> opAdds (withErrorHandling operation fn).
Proof.
  intros H tr. destruct (H tr) as (new & E & F). exists new.
  split; [|exact F]. unfold withErrorHandling.
  destruct (fn tr) as [[a|m] tr']; exact E.
Qed.

Lemma opAdds_newTab (env : Env) (url : jsstring) : opAdds (newTab env url).
Proof.
  intro tr. exists [LoadURL url]. split.
  - unfold newTab, call. destruct (native env tr _); reflexivity.
  - constructor; [split; [reflexivity|exact I]|constructor].
Qed.

Lemma opAdds_browser_click (env : Env) (x y : Z) :
  validateCoordinates x y (width GeminiVision.getViewportDimensions)
    (height GeminiVision.getViewportDimensions) = true ->
  opAdds (browser_click env x y).
Proof.
  intros V tr. apply validateCoordinates_spec in V. simpl in V.
  destruct (browser_click_calls env tr x y) as (v & _ & E). rewrite E.
  eexists. split; [reflexivity|].
  constructor; [|constructor]. split; [reflexivity|].
  simpl. unfold clamp. lia.
Qed.

Lemma opAdds_browser_type (env : Env) (text : jsstring) (submit : bool) :
  opAdds (browser_type env text submit).
Proof.
  intro tr. unfold browser_type.
  destruct (typeChars_trace env (chars text) tr)
    as (keys & rest & _ & Ht & _ & _).
  assert (Hk : Forall actionCall (map DispatchKeyText keys)).
  { apply Forall_forall. intros c Hc. apply in_map_iff in Hc.
    destruct Hc as (ch & <- & _). split; [reflexivity|exact I]. }
  destruct (typeChars env (chars text) tr) as [[u|m] tr1]; simpl in Ht; subst tr1.
  - destruct submit.
    + exists (map DispatchKeyText keys ++ [DispatchKeyCode 66]). split.
      * unfold call. destruct (native env _ _); simpl; rewrite <- app_assoc;
          reflexivity.
      * apply Forall_app. split; [exact Hk|].
        constructor; [split; [reflexivity|exact I]|constructor].
    + exists (map DispatchKeyText keys). split; [reflexivity|exact Hk].
  - exists (map DispatchKeyText keys). split; [reflexivity|exact Hk].
Qed.

Lemma opAdds_browser_scroll (env : Env) (down_ : bool) :
  opAdds (browser_scroll env down_).
Proof.
  intro tr. exists [ScrollBy (if down_ then down else up) 500]. split.
  - unfold browser_scroll, call. destruct (native env tr _); reflexivity.
  - constructor; [split; [reflexivity|exact I]|constructor].
Qed.

Lemma adds_bind (A B : Type) (m : Task A) (k : A -> Task B) :
  adds m -> (forall a, adds (k a)) -> adds (bind m k).
Proof.
  intros Hm Hk st. unfold bind.
  destruct (Hm st) as (n1 & E1 & F1).
  destruct (m st) as [[a|e] st1]; simpl in *.
  - destruct (Hk a st1) as (n2 & E2 & F2). exists (n1 ++ n2).
    rewrite E2, E1, app_assoc. split; [reflexivity|].
    apply Forall_app. split; assumption.
  - exists n1. split; assumption.
Qed.

Lemma adds_nothing (A : Type) (m : Task A) :
  (forall st, calls (snd (m st)) = calls st) -> adds m.
Proof.
  intros H st. exists []. rewrite app_nil_r. split; [apply H|constructor].
Qed.

Lemma adds_perform (A : Type) (op : Op A) : opAdds op -> adds (perform op).
Proof.
  intros H st. destruct (H (calls st)) as (new & E & F). exists new.
  split; [|exact F]. unfold perform.
  destruct (op (calls st)) as [r tr]. exact E.
Qed.

Lemma adds_extract (env : Env) : adds (extractContactsFromCurrentPage env).
Proof.
  intro st. unfold extractContactsFromCurrentPage.
  destruct (@adds_perform _
    (withErrorHandling (js "dom_extraction") (call env EvaluateJavaScript))
    (opAdds_withErrorHandling _
       (@opAdds_call env EvaluateJavaScript (conj eq_refl I))) st)
    as (new & E & F).
  exists new. split; [|exact F].
  destruct (perform _ st) as [[a|e] st1]; simpl in *.
  - destruct (pageContacts env (calls st)); exact E.
  - exact E.
Qed.

(** The tasks of the loop, taken apart down to the operations of the
    adapter. *)
Ltac adds_tac :=
  repeat match goal with
  | |- adds (bind _ _) => apply adds_bind; [|intro]
  | |- adds (perform _) => apply adds_perform
  | |- adds (extractContactsFromCurrentPage _) => apply adds_extract
  | |- adds (extractFinalContacts _) => apply adds_extract
  | |- adds (match ?x with _ => _ end) => destruct x
  | |- adds _ => solve [apply adds_nothing; intro; reflexivity]
  | |- opAdds (withErrorHandling _ _) => apply opAdds_withErrorHandling
  | |- opAdds (call _ _) => apply opAdds_call; split; [reflexivity|exact I]
  | |- opAdds (newTab _ _) => apply opAdds_newTab
  | |- opAdds (browser_type _ _ _) => apply opAdds_browser_type
  | |- opAdds (browser_scroll _ _) => apply opAdds_browser_scroll
  end.

Lemma adds_doClick (env : Env) (action : Action) : adds (doClick env action).
Proof.
  unfold doClick.
  destruct (a_x action) as [x|], (a_y action) as [y|]; try solve [adds_tac].
  destruct (truthyNum (Some x) && truthyNum (Some y)); try solve [adds_tac].
  destruct x as [x|], y as [y|]; try solve [adds_tac].
  cbv zeta.
  destruct (validateCoordinates x y (width GeminiVision.getViewportDimensions)
              (height GeminiVision.getViewportDimensions)) eqn:V; adds_tac.
  apply opAdds_browser_click, V.
Qed.

Lemma adds_doType (env : Env) (action : Action) : adds (doType env action).
Proof.
  unfold doType. destruct (a_text action) as [[|c t]|]; adds_tac.
Qed.

Lemma adds_doScroll (env : Env) (action : Action) : adds (doScroll env action).
Proof. unfold doScroll. adds_tac. Qed.

Lemma adds_doDone (env : Env) (action : Action) : adds (doDone env action).
Proof. unfold doDone. adds_tac. Qed.

Lemma adds_execute (env : Env) (action : Action) : adds (execute env action).
Proof.
  unfold execute.
  destruct (a_type action); adds_tac;
    first [apply adds_doClick | apply adds_doType | apply adds_doScroll
          | apply adds_doDone].
Qed.

Lemma adds_afterLoop (env : Env) (maxSteps : Z) : adds (afterLoop env maxSteps).
Proof. unfold afterLoop. adds_tac. Qed.

(** One execution of the body takes one screenshot, first, and then makes
    the calls of the action. *)
Lemma loopBody_calls (env : Env) (st : Run) (r : Res BodyExit) (st' : Run) :
  loopBody env st = (r, st') ->
  exists new,
    calls st' = calls st ++ Screenshot :: new /\ Forall actionCall new.
Proof.
  intro H. unfold loopBody in H. unfold bind at 1 in H. cbn [nextStep] in H.
  match type of H with context [bind _ _ ?s] => set (st1 := s) in H end.
  assert (C1 : calls st1 = calls st) by reflexivity.
  clearbody st1.
  unfold bind at 1 in H.
  assert (C2 : calls (snd (perform
            (withErrorHandling (js "screenshot") (call env Screenshot)) st1))
          = calls st ++ [Screenshot]).
  { unfold perform, withErrorHandling, call. rewrite C1.
    destruct (native env (calls st) Screenshot); reflexivity. }
  destruct (perform _ st1) as [[shot|e] st2]; simpl in C2.
  - match type of H with ?m st2 = _ =>
      assert (Hm : adds m)
    end.
    { adds_tac. apply adds_execute. }
    destruct (Hm st2) as (new & E & F). rewrite H in E. simpl in E.
    exists new. split; [|exact F].
    rewrite E, C2, <- app_assoc. reflexivity.
  - injection H as <- <-. exists []. split; [exact C2|constructor].
Qed.

Lemma mainLoop_calls (env : Env) (maxSteps : Z) (fuel : nat) :
  forall st r st',
    mainLoop env fuel maxSteps st = Some (r, st') ->
    exists new,
      calls st' = calls st ++ new /\
      Forall tapInBounds new /\
      (length (filter isScreenshot new) + iterations st = iterations st')%nat.
Proof.
  induction fuel as [|fuel IH]; intros st r st' H; simpl in H;
    destruct (currentStep st <? maxSteps)%Z; try discriminate.
  - injection H as <- <-. exists []. rewrite app_nil_r.
    repeat split; constructor.
  - destruct (loopBody env st) as [rb st1] eqn:Hb.
    destruct (loopBody_calls env st Hb) as (n1 & E1 & F1).
    destruct (loopBody_core env st Hb) as (_ & _ & I1 & _).
    destruct (actionCall_split F1) as (S1 & T1).
    assert (Hone : exists new,
               calls st1 = calls st ++ new /\ Forall tapInBounds new /\
               (length (filter isScreenshot new) + iterations st
                = iterations st1)%nat).
    { exists (Screenshot :: n1). split; [exact E1|].
      split; [constructor; [exact I|exact T1]|].
      simpl. rewrite S1, I1. reflexivity. }
    destruct rb as [[|]|e].
    + destruct (IH _ _ _ H) as (n2 & E2 & T2 & L2).
      destruct Hone as (n & E & T & L).
      exists (n ++ n2). rewrite E2, E, app_assoc. split; [reflexivity|].
      split; [apply Forall_app; split; assumption|].
      rewrite filter_app, length_app. lia.
    + injection H as <- <-. exact Hone.
    + injection H as <- <-. exact Hone.
  - injection H as <- <-. exists []. rewrite app_nil_r.
    repeat split; constructor.
Qed.

Lemma runTask_calls (env : Env) (fuel : nat) (maxSteps : Z) (st : Run) :
  runTask env fuel maxSteps = Some st ->
  (exists rest, calls st = LoadURL (js "https://www.google.com") :: rest) /\
  Forall tapInBounds (calls st) /\
  length (filter isScreenshot (calls st)) = iterations st.
Proof.
  unfold runTask.
  set (start := bind _ _).
  assert (Hs : stable start) by (unfold start; auto with stable).
  assert (Hc : calls (snd (start initialRun))
               = [LoadURL (js "https://www.google.com")]).
  { unfold start, bind, perform, withErrorHandling, newTab, call.
    cbn [initialRun calls].
    destruct (native env [] _); reflexivity. }
  specialize (Hs initialRun). unfold core in Hs.
  cbn [initialRun result success error answer currentStep iterations] in Hs.
  destruct (start initialRun) as [[u|e] st0]; simpl in Hs, Hc;
    injection Hs as _ _ _ _ I0.
  - destruct (mainLoop env fuel maxSteps st0) as [[r st1]|] eqn:Hl;
      [|discriminate].
    destruct (mainLoop_calls _ _ _ _ Hl) as (n1 & E1 & T1 & L1).
    rewrite Hc in E1. rewrite I0 in L1.
    assert (Hst1 : (exists rest, calls st1 = LoadURL (js "https://www.google.com") :: rest) /\
                   Forall tapInBounds (calls st1) /\
                   length (filter isScreenshot (calls st1)) = iterations st1).
    { rewrite E1. split; [exists n1; reflexivity|].
      split; [constructor; [exact I|exact T1]|].
      simpl. lia. }
    destruct r as [[|]|e].
    + pose proof (afterLoop_spec env maxSteps st1) as Ha. cbv zeta in Ha.
      destruct (adds_afterLoop env maxSteps st1) as (n2 & E2 & F2).
      destruct (actionCall_split F2) as (S2 & T2).
      destruct Hst1 as ((rest & R1) & T & L).
      assert (Hst2 : (exists rest, calls (snd (afterLoop env maxSteps st1))
                                   = LoadURL (js "https://www.google.com") :: rest) /\
                     Forall tapInBounds (calls (snd (afterLoop env maxSteps st1))) /\
                     length (filter isScreenshot (calls (snd (afterLoop env maxSteps st1))))
                     = iterations (snd (afterLoop env maxSteps st1))).
      { destruct Ha as (_ & _ & A3 & _). rewrite E2, A3.
        split; [exists (rest ++ n2); rewrite R1; reflexivity|].
        split; [apply Forall_app; split; assumption|].
        rewrite filter_app, S2, app_nil_r. exact L. }
      destruct (afterLoop env maxSteps st1) as [[u'|e] st2]; simpl in Hst2;
        intro H; injection H as <-; exact Hst2.
    + intro H; injection H as <-. exact Hst1.
    + intro H; injection H as <-. exact Hst1.
  - intro H; injection H as <-. simpl. rewrite Hc, I0.
    split; [exists []; reflexivity|].
    split; [constructor; [exact I|constructor]|reflexivity].
Qed.

(** X3.  Every tap that a run dispatches is a tap of 100 ms at a point of the
    viewport against which the coordinates are validated ([0 <= x <= 375],
    [0 <= y <= 812]), whatever the model answers and whatever the live
    viewport is. *)
Theorem runTask_taps_in_bounds (env : Env) (fuel : nat) (maxSteps : Z)
    (st : Run) :
  runTask env fuel maxSteps = Some st ->
  Forall (fun c =>
            match c with
            | DispatchTap x y duration =>
                (0 <= x <= 375)%Z /\ (0 <= y <= 812)%Z /\ duration = 100%Z
            | _ => True
            end)
         (calls st).
Proof.
  intros H. destruct (runTask_calls _ _ _ H) as (_ & T & _). exact T.
Qed.

Lemma runTask_taps_in_bounds_witness :
  Forall (fun c =>
            match c with
            | DispatchTap x y duration =>
                (0 <= x <= 375)%Z /\ (0 <= y <= 812)%Z /\ duration = 100%Z
            | _ => True
            end)
         (calls (runOf (runTask secondShotFails 1 1))).
Proof.
  apply (@runTask_taps_in_bounds secondShotFails 1 1
           (runOf (runTask secondShotFails 1 1))).
  vm_compute. reflexivity.
Defined.

(** ** The counters of a run *)

Lemma keeps_bind (A B : Type) (m : Task A) (k : A -> Task B) :
  keeps m -> (forall a, keeps (k a)) -> keeps (bind m k).
Proof.
  intros Hm Hk st. unfold bind. specialize (Hm st).
  destruct (m st) as [[a|e] st1]; simpl in *.
  - rewrite <- Hm. apply Hk.
  - exact Hm.
Qed.

Lemma keeps_perform (A : Type) (op : Op A) : keeps (perform op).
Proof.
  intro st. unfold perform. destruct (op (calls st)) as [r tr]. reflexivity.
Qed.

Lemma keeps_extract (env : Env) : keeps (extractContactsFromCurrentPage env).
Proof.
  intro st. unfold extractContactsFromCurrentPage.
  pose proof (keeps_perform
    (withErrorHandling (js "dom_extraction") (call env EvaluateJavaScript)) st) as H.
  destruct (perform _ st) as [[a|e] st1]; simpl in *.
  - destruct (pageContacts env (calls st)); exact H.
  - exact H.
Qed.

Ltac keeps_tac :=
  repeat match goal with
  | |- keeps (bind _ _) => apply keeps_bind; [|intro]
  | |- keeps (perform _) => apply keeps_perform
  | |- keeps (extractContactsFromCurrentPage _) => apply keeps_extract
  | |- keeps (extractFinalContacts _) => apply keeps_extract
  | |- keeps (match ?x with _ => _ end) => destruct x
  | |- keeps _ => solve [intro; reflexivity]
  end.

Lemma keeps_execute (env : Env) (action : Action) : keeps (execute env action).
Proof.
  unfold execute, doClick, doType, doScroll, doDone.
  destruct (a_type action); keeps_tac.
Qed.

Lemma keeps_afterLoop (env : Env) (maxSteps : Z) : keeps (afterLoop env maxSteps).
Proof. unfold afterLoop. keeps_tac. Qed.

Lemma keeps_onError (e : jsstring) : keeps (onError e).
Proof. unfold onError. keeps_tac. Qed.

Lemma loopBody_inStep (env : Env) (st : Run) (r : Res BodyExit) (st' : Run) :
  loopBody env st = (r, st') -> inStep st -> inStep st'.
Proof.
  intros H Hin. unfold loopBody in H. unfold bind at 1 in H. cbn [nextStep] in H.
  match type of H with ?m ?s = _ =>
    assert (Hm : keeps m); [keeps_tac; apply keeps_execute|];
    specialize (Hm s); rewrite H in Hm; simpl in Hm
  end.
  unfold inStep in *. unfold counters in *.
  cbn [result steps currentStep iterations] in Hm.
  injection Hin as H1 H2. injection Hm as M1 M2 M3.
  rewrite M1, M2, M3, H2. rewrite Nat2Z.inj_succ.
  replace (Z.of_nat (iterations st) + 1)%Z with (Z.succ (Z.of_nat (iterations st)))
    by lia.
  reflexivity.
Qed.

Lemma mainLoop_inStep (env : Env) (maxSteps : Z) (fuel : nat) :
  forall st r st',
    mainLoop env fuel maxSteps st = Some (r, st') -> inStep st -> inStep st'.
Proof.
  induction fuel as [|fuel IH]; intros st r st' H Hin; simpl in H;
    destruct (currentStep st <? maxSteps)%Z; try discriminate.
  - injection H as <- <-. exact Hin.
  - destruct (loopBody env st) as [rb st1] eqn:Hb.
    pose proof (@loopBody_inStep _ _ _ _ Hb Hin) as H1.
    destruct rb as [[|]|e].
    + exact (IH _ _ _ H H1).
    + injection H as <- <-. exact H1.
    + injection H as <- <-. exact H1.
  - injection H as <- <-. exact Hin.
Qed.

Lemma inStep_keeps (s s' : Run) :
  counters s' = counters s -> inStep s -> inStep s'.
Proof.
  unfold inStep. intros E H. rewrite E.
  assert (I : iterations s' = iterations s) by (unfold counters in E; congruence).
  rewrite I. exact H.
Qed.

Lemma runTask_inStep (env : Env) (fuel : nat) (maxSteps : Z) (st : Run) :
  runTask env fuel maxSteps = Some st -> inStep st.
Proof.
  unfold runTask.
  set (start := bind _ _).
  assert (Hs : keeps start) by (unfold start; keeps_tac).
  assert (H0 : inStep (snd (start initialRun))).
  { apply (inStep_keeps (Hs initialRun)). reflexivity. }
  assert (Herr : forall e s, inStep s -> inStep (snd (onError e s))).
  { intros e s. apply inStep_keeps, keeps_onError. }
  destruct (start initialRun) as [[u|e] st0]; simpl in H0.
  - destruct (mainLoop env fuel maxSteps st0) as [[r st1]|] eqn:Hl;
      [|discriminate].
    pose proof (@mainLoop_inStep _ _ _ _ _ _ Hl H0) as H1.
    destruct r as [[|]|e].
    + assert (H2 : inStep (snd (afterLoop env maxSteps st1))).
      { exact (inStep_keeps (keeps_afterLoop env maxSteps st1) H1). }
      destruct (afterLoop env maxSteps st1) as [[u'|e] st2]; simpl in H2;
        intro H; injection H as <-; auto.
    + intro H; injection H as <-. exact H1.
    + intro H; injection H as <-. auto.
  - intro H; injection H as <-. auto.
Qed.

(** X4.  A run calls [browser.screenshot] exactly once for each step it
    reports, whether the call answers or throws (as written it throws, in
    the first step), and the steps reported are the executions of the loop
    body; the first call of every run loads https://www.google.com. *)
Theorem runTask_screenshot_per_step (env : Env) (fuel : nat) (maxSteps : Z)
    (st : Run) :
  runTask env fuel maxSteps = Some st ->
  Z.of_nat (length (filter isScreenshot (calls st))) = steps (result st) /\
  steps (result st) = Z.of_nat (iterations st) /\
  exists rest, calls st = LoadURL (js "https://www.google.com") :: rest.
Proof.
  intro H.
  destruct (runTask_calls _ _ _ H) as (R & _ & L).
  pose proof (runTask_inStep _ _ _ H) as Hin.
  unfold inStep, counters in Hin. injection Hin as H1 _.
  rewrite L, H1. auto.
Qed.

Lemma runTask_screenshot_per_step_witness :
  Z.of_nat (length (filter isScreenshot
                      (calls (runOf (runTask writtenBrowser 4 3)))))
  = steps (result (runOf (runTask writtenBrowser 4 3))) /\
  steps (result (runOf (runTask writtenBrowser 4 3)))
  = Z.of_nat (iterations (runOf (runTask writtenBrowser 4 3))) /\
  exists rest,
    calls (runOf (runTask writtenBrowser 4 3))
    = LoadURL (js "https://www.google.com") :: rest.
Proof.
  apply (@runTask_screenshot_per_step writtenBrowser 4 3
           (runOf (runTask writtenBrowser 4 3))).
  vm_compute. reflexivity.
Defined.

(** ** How a run succeeds *)








(** ** Runs without a step *)

(** X6.  With a step limit of zero or less, [runTask] does not enter its
    loop, whatever the fuel: no screenshot is asked for, and the result
    reports no step, no contact and no success.  When the start page does
    not load, that call is the only one and the run fails.  Otherwise the
    run calls [browser.getCurrentURL], and nothing else.  When that call
    throws - as written, it always does - the run fails with the message
    of the error, and reports no URL; when it answers, the result holds the
    URL and no error. *)
Theorem runTask_no_step (env : Env) (fuel : nat) (maxSteps : Z) :
  (maxSteps <= 0)%Z ->
  exists st,
    runTask env fuel maxSteps = Some st /\
    steps (result st) = 0%Z /\ iterations st = 0%nat /\
    success (result st) = false /\ contacts (result st) = [] /\
    match native env [] (LoadURL (js "https://www.google.com")) with
    | Err _ =>
        calls st = [LoadURL (js "https://www.google.com")] /\ Failed st
    | Ok _ =>
        calls st = [LoadURL (js "https://www.google.com"); GetCurrentURL] /\
        match native env [LoadURL (js "https://www.google.com")] GetCurrentURL
        with
        | Err m =>
            error (result st) = Some m /\
            answer (result st) = Some (js "Error occurred: " ++ m) /\
            finalURL (result st) = None
        | Ok url => error (result st) = None /\ finalURL (result st) = Some url
        end
    end.
Proof.
  intro Hmax. unfold runTask.
  unfold bind at 1.
  unfold perform, withErrorHandling, newTab, call. cbn [initialRun calls].
  destruct (native env [] (LoadURL (js "https://www.google.com"))) as [a|m].
  - cbn [pushAction modifyResult result currentStep extractedContacts calls
         iterations app].
    rewrite mainLoop_at_limit by (simpl; lia).
    unfold afterLoop, bind, perform, call, setAnswer, setFinalURL, setContacts,
      getExtracted, modifyResult.
    cbn [result currentStep extractedContacts calls iterations].
    destruct (native env _ GetCurrentURL) as [url|m]; eexists;
      (split; [reflexivity|]); simpl; auto 10.
  - eexists. split; [reflexivity|]. simpl.
    repeat split; try reflexivity. eexists. split; reflexivity.
Qed.

Lemma runTask_no_step_witness :
  exists st,
    runTask writtenBrowser 0 0 = Some st /\
    steps (result st) = 0%Z /\ iterations st = 0%nat /\
    success (result st) = false /\ contacts (result st) = [] /\
    calls st = [LoadURL (js "https://www.google.com"); GetCurrentURL] /\
    error (result st) = Some (js "browser.getCurrentURL is not a function") /\
    answer (result st)
    = Some (js "Error occurred: browser.getCurrentURL is not a function") /\
    finalURL (result st) = None.
Proof.
  apply (runTask_no_step writtenBrowser 0 (maxSteps := 0)). lia.
Defined.

(** X7.  When the start page cannot be loaded, the run ends at once, whatever
    the step limit: one native call, no step, and the error is the
    adapter's message wrapped by [withErrorHandling]. *)
Theorem runTask_navigation_failure (env : Env) (fuel : nat) (maxSteps : Z)
    (m : jsstring) :
  native env [] (LoadURL (js "https://www.google.com")) = Err m ->
  exists st,
    runTask env fuel maxSteps = Some st /\
    calls st = [LoadURL (js "https://www.google.com")] /\
    steps (result st) = 0%Z /\ actions (result st) = [] /\
    success (result st) = false /\
    error (result st)
    = Some (js "Browser operation failed (navigation): Error: Failed to navigate to https://www.google.com: Error: "
            ++ m) /\
    answer (result st)
    = Some (js "Error occurred: Browser operation failed (navigation): Error: Failed to navigate to https://www.google.com: Error: "
            ++ m).
Proof.
  intro H. unfold runTask.
  unfold bind at 1.
  unfold perform, withErrorHandling, newTab, call. cbn [initialRun calls].
  rewrite H. eexists. split; [reflexivity|].
  simpl. repeat split; reflexivity.
Qed.

Lemma runTask_navigation_failure_witness :
  exists st,
    runTask offline 25 25 = Some st /\
    calls st = [LoadURL (js "https://www.google.com")] /\
    steps (result st) = 0%Z /\ actions (result st) = [] /\
    success (result st) = false /\
    error (result st)
    = Some (js "Browser operation failed (navigation): Error: Failed to navigate to https://www.google.com: Error: "
            ++ js "net::ERR_INTERNET_DISCONNECTED") /\
    answer (result st)
    = Some (js "Error occurred: Browser operation failed (navigation): Error: Failed to navigate to https://www.google.com: Error: "
            ++ js "net::ERR_INTERNET_DISCONNECTED").
Proof.
  apply (runTask_navigation_failure offline 25 25). reflexivity.
Defined.

Lemma runTask_progress_witness :
  (error (result (runOf (runTask secondShotFails 5 5))) = None ->
   reportsProgress (runOf (runTask secondShotFails 5 5))) /\
  (error (result (runOf (runTask secondShotFails 5 5))) <> None ->
   contacts (result (runOf (runTask secondShotFails 5 5))) = [] /\
   finalURL (result (runOf (runTask secondShotFails 5 5))) = None).
Proof.
  apply (@runTask_progress secondShotFails 5 5
           (runOf (runTask secondShotFails 5 5))).
  vm_compute. reflexivity.
Defined.

(** ** The decoder and its caller *)

Lemma parseAction_wellFormed (text : jsstring) :
  exists a, parseAction text = Ok a /\ wellFormed a.
Proof.
  unfold parseAction.
  destruct (startsWith (toUpperCase (trim text)) (js "DONE")).
  - destruct (exec reDone text) as [m|] eqn:Em.
    + destruct (@exec_captures _ _ _ _ reDone_captures Em) as (_ & g & ->).
      eexists. split; [reflexivity|]. exists (trim g); reflexivity.
    + eexists. split; [reflexivity|]. eexists; reflexivity.
  - destruct (exec reClick text) as [m|] eqn:Ec.
    + destruct (@exec_captures _ _ _ _ reClick_captures Ec)
        as (_ & g1 & g2 & -> & H1 & H2).
      destruct (roundNumber_numberLike H1) as (x & E1 & P1).
      destruct (roundNumber_numberLike H2) as (y & E2 & P2).
      unfold floatOf. cbn [nth_error Nat.sub]. rewrite E1, E2.
      eexists. split; [reflexivity|].
      exists x, y. auto.
    + destruct (exec reType text) as [m|] eqn:Et.
      * destruct (@exec_captures _ _ _ _ reType_captures Et) as (_ & g & ->).
        eexists. split; [reflexivity|]. eexists; eexists; reflexivity.
      * rewrite parseAction_scroll_cases.
        eexists. split; [reflexivity|]. eexists; reflexivity.
Qed.

Lemma dropWhile_head (p : N -> bool) (s : jsstring) (c : N) (r : jsstring) :
  dropWhile p s = c :: r -> p c = false.
Proof.
  induction s as [|d s IH]; simpl; [discriminate|].
  destruct (p d) eqn:E; [exact IH|].
  intro H. injection H as <- _. exact E.
Qed.

Lemma dropWhile_idem (p : N -> bool) (s : jsstring) :
  dropWhile p (dropWhile p s) = dropWhile p s.
Proof.
  induction s as [|d s IH]; simpl; [reflexivity|].
  destruct (p d) eqn:E; [exact IH|]. simpl. rewrite E. reflexivity.
Qed.

Lemma trim_idempotent (s : jsstring) : trim (trim s) = trim s.
Proof.
  unfold trim.
  assert (A : trimStart (trimEnd (trimStart s)) = trimEnd (trimStart s)).
  { destruct (trimEnd_prefix (trimStart s)) as (w & E).
    destruct (trimEnd (trimStart s)) as [|c u]; [reflexivity|].
    unfold trimStart in E. simpl in E. apply dropWhile_head in E.
    unfold trimStart. simpl. rewrite E. reflexivity. }
  rewrite A. unfold trimEnd. rewrite rev_involutive, dropWhile_idem.
  reflexivity.
Qed.

(** X8.  [nextAction] returns a well-formed action (the coordinates of a
    click are integers from 0 on, or Infinity) for whatever the model
    endpoint does.  When the request fails, or the answer has no text or
    only white space, the action is to scroll down; otherwise it is the
    action that [parseAction] decodes from the trimmed text, which never
    fails; white space around the text changes nothing. *)
Theorem nextAction_total (reply : Res (option jsstring)) :
  wellFormed (nextAction reply) /\
  match reply with
  | Ok (Some raw) =>
      (trim raw = [] -> nextAction reply = mkScroll down) /\
      (trim raw <> [] -> parseAction (trim raw) = Ok (nextAction reply)) /\
      nextAction (Ok (Some (trim raw))) = nextAction reply
  | _ => nextAction reply = mkScroll down
  end.
Proof.
  assert (Hf : wellFormed fallbackAction) by (exists down; reflexivity).
  destruct reply as [[raw|]|m]; [|split; [exact Hf|reflexivity]..].
  unfold nextAction. rewrite trim_idempotent.
  destruct (trim raw) as [|c t] eqn:E.
  - split; [exact Hf|]. split; [reflexivity|]. split; [congruence|reflexivity].
  - destruct (parseAction_wellFormed (c :: t)) as (a & Ea & Wa).
    rewrite Ea. split; [exact Wa|].
    split; [discriminate|]. split; reflexivity.
Qed.

Lemma digit_not_space (c : N) : isDigit c = true -> isSpace c = false.
Proof.
  unfold isDigit. intro H. apply andb_true_iff in H. destruct H as [H1 H2].
  apply N.leb_le in H1, H2.
  assert (C : (c = 48 \/ c = 49 \/ c = 50 \/ c = 51 \/ c = 52 \/ c = 53
               \/ c = 54 \/ c = 55 \/ c = 56 \/ c = 57)%N) by lia.
  repeat (destruct C as [->|C]; [reflexivity|]). subst c. reflexivity.
Qed.

(** A greedy star takes all of a run that the rest of the expression
    accepts. *)
Lemma star_greedy (p : N -> bool) (k : cont) (u s : jsstring) (cs r : caps) :
  forallb p u = true ->
  match s with [] => True | c :: _ => p c = false end ->
  k s cs = Some r ->
  star p k (u ++ s) cs = Some r.
Proof.
  intros Hu Hs Hk. induction u as [|c u IH].
  - destruct s as [|c s]; simpl; [exact Hk|]. rewrite Hs. exact Hk.
  - simpl in Hu. apply andb_true_iff in Hu. destruct Hu as [Hc Hu].
    specialize (IH Hu). simpl in *. rewrite Hc, IH. reflexivity.
Qed.

Lemma firstn_app_length (u s : jsstring) :
  firstn (length (u ++ s) - length s) (u ++ s) = u.
Proof.
  rewrite length_app.
  replace (length u + length s - length s)%nat with (length u) by lia.
  rewrite firstn_app, firstn_all, Nat.sub_diag, firstn_O, app_nil_r.
  reflexivity.
Qed.

Lemma reNumber_digits (k : cont) (ds s : jsstring) (cs r : caps) :
  ds <> [] -> forallb isDigit ds = true ->
  match s with [] => True | c :: _ => isDigit c = false /\ c <> 46%N end ->
  k s (cs ++ [ds]) = Some r ->
  group reNumber k (ds ++ s) cs = Some r.
Proof.
  intros Hne Hds Hs Hk.
  destruct ds as [|d ds]; [congruence|].
  simpl in Hds. apply andb_true_iff in Hds. destruct Hds as [Hd Hds].
  unfold group, reNumber, plus, seq, cls. cbn [app]. rewrite Hd.
  apply star_greedy; [exact Hds|destruct s; [exact I|apply Hs]|].
  unfold opt, unit_, cls.
  change (d :: ds ++ s) with ((d :: ds) ++ s).
  destruct s as [|c s].
  - rewrite firstn_app_length. exact Hk.
  - destruct Hs as [_ Hc]. apply N.eqb_neq in Hc. rewrite Hc.
    rewrite firstn_app_length. exact Hk.
Qed.

Lemma plus_space_single (k : cont) (s : jsstring) (cs : caps) :
  match s with [] => True | c :: _ => isSpace c = false end ->
  plus isSpace k (32%N :: s) cs = k s cs.
Proof.
  intro H. unfold plus, seq, cls. change (isSpace 32) with true. cbv iota.
  destruct s as [|c s]; simpl; [reflexivity|]. rewrite H. reflexivity.
Qed.

Lemma parseFloat_digits (ds : jsstring) :
  ds <> [] -> forallb isDigit ds = true ->
  parseFloat ds = toDouble (inject_Z (digitsValue ds) + inject_Z 0 / inject_Z 1).
Proof.
  intros Hne Hds. unfold parseFloat.
  assert (T : takeWhile isDigit ds = ds).
  { clear Hne. induction ds as [|d ds IH]; [reflexivity|].
    simpl in *. apply andb_true_iff in Hds. destruct Hds as [Hd Hds].
    rewrite Hd, IH; auto. }
  assert (D : dropWhile isDigit ds = []).
  { clear Hne T. induction ds as [|d ds IH]; [reflexivity|].
    simpl in *. apply andb_true_iff in Hds. destruct Hds as [Hd Hds].
    rewrite Hd. auto. }
  rewrite T, D. destruct ds; [congruence|]. reflexivity.
Qed.

Lemma roundNumber_integer (n : Z) :
  (0 <= n < 2 ^ 53)%Z ->
  roundNumber (toDouble (inject_Z n + inject_Z 0 / inject_Z 1))
  = Some (Integer n).
Proof.
  intro Hn.
  assert (E : inject_Z n + inject_Z 0 / inject_Z 1 == inject_Z n) by field.
  destruct (toDouble_integer E Hn) as (v & -> & Hv).
  cbn [roundNumber]. rewrite (Math_round_Z Hv). reflexivity.
Qed.

(** X9.  The answer [CLICK a b], with [a] and [b] written in decimal digits
    and below [2^53], is decoded as a click at exactly these coordinates. *)
Theorem parseAction_click_integers (a b : jsstring) :
  a <> [] -> b <> [] ->
  forallb isDigit a = true -> forallb isDigit b = true ->
  (digitsValue a < 2 ^ 53)%Z -> (digitsValue b < 2 ^ 53)%Z ->
  parseAction (js "CLICK " ++ a ++ 32%N :: b)
  = Ok (mkClick (Some (digitsValue a)) (Some (digitsValue b))).
Proof.
  intros Ha Hb Da Db La Lb.
  assert (Hdone : startsWith
                    (toUpperCase (trim (js "CLICK " ++ a ++ 32%N :: b)))
                    (js "DONE") = false).
  { unfold trim.
    change (trimStart (js "CLICK " ++ a ++ 32%N :: b))
      with (js "CLICK " ++ a ++ 32%N :: b).
    destruct (trimEnd_prefix (js "CLICK " ++ a ++ 32%N :: b)) as (w & E).
    destruct (trimEnd (js "CLICK " ++ a ++ 32%N :: b)) as [|c u];
      [reflexivity|].
    injection E as <- _. reflexivity. }
  assert (Hclick : exec reClick (js "CLICK " ++ a ++ 32%N :: b) = Some [a; b]).
  { change (js "CLICK " ++ a ++ 32%N :: b)
      with (67 :: 76 :: 73 :: 67 :: 75 :: 32 :: a ++ 32 :: b)%N.
    cbn [exec].
    assert (E : reClick accept (67 :: 76 :: 73 :: 67 :: 75 :: 32 :: a ++ 32 :: b)%N []
                = Some [a; b]).
    { unfold reClick.
      change (seq (lit_i (js "CLICK")) ?r accept
                (67 :: 76 :: 73 :: 67 :: 75 :: 32 :: a ++ 32 :: b)%N [])
        with (r accept (32 :: a ++ 32 :: b)%N []).
      unfold seq at 1.
      rewrite plus_space_single.
      2:{ destruct a as [|d a]; [congruence|]. simpl in Da.
          apply andb_true_iff in Da. apply digit_not_space, Da. }
      unfold seq at 1.
      apply reNumber_digits; [exact Ha|exact Da|split; [reflexivity|discriminate]|].
      unfold seq at 1.
      rewrite plus_space_single.
      2:{ destruct b as [|d b]; [congruence|]. simpl in Db.
          apply andb_true_iff in Db. apply digit_not_space, Db. }
      rewrite <- (app_nil_r b) at 1.
      apply reNumber_digits; [exact Hb|exact Db|exact I|]. reflexivity. }
    rewrite E. reflexivity. }
  unfold parseAction. rewrite Hdone, Hclick.
  unfold floatOf. cbn [nth_error Nat.sub].
  rewrite (parseFloat_digits Ha Da), (parseFloat_digits Hb Db).
  pose proof (digitsValue_nonneg a). pose proof (digitsValue_nonneg b).
  rewrite !roundNumber_integer by lia. reflexivity.
Qed.

Lemma parseAction_click_integers_witness :
  parseAction (js "CLICK " ++ js "320" ++ 32%N :: js "410")
  = Ok (mkClick (Some (digitsValue (js "320"))) (Some (digitsValue (js "410")))).
Proof.
  apply (@parseAction_click_integers (js "320") (js "410")).
  - discriminate.
  - discriminate.
  - reflexivity.
  - reflexivity.
  - reflexivity.
  - reflexivity.
Defined.

Lemma exec_captures_at (r : re) (P : jsstring -> caps -> Prop) (s : jsstring)
    (out : caps) :
  captures r P -> exec r s = Some out ->
  exists pre u post, s = pre ++ u ++ post /\ P u out.
Proof.
  intros H. induction s as [|c s IH]; simpl; intro E.
  - destruct (r accept [] []) eqn:Er; [|discriminate].
    injection E as <-.
    destruct (H _ _ _ _ Er) as (u & s' & c' & Es & Hp & Hk).
    injection Hk as <-. exists [], u, s'. split; [exact Es|exact Hp].
  - destruct (r accept (c :: s) []) eqn:Er.
    + injection E as <-.
      destruct (H _ _ _ _ Er) as (u & s' & c' & Es & Hp & Hk).
      injection Hk as <-. exists [], u, s'. split; [exact Es|exact Hp].
    + destruct (IH E) as (pre & u & post & Es & Hp).
      exists (c :: pre), u, post. split; [simpl; congruence|exact Hp].
Qed.

Lemma reType_group :
  captures reType (fun u c => exists g x y, c = [g] /\ u = x ++ g ++ y).
Proof.
  eapply captures_weaken.
  - apply captures_seq; [apply captures_none, consumes_lit_i|].
    apply captures_seq; [apply captures_none, consumes_plus|].
    apply captures_seq; [apply captures_group, consumes_plus_lazy|].
    apply captures_none. apply consumes_seq.
    + apply consumes_opt. apply consumes_seq.
      * apply consumes_plus.
      * apply consumes_lit_i.
    + apply consumes_eoi.
  - intros u c (u1 & u2 & c1 & c2 & -> & -> & (_ & ->) & H).
    destruct H as (u3 & u4 & c3 & c4 & -> & -> & (_ & ->) & H).
    destruct H as (u5 & u6 & c5 & c6 & -> & -> & (_ & ->) & (_ & ->)).
    exists u5, (u1 ++ u3), u6. split; [reflexivity|].
    rewrite <- !app_assoc. reflexivity.
Qed.

Lemma startsWith_app (p s y : jsstring) :
  startsWith s p = true -> startsWith (s ++ y) p = true.
Proof.
  revert s. induction p as [|a p IH]; intros s H; [reflexivity|].
  destruct s as [|c s]; [discriminate|].
  simpl in *. apply andb_true_iff in H. destruct H as [H1 H2].
  rewrite H1, (IH _ H2). reflexivity.
Qed.

Lemma startsWith_includes (s p : jsstring) :
  startsWith s p = true -> includes s p = true.
Proof.
  intro H. destruct s; simpl; rewrite H; reflexivity.
Qed.

Lemma includes_app_l (s p y : jsstring) :
  includes s p = true -> includes (s ++ y) p = true.
Proof.
  induction s as [|c s IH]; intro H.
  - simpl in H. rewrite orb_false_r in H.
    destruct p; [|discriminate]. destruct y; reflexivity.
  - cbn [includes] in H. apply orb_true_iff in H.
    change ((c :: s) ++ y) with (c :: (s ++ y)). cbn [includes].
    apply orb_true_iff. destruct H as [H|H].
    + left. apply (startsWith_app _ _ _ H).
    + right. exact (IH H).
Qed.

Lemma includes_app_r (x s p : jsstring) :
  includes s p = true -> includes (x ++ s) p = true.
Proof.
  intro H. induction x as [|c x IH]; [exact H|].
  change ((c :: x) ++ s) with (c :: (x ++ s)). cbn [includes].
  rewrite IH. apply orb_true_r.
Qed.

Lemma trim_inside (g : jsstring) : exists w1 w2, g = w1 ++ trim g ++ w2.
Proof.
  unfold trim.
  destruct (dropWhile_suffix isSpace g) as (w1 & E1).
  destruct (trimEnd_prefix (trimStart g)) as (w2 & E2).
  exists w1, w2. unfold trimStart in *. rewrite <- E2. exact E1.
Qed.

(** X10.  When the decoder returns a typing action, Enter is asked for exactly
    when the answer contains [submit] somewhere, in any case; so a text to
    type that itself contains the word is always followed by Enter. *)
Theorem parseAction_type_enter (text : jsstring) (a : Action) :
  parseAction text = Ok a ->
  a_type a = type ->
  exists t,
    a_text a = Some t /\
    a_submit a = Some (includes (toLowerCase text) (js "submit")) /\
    (includes (toLowerCase t) (js "submit") = true -> a_submit a = Some true).
Proof.
  unfold parseAction. intros H Ht.
  destruct (startsWith _ _).
  - destruct (exec reDone text); [destruct (groupOf _ _)|]; try discriminate;
      injection H as <-; discriminate.
  - destruct (exec reClick text); [injection H as <-; discriminate|].
    destruct (exec reType text) as [m|] eqn:Et.
    + destruct (@exec_captures_at _ _ _ _ reType_group Et)
        as (pre & u & post & E & g & x & y & -> & Eu).
      unfold groupOf in H. cbn [nth_error Nat.sub] in H.
      injection H as <-. exists (trim g).
      split; [reflexivity|]. split; [reflexivity|].
      intro Hin. cbn [a_submit mkType]. f_equal.
      destruct (trim_inside g) as (w1 & w2 & Eg).
      rewrite E, Eu, Eg. unfold toLowerCase in *. rewrite !flat_map_app.
      apply includes_app_r, includes_app_l, includes_app_r, includes_app_l,
        includes_app_r, includes_app_l.
      exact Hin.
    + destruct (includes _ (js "SCROLL DOWN"));
        [|destruct (includes _ (js "SCROLL UP"))];
        injection H as <-; discriminate.
Qed.

Lemma parseAction_type_enter_witness :
  exists t,
    a_text (mkType (js "how to submit a form") true) = Some t /\
    a_submit (mkType (js "how to submit a form") true)
    = Some (includes (toLowerCase (js "TYPE how to submit a form")) (js "submit")) /\
    (includes (toLowerCase t) (js "submit") = true ->
     a_submit (mkType (js "how to submit a form") true) = Some true).
Proof.
  apply (@parseAction_type_enter (js "TYPE how to submit a form")).
  - vm_compute. reflexivity.
  - reflexivity.
Defined.

(** ** What the contact lists hold *)

Lemma firstOcc_split (suf : list Contact) :
  forall pre c,
    In c (firstOcc pre suf) ->
    exists s1 s2,
      suf = s1 ++ c :: s2 /\ ~ In (keyOf c) (map keyOf (pre ++ s1)).
Proof.
  induction suf as [|c0 suf IH]; intros pre c Hin; [destruct Hin|].
  assert (Hrest : In c (firstOcc (pre ++ [c0]) suf) ->
                  exists s1 s2,
                    c0 :: suf = s1 ++ c :: s2 /\
                    ~ In (keyOf c) (map keyOf (pre ++ s1))).
  { intro H. destruct (IH _ _ H) as (s1 & s2 & E & Hn).
    exists (c0 :: s1), s2. split; [simpl; congruence|].
    rewrite <- app_assoc in Hn. exact Hn. }
  simpl in Hin. destruct (existsb _ pre) eqn:E; [auto|].
  destruct Hin as [<-|Hin]; [|auto].
  exists [], suf. split; [reflexivity|].
  rewrite app_nil_r. intro H. apply existsb_sameValue in H. congruence.
Qed.

(** X11.  What [cleanupContacts] returns: at most ten contacts of the input,
    each with a confidence above 1/2, in descending order of confidence, no
    two with the same value up to case. *)
Theorem cleanupContacts_output (l : list Contact) :
  (length (cleanupContacts l) <= 10)%nat /\
  Forall (fun c => exists q, confidence c = Some q /\ 1 # 2 < q)
         (cleanupContacts l) /\
  StronglySorted descending (cleanupContacts l) /\
  NoDup (map keyOf (cleanupContacts l)) /\
  (forall c, In c (cleanupContacts l) -> In c l).
Proof.
  rewrite cleanupContacts_shape.
  set (f := fun c => match confOrZero c ?= 1 # 2 with Gt => true | _ => false end).
  assert (Hsub : subseq (firstn 10 (filter f (sort (firstOcc [] l))))
                        (sort (firstOcc [] l))).
  { eapply subseq_trans; [apply subseq_firstn|apply subseq_filter]. }
  split; [apply firstn_le_length|].
  split.
  { apply (subseq_Forall (subseq_firstn 10 _)).
    apply Forall_forall. intros c Hc. apply filter_In in Hc.
    destruct Hc as [_ Hc]. unfold f, confOrZero in Hc.
    destruct (confidence c) as [q|].
    - exists q. split; [reflexivity|].
      destruct (q ?= 1 # 2) eqn:E; try discriminate.
      apply Qgt_alt in E. exact E.
    - discriminate. }
  split; [exact (subseq_sorted Hsub (sort_sorted _))|].
  split.
  { apply (subseq_NoDup (subseq_map keyOf Hsub)).
    apply (Permutation_NoDup
             (Permutation_sym (Permutation_map keyOf (sort_perm (firstOcc [] l))))).
    apply firstOcc_keys. }
  intros c Hc.
  apply (@subseq_In _ _ _ _ Hsub) in Hc.
  apply (Permutation_in _ (sort_perm _)) in Hc.
  destruct (firstOcc_split _ _ _ Hc) as (s1 & s2 & -> & _).
  apply in_elt.
Qed.

(** X12.  [cleanupContacts] keeps a value only through its first occurrence in
    the input: a contact of the output has no contact of the same value,
    up to case, before it in the input.  A later duplicate, whatever its
    confidence, is never returned in its place. *)
Theorem cleanupContacts_first_occurrence (l : list Contact) (c : Contact) :
  In c (cleanupContacts l) ->
  exists before_ after_,
    l = before_ ++ c :: after_ /\
    Forall (fun c' => toLowerCase (value c') <> toLowerCase (value c)) before_.
Proof.
  rewrite cleanupContacts_shape. intro Hc.
  apply (@subseq_In _ _ _ _ (subseq_firstn 10 _)) in Hc.
  apply filter_In in Hc. destruct Hc as [Hc _].
  apply (Permutation_in _ (sort_perm _)) in Hc.
  destruct (firstOcc_split _ _ _ Hc) as (s1 & s2 & E & Hn).
  exists s1, s2. split; [exact E|].
  apply Forall_forall. intros c' Hc' Heq. apply Hn.
  simpl. apply in_map_iff. exists c'. split; [exact Heq|exact Hc'].
Qed.

Lemma cleanupContacts_first_occurrence_witness :
  exists before_ after_,
    [lowContact; infoContact] = before_ ++ infoContact :: after_ /\
    Forall (fun c' => toLowerCase (value c') <> toLowerCase (value infoContact))
           before_.
Proof.
  apply (@cleanupContacts_first_occurrence [lowContact; infoContact] infoContact).
  vm_compute. left. reflexivity.
Defined.

Lemma eqb_sym (s t : jsstring) : JS.eqb s t = JS.eqb t s.
Proof.
  destruct (JS.eqb s t) eqn:E1, (JS.eqb t s) eqn:E2; try reflexivity.
  - apply eqb_eq in E1. subst t.
    rewrite (proj2 (eqb_eq s s) eq_refl) in E2. discriminate.
  - apply eqb_eq in E2. subst t.
    rewrite (proj2 (eqb_eq s s) eq_refl) in E1. discriminate.
Qed.

Lemma confEqb_sym (a b : option Q) : confEqb a b = confEqb b a.
Proof.
  destruct a as [p|], b as [q|]; try reflexivity. simpl.
  destruct (Qeq_bool p q) eqn:E1, (Qeq_bool q p) eqn:E2; try reflexivity.
  - apply Qeq_bool_iff in E1. apply Qeq_sym, Qeq_bool_iff in E1. congruence.
  - apply Qeq_bool_iff in E2. apply Qeq_sym, Qeq_bool_iff in E2. congruence.
Qed.

Lemma sameJSON_sym (a b : Contact) : sameJSON a b = sameJSON b a.
Proof.
  unfold sameJSON.
  rewrite (eqb_sym (value a)), (eqb_sym (context a)),
    (confEqb_sym (confidence a)).
  destruct (kind a), (kind b), (source a), (source b); reflexivity.
Qed.

Lemma sameJSON_refl (a : Contact) : sameJSON a a = true.
Proof.
  unfold sameJSON.
  rewrite !(proj2 (eqb_eq _ _) eq_refl).
  assert (C : confEqb (confidence a) (confidence a) = true).
  { destruct (confidence a) as [q|]; [|reflexivity].
    apply Qeq_bool_iff. reflexivity. }
  rewrite C. destruct (kind a), (source a); reflexivity.
Qed.

Lemma uniqueJSON_from (l : list Contact) :
  forall seen,
    subseq (uniqueJSON seen l) l /\
    Forall (fun c => existsb (sameJSON c) seen = false) (uniqueJSON seen l) /\
    ForallOrdPairs (fun a b => sameJSON a b = false) (uniqueJSON seen l) /\
    (forall c, In c l ->
               existsb (sameJSON c) seen = true \/
               exists c', In c' (uniqueJSON seen l) /\ sameJSON c c' = true).
Proof.
  induction l as [|c0 l IH]; intro seen.
  - simpl. split; [constructor|]. split; [constructor|].
    split; [constructor|]. intros c [].
  - simpl. destruct (existsb (sameJSON c0) seen) eqn:E.
    + destruct (IH seen) as (H1 & H2 & H3 & H4).
      split; [apply subseq_skip, H1|]. split; [exact H2|]. split; [exact H3|].
      intros c [<-|Hc]; [left; exact E|apply H4, Hc].
    + destruct (IH (seen ++ [c0])) as (H1 & H2 & H3 & H4).
      assert (Hs : forall x, existsb (sameJSON x) (seen ++ [c0]) = false ->
                             existsb (sameJSON x) seen = false /\
                             sameJSON x c0 = false).
      { intros x Hx. rewrite existsb_app in Hx. apply orb_false_iff in Hx.
        destruct Hx as [Hx1 Hx2]. simpl in Hx2. rewrite orb_false_r in Hx2.
        auto. }
      split; [apply subseq_keep, H1|].
      split.
      { constructor; [exact E|].
        eapply Forall_impl; [|exact H2]. intros x Hx. apply (Hs x Hx). }
      split.
      { constructor; [|exact H3].
        eapply Forall_impl; [|exact H2]. intros x Hx.
        rewrite sameJSON_sym. apply (Hs x Hx). }
      intros c [<-|Hc].
      * right. exists c0. split; [left; reflexivity|apply sameJSON_refl].
      * destruct (H4 c Hc) as [Hx|(c' & Hin & Hx)].
        -- rewrite existsb_app in Hx. apply orb_true_iff in Hx.
           destruct Hx as [Hx|Hx]; [left; exact Hx|].
           simpl in Hx. rewrite orb_false_r in Hx.
           right. exists c0. split; [left; reflexivity|exact Hx].
        -- right. exists c'. split; [right; exact Hin|exact Hx].
Qed.

Lemma uniqueJSON_id (l : list Contact) :
  forall seen,
    Forall (fun c => existsb (sameJSON c) seen = false) l ->
    ForallOrdPairs (fun a b => sameJSON a b = false) l ->
    uniqueJSON seen l = l.
Proof.
  induction l as [|c l IH]; intros seen Hs Hp; [reflexivity|].
  inversion Hs as [|? ? Hc Hl]; subst.
  inversion Hp as [|? ? Hcl Hp']; subst.
  simpl. rewrite Hc. f_equal. apply IH; [|exact Hp'].
  rewrite Forall_forall in *. intros x Hx.
  rewrite existsb_app, (Hl x Hx). simpl.
  rewrite sameJSON_sym, (Hcl x Hx). reflexivity.
Qed.

(** X13.  The merge of the contacts gathered with the new ones (through a [Set]
    of their JSON texts) keeps the contacts in order, leaves no two with the
    same JSON text, and loses none: every contact of the input has its
    JSON text in the output.  Merging again changes nothing. *)
Theorem uniqueJSON_merge (l : list Contact) :
  subseq (uniqueJSON [] l) l /\
  ForallOrdPairs (fun a b => sameJSON a b = false) (uniqueJSON [] l) /\
  (forall c, In c l ->
             exists c', In c' (uniqueJSON [] l) /\ sameJSON c c' = true) /\
  uniqueJSON [] (uniqueJSON [] l) = uniqueJSON [] l.
Proof.
  destruct (uniqueJSON_from l []) as (H1 & H2 & H3 & H4).
  split; [exact H1|]. split; [exact H3|]. split.
  - intros c Hc. destruct (H4 c Hc) as [H|H]; [discriminate|exact H].
  - apply uniqueJSON_id; assumption.
Qed.

Lemma existsb_eqb_In (k : jsstring) (seen : list jsstring) :
  existsb (JS.eqb k) seen = true <-> In k seen.
Proof.
  rewrite existsb_exists. split.
  - intros (x & Hx & E). apply eqb_eq in E. subst x. exact Hx.
  - intro H. exists k. split; [exact H|]. apply eqb_eq. reflexivity.
Qed.

Lemma dedupFrom_spec (l : list ContactSearch.ContactResult) :
  forall seen,
    subseq (ContactSearch.dedupFrom seen l) l /\
    NoDup (map resultKey (ContactSearch.dedupFrom seen l)) /\
    (forall c, In c (ContactSearch.dedupFrom seen l) ->
               ~ In (resultKey c) seen /\
               exists s1 s2,
                 l = s1 ++ c :: s2 /\ ~ In (resultKey c) (map resultKey s1)) /\
    (forall c, In c l ->
               In (resultKey c) seen \/
               In (resultKey c) (map resultKey (ContactSearch.dedupFrom seen l))).
Proof.
  induction l as [|c0 l IH]; intro seen.
  - simpl. split; [constructor|]. split; [constructor|].
    split; intros c [].
  - simpl. fold (resultKey c0).
    destruct (existsb (JS.eqb (resultKey c0)) seen) eqn:E.
    + destruct (IH seen) as (H1 & H2 & H3 & H4).
      apply existsb_eqb_In in E.
      split; [apply subseq_skip, H1|]. split; [exact H2|]. split.
      * intros c Hc. destruct (H3 c Hc) as (Hn & s1 & s2 & -> & Hs).
        split; [exact Hn|]. exists (c0 :: s1), s2. split; [reflexivity|].
        simpl. intros [Hk|Hk]; [|auto]. apply Hn. rewrite <- Hk. exact E.
      * intros c [<-|Hc]; [left; exact E|apply H4, Hc].
    + destruct (IH (resultKey c0 :: seen)) as (H1 & H2 & H3 & H4).
      assert (En : ~ In (resultKey c0) seen).
      { intro H. apply existsb_eqb_In in H. congruence. }
      split; [apply subseq_keep, H1|]. split.
      { simpl. constructor; [|exact H2].
        intro H. apply in_map_iff in H. destruct H as (x & Ex & Hx).
        destruct (H3 x Hx) as (Hn & _). apply Hn. left. symmetry. exact Ex. }
      split.
      * intros c [<-|Hc].
        -- split; [exact En|]. exists [], l. split; [reflexivity|].
           intros [].
        -- destruct (H3 c Hc) as (Hn & s1 & s2 & -> & Hs).
           split; [intro H; apply Hn; right; exact H|].
           exists (c0 :: s1), s2. split; [reflexivity|].
           simpl. intros [Hk|Hk]; [|auto]. apply Hn. left. exact Hk.
      * intros c [<-|Hc]; [right; left; reflexivity|].
        destruct (H4 c Hc) as [[Hk|Hk]|Hk].
        -- right. left. exact Hk.
        -- left. exact Hk.
        -- right. right. exact Hk.
Qed.

(** X14.  [_deduplicateContacts] returns the contacts of its input whose value,
    up to case, did not occur before, in order: the values of the output
    are distinct, every value of the input is among them, and each is
    carried by its first occurrence. *)
Theorem deduplicateContacts_spec (l : list ContactSearch.ContactResult) :
  subseq (ContactSearch._deduplicateContacts l) l /\
  NoDup (map resultKey (ContactSearch._deduplicateContacts l)) /\
  (forall c, In c l ->
             In (resultKey c)
                (map resultKey (ContactSearch._deduplicateContacts l))) /\
  (forall c, In c (ContactSearch._deduplicateContacts l) ->
             exists s1 s2,
               l = s1 ++ c :: s2 /\ ~ In (resultKey c) (map resultKey s1)).
Proof.
  unfold ContactSearch._deduplicateContacts.
  destruct (dedupFrom_spec l []) as (H1 & H2 & H3 & H4).
  split; [exact H1|]. split; [exact H2|]. split.
  - intros c Hc. destruct (H4 c Hc) as [[]|H]. exact H.
  - intros c Hc. apply (H3 c Hc).
Qed.

(** ** The validation of contacts *)

Lemma validateEmail_cases (email_ : jsstring) (target : option jsstring) :
  exists dm cw : bool,
    ContactSearch._validateEmail email_ target
    = (ContactSearch.qmin
         (let c0 : Q :=
            if testAtStart ContactSearch.reEmail email_ then 4 # 5 else 3 # 10 in
          let c1 := if dm then c0 + (3 # 20) else c0 in
          if cw then c1 + (1 # 10) else c1) 1,
       dm, testAtStart ContactSearch.reEmail email_).
Proof. unfold ContactSearch._validateEmail. eexists. eexists. reflexivity. Qed.

Lemma validatePhone_cases (phone_ : jsstring) (location : option jsstring) :
  exists pm am : bool,
    ContactSearch._validatePhone phone_ location
    = (ContactSearch.qmin
         (let c0 : Q := if pm then 3 # 4 else 3 # 10 in
          if am then c0 + (3 # 20) else c0) 1,
       pm, am).
Proof. unfold ContactSearch._validatePhone. eexists. eexists. reflexivity. Qed.

Lemma validateAddress_cases (address_ : jsstring)
    (target location : option jsstring) :
  exists lm tm pat : bool,
    ContactSearch._validateAddress address_ target location
    = (ContactSearch.qmin
         (let c0 : Q := 3 # 5 in
          let c1 := if lm then c0 + (1 # 5) else c0 in
          let c2 := if tm then c1 + (3 # 20) else c1 in
          if pat then c2 + (1 # 10) else c2) 1,
       lm).
Proof.
  unfold ContactSearch._validateAddress. eexists. eexists. eexists.
  reflexivity.
Qed.

(** The confidence after validation, by cases on the validator that
    applies. *)
Ltac validate_cases target loc c :=
  unfold ContactSearch.validateOne;
  destruct (validateEmail_cases (ContactSearch.value c) (Some target))
    as (dm & cw & ->);
  destruct (validatePhone_cases (ContactSearch.value c) loc)
    as (pm & am & ->);
  destruct (validateAddress_cases (ContactSearch.value c) (Some target) loc)
    as (lm & tm & pat & ->).

Ltac split_ifs :=
  repeat match goal with
  | |- context [if ?b then _ else _] => destruct b
  end.

Ltac qdecide :=
  vm_compute;
  first [reflexivity | discriminate | (intro; discriminate)
        | (split; [intro; discriminate|intro; discriminate])].

Lemma validateOne_range (target : jsstring) (contactType : ContactSearch.ContactType)
    (loc : option jsstring) (c : ContactSearch.ContactResult) :
  27 # 100 <= ContactSearch.confidence
                (ContactSearch.validateOne target contactType loc c) <= 1.
Proof.
  validate_cases target loc c.
  destruct contactType, (ContactSearch.type c);
    cbn [ContactSearch.typeEqb andb ContactSearch.confidence];
    destruct (ContactSearch.source c); split_ifs; qdecide.
Qed.

Lemma validateOne_fields (target : jsstring)
    (contactType : ContactSearch.ContactType) (loc : option jsstring)
    (c : ContactSearch.ContactResult) :
  ContactSearch.value (ContactSearch.validateOne target contactType loc c)
  = ContactSearch.value c /\
  ContactSearch.type (ContactSearch.validateOne target contactType loc c)
  = ContactSearch.type c /\
  ContactSearch.source (ContactSearch.validateOne target contactType loc c)
  = ContactSearch.source c.
Proof.
  validate_cases target loc c.
  destruct contactType, (ContactSearch.type c);
    cbn [ContactSearch.typeEqb andb]; repeat split; reflexivity.
Qed.

(** X15.  The validation tool validates every contact it is given, keeps their
    order, values, types and sources, and gives each a confidence between
    0.27 and 1; the high-confidence contacts are, in order, validated
    contacts of confidence at least 0.6. *)
Theorem validation_tool_output (contacts_ : list ContactSearch.ContactResult)
    (target : jsstring) (contactType : ContactSearch.ContactType)
    (loc : option jsstring) :
  let out :=
    ContactSearch.contact_validation_tool contacts_ target contactType loc in
  ContactSearch.originalCount out = length contacts_ /\
  ContactSearch.validatedCount out = length contacts_ /\
  map ContactSearch.value (ContactSearch.validatedContacts out)
  = map ContactSearch.value contacts_ /\
  map ContactSearch.type (ContactSearch.validatedContacts out)
  = map ContactSearch.type contacts_ /\
  map ContactSearch.source (ContactSearch.validatedContacts out)
  = map ContactSearch.source contacts_ /\
  Forall (fun c => 27 # 100 <= ContactSearch.confidence c <= 1)
         (ContactSearch.validatedContacts out) /\
  subseq (ContactSearch.highConfidenceContacts out)
         (ContactSearch.validatedContacts out) /\
  Forall (fun c => 3 # 5 <= ContactSearch.confidence c)
         (ContactSearch.highConfidenceContacts out) /\
  (ContactSearch.highConfidenceCount out
   = length (ContactSearch.highConfidenceContacts out)
   /\ ContactSearch.highConfidenceCount out
      <= ContactSearch.validatedCount out)%nat.
Proof.
  cbv zeta. unfold ContactSearch.contact_validation_tool.
  cbn [ContactSearch.originalCount ContactSearch.validatedCount
       ContactSearch.validatedContacts ContactSearch.highConfidenceContacts
       ContactSearch.highConfidenceCount].
  split; [reflexivity|]. split; [apply length_map|].
  split.
  { rewrite map_map. apply map_ext. intro c. apply validateOne_fields. }
  split.
  { rewrite map_map. apply map_ext. intro c. apply validateOne_fields. }
  split.
  { rewrite map_map. apply map_ext. intro c. apply validateOne_fields. }
  split.
  { apply Forall_forall. intros v Hv. apply in_map_iff in Hv.
    destruct Hv as (c & <- & _). apply validateOne_range. }
  split; [apply subseq_filter|].
  split.
  { apply Forall_forall. intros v Hv. apply filter_In in Hv.
    destruct Hv as [_ Hv]. apply Qle_bool_iff in Hv. exact Hv. }
  split; [reflexivity|].
  rewrite length_map. rewrite <- (length_map (ContactSearch.validateOne target contactType loc) contacts_).
  apply filter_length_le.
Qed.

(** X16.  The validation reads the value, the type and the source of a contact
    and nothing else: the confidence, the context and the flags that the
    extractor gave are replaced.  Validating a validated contact again
    changes nothing. *)
Theorem validateOne_overwrites (target : jsstring)
    (contactType : ContactSearch.ContactType) (loc : option jsstring) :
  (forall c c',
      ContactSearch.value c = ContactSearch.value c' ->
      ContactSearch.type c = ContactSearch.type c' ->
      ContactSearch.source c = ContactSearch.source c' ->
      ContactSearch.validateOne target contactType loc c
      = ContactSearch.validateOne target contactType loc c') /\
  (forall c,
      ContactSearch.validateOne target contactType loc
        (ContactSearch.validateOne target contactType loc c)
      = ContactSearch.validateOne target contactType loc c).
Proof.
  assert (H : forall c c',
             ContactSearch.value c = ContactSearch.value c' ->
             ContactSearch.type c = ContactSearch.type c' ->
             ContactSearch.source c = ContactSearch.source c' ->
             ContactSearch.validateOne target contactType loc c
             = ContactSearch.validateOne target contactType loc c').
  { intros c c' Hv Ht Hs. unfold ContactSearch.validateOne.
    rewrite Hv, Ht, Hs. reflexivity. }
  split; [exact H|].
  intro c. destruct (validateOne_fields target contactType loc c) as (Hv & Ht & Hs).
  apply H; assumption.
Qed.

Lemma validateOne_overwrites_witness :
  (forall c c',
      ContactSearch.value c = ContactSearch.value c' ->
      ContactSearch.type c = ContactSearch.type c' ->
      ContactSearch.source c = ContactSearch.source c' ->
      ContactSearch.validateOne (js "Acme") ContactSearch.email None c
      = ContactSearch.validateOne (js "Acme") ContactSearch.email None c') /\
  (forall c,
      ContactSearch.validateOne (js "Acme") ContactSearch.email None
        (ContactSearch.validateOne (js "Acme") ContactSearch.email None c)
      = ContactSearch.validateOne (js "Acme") ContactSearch.email None c) /\
  ContactSearch.validateOne (js "Acme") ContactSearch.email None salesText
  = ContactSearch.validateOne (js "Acme") ContactSearch.email None salesGuess.
Proof.
  pose proof (validateOne_overwrites (js "Acme") ContactSearch.email None) as H.
  split; [apply H|]. split; [apply H|].
  apply H; reflexivity.
Defined.

(** X17.  A contact that is not of the searched type, or that is searched as
    [social] or [general], meets no validator: its confidence is 0.5
    weighed by its source, and it is never among the high-confidence
    contacts. *)
Theorem validation_without_validator (target : jsstring)
    (contactType : ContactSearch.ContactType) (loc : option jsstring)
    (c : ContactSearch.ContactResult) :
  ContactSearch.typeEqb contactType (ContactSearch.type c) = false
  \/ contactType = ContactSearch.social
  \/ contactType = ContactSearch.general ->
  ContactSearch.confidence (ContactSearch.validateOne target contactType loc c)
  == match ContactSearch.source c with
     | ContactSearch.text => 1 # 2
     | ContactSearch.vision => 9 # 20
     | ContactSearch.both => 11 # 20
     end /\
  highConfidence (ContactSearch.validateOne target contactType loc c) = false.
Proof.
  intro H. unfold highConfidence. validate_cases target loc c.
  destruct contactType, (ContactSearch.type c);
    cbn [ContactSearch.typeEqb andb ContactSearch.confidence] in *;
    try solve [destruct H as [H|[H|H]]; discriminate H];
    destruct (ContactSearch.source c); split; vm_compute; reflexivity.
Qed.

Lemma validation_without_validator_witness :
  ContactSearch.confidence
    (ContactSearch.validateOne (js "Acme") ContactSearch.email None visionPhone)
  == match ContactSearch.source visionPhone with
     | ContactSearch.text => 1 # 2
     | ContactSearch.vision => 9 # 20
     | ContactSearch.both => 11 # 20
     end /\
  highConfidence
    (ContactSearch.validateOne (js "Acme") ContactSearch.email None visionPhone)
  = false.
Proof.
  apply (@validation_without_validator (js "Acme") ContactSearch.email None
           visionPhone).
  left. reflexivity.
Defined.

(** X18.  For a contact of the searched type, the threshold of 0.6 is the pattern
    test: an e-mail address found in the text or by vision, and a phone
    number from any source, is a high-confidence contact exactly when the
    validation sets its [patternMatch] flag. *)
Theorem validation_threshold_is_pattern (target : jsstring)
    (loc : option jsstring) (c : ContactSearch.ContactResult) :
  (ContactSearch.type c = ContactSearch.email ->
   ContactSearch.source c <> ContactSearch.both ->
   let v := ContactSearch.validateOne target ContactSearch.email loc c in
   ContactSearch.patternMatch (ContactSearch.validation v)
   = Some (highConfidence v) /\
   highConfidence v
   = testAtStart ContactSearch.reEmail (ContactSearch.value c)) /\
  (ContactSearch.type c = ContactSearch.phone ->
   let v := ContactSearch.validateOne target ContactSearch.phone loc c in
   ContactSearch.patternMatch (ContactSearch.validation v)
   = Some (highConfidence v)).
Proof.
  unfold highConfidence. split.
  - intros Ht Hs. cbv zeta. validate_cases target loc c. rewrite Ht.
    cbn [ContactSearch.typeEqb andb ContactSearch.confidence
         ContactSearch.validation ContactSearch.patternMatch].
    destruct (ContactSearch.source c); [| |congruence];
      destruct (testAtStart ContactSearch.reEmail (ContactSearch.value c)),
        dm, cw; split; vm_compute; reflexivity.
  - intros Ht. cbv zeta. validate_cases target loc c. rewrite Ht.
    cbn [ContactSearch.typeEqb andb ContactSearch.confidence
         ContactSearch.validation ContactSearch.patternMatch].
    destruct (ContactSearch.source c), pm, am; vm_compute; reflexivity.
Qed.

Lemma validation_threshold_is_pattern_witness :
  (let v := ContactSearch.validateOne (js "Acme") ContactSearch.email None
              salesText in
   ContactSearch.patternMatch (ContactSearch.validation v)
   = Some (highConfidence v) /\
   highConfidence v
   = testAtStart ContactSearch.reEmail (ContactSearch.value salesText)) /\
  (let v := ContactSearch.validateOne (js "Acme") ContactSearch.phone None
              visionPhone in
   ContactSearch.patternMatch (ContactSearch.validation v)
   = Some (highConfidence v)).
Proof.
  split.
  - apply (validation_threshold_is_pattern (js "Acme") None salesText).
    + reflexivity.
    + discriminate.
  - apply (validation_threshold_is_pattern (js "Acme") None visionPhone).
    reflexivity.
Defined.

(** X19.  In a search for addresses, every address found in the text (or by both
    extractors) is a high-confidence contact, whatever it says: the
    validator starts at the threshold and only adds to it. *)
Theorem validation_address_always_high (target : jsstring)
    (loc : option jsstring) (c : ContactSearch.ContactResult) :
  ContactSearch.type c = ContactSearch.address ->
  ContactSearch.source c <> ContactSearch.vision ->
  highConfidence (ContactSearch.validateOne target ContactSearch.address loc c)
  = true.
Proof.
  intros Ht Hs. unfold highConfidence. validate_cases target loc c. rewrite Ht.
  cbn [ContactSearch.typeEqb andb ContactSearch.confidence].
  destruct (ContactSearch.source c); [|congruence|];
    destruct lm, tm, pat; vm_compute; reflexivity.
Qed.

Lemma validation_address_always_high_witness :
  highConfidence
    (ContactSearch.validateOne (js "Acme") ContactSearch.address None hqAddress)
  = true.
Proof.
  apply (@validation_address_always_high (js "Acme") None hqAddress).
  - reflexivity.
  - discriminate.
Defined.

Lemma digit_not_punct (c : N) :
  isDigit c = true -> ContactSearch.isPhonePunct c = false.
Proof.
  intro H. unfold ContactSearch.isPhonePunct. rewrite (digit_not_space _ H).
  unfold isDigit in H. apply andb_true_iff in H. destruct H as [H1 H2].
  apply N.leb_le in H1, H2.
  assert (E1 : (c =? 45)%N = false) by (apply N.eqb_neq; lia).
  assert (E2 : (c =? 40)%N = false) by (apply N.eqb_neq; lia).
  assert (E3 : (c =? 41)%N = false) by (apply N.eqb_neq; lia).
  rewrite E1, E2, E3. reflexivity.
Qed.

Lemma filter_digits (ds : jsstring) :
  forallb isDigit ds = true ->
  filter (fun c => negb (ContactSearch.isPhonePunct c)) ds = ds.
Proof.
  induction ds as [|d ds IH]; [reflexivity|]. simpl. intro H.
  apply andb_true_iff in H. destruct H as [Hd Hds].
  rewrite (digit_not_punct _ Hd), (IH Hds). reflexivity.
Qed.

(** [\d{0,n}$] on a string of digits: it matches when the string has at
    most [n] digits. *)
Lemma upto_digits (n : nat) :
  forall (ds : jsstring) (cs : caps),
    forallb isDigit ds = true ->
    upto n isDigit (eoi accept) ds cs
    = if (length ds <=? n)%nat then Some cs else None.
Proof.
  induction n as [|n IH]; intros ds cs H.
  - destruct ds; reflexivity.
  - destruct ds as [|d ds]; [reflexivity|].
    simpl in H. apply andb_true_iff in H. destruct H as [Hd Hds].
    cbn [upto]. rewrite Hd, (IH _ _ Hds). cbn [length Nat.leb].
    destruct (length ds <=? n)%nat; reflexivity.
Qed.

(** X20.  The validation of a phone number that is written as 1 followed by
    digits depends on the number of its digits only: two such numbers of
    the same length get the same confidence and the same flags for every
    location, whatever their area codes. *)
Theorem validatePhone_ignores_digits (ds1 ds2 : jsstring)
    (location : option jsstring) :
  forallb isDigit ds1 = true -> forallb isDigit ds2 = true ->
  length ds1 = length ds2 ->
  ContactSearch._validatePhone (49%N :: ds1) location
  = ContactSearch._validatePhone (49%N :: ds2) location.
Proof.
  intros H1 H2 Hl. unfold ContactSearch._validatePhone.
  cbn [filter]. change (negb (ContactSearch.isPhonePunct 49)) with true.
  cbv iota. rewrite (filter_digits _ H1), (filter_digits _ H2).
  assert (T : forall ds, forallb isDigit ds = true ->
                testAtStart ContactSearch.rePhone (49%N :: ds)
                = (length ds <=? 15)%nat).
  { intros ds H. unfold testAtStart, ContactSearch.rePhone, seq, opt, unit_, cls.
    change ((49 =? 43)%N) with false. cbv iota.
    change ((49 <=? 49)%N && (49 <=? 57)%N) with true. cbv iota.
    rewrite (upto_digits 15 _ _ H).
    destruct (length ds <=? 15)%nat; reflexivity. }
  rewrite (T _ H1), (T _ H2), Hl.
  change (startsWith (49%N :: ds1) (js "1")) with true.
  change (startsWith (49%N :: ds2) (js "1")) with true.
  reflexivity.
Qed.

Lemma validatePhone_ignores_digits_witness :
  ContactSearch._validatePhone (49%N :: js "6175550100") (Some (js "New York"))
  = ContactSearch._validatePhone (49%N :: js "2125550100") (Some (js "New York")).
Proof.
  apply (@validatePhone_ignores_digits (js "6175550100") (js "2125550100")
           (Some (js "New York"))).
  - reflexivity.
  - reflexivity.
  - reflexivity.
Defined.

(** ** From the text extractor to the validation *)

Lemma consumes_plus_all (p : N -> bool) :
  consumes (plus p) (fun u => u <> [] /\ forallb p u = true).
Proof.
  eapply consumes_weaken.
  - apply consumes_seq; [apply consumes_cls|apply consumes_star].
  - intros u (u1 & u2 & -> & (c & -> & Hc) & H2).
    split; [discriminate|]. simpl. rewrite Hc. exact H2.
Qed.

Lemma captures_group_outer (r : re) (P : jsstring -> caps -> Prop) :
  captures r P ->
  captures (group r) (fun u c => exists c', P u c' /\ c = c' ++ [u]).
Proof.
  intros H k s cs out E. unfold group in E.
  destruct (H _ _ _ _ E) as (u & s' & c' & E1 & Hp & Hk).
  exists u, s', (c' ++ [u]). split; [exact E1|]. split; [eauto|].
  subst s. rewrite firstn_app_length in Hk. rewrite app_assoc. exact Hk.
Qed.

Lemma emailRegex_captures :
  captures ContactSearch.emailRegex (fun u c => emailShape u /\ c = [u]).
Proof.
  unfold ContactSearch.emailRegex.
  eapply captures_weaken.
  - apply captures_group.
    apply consumes_seq; [apply consumes_plus_all|].
    apply consumes_seq; [apply consumes_cls|].
    apply consumes_seq; [apply consumes_plus_all|].
    apply consumes_seq; [apply consumes_cls|].
    apply consumes_seq; [apply consumes_cls|apply consumes_plus_all].
  - intros u c (H & ->). split; [|reflexivity].
    destruct H as (l & u2 & -> & (Hl1 & Hl2) & H).
    destruct H as (at_ & u3 & -> & (a & -> & Ha) & H).
    destruct H as (d & u4 & -> & (Hd1 & Hd2) & H).
    destruct H as (pt & u5 & -> & (b & -> & Hb) & H).
    destruct H as (x1 & x2 & -> & (a1 & -> & Ha1) & (Hx1 & Hx2)).
    apply N.eqb_eq in Ha, Hb. subst a b.
    destruct x2 as [|a2 t]; [congruence|].
    simpl in Hx2. apply andb_true_iff in Hx2. destruct Hx2 as [Ha2 Ht].
    exists l, d, a1, a2, t. repeat split; auto.
Qed.

(** What one call of [exec] with [emailRegex] returns. *)
Lemma execFrom_email (s : jsstring) (m0 : jsstring) (cs : caps)
    (rest : jsstring) :
  execFrom ContactSearch.emailRegex s = Some (m0, cs, rest) ->
  cs = [m0] /\ emailShape m0 /\ (length rest < length s)%nat /\
  exists pre, s = pre ++ m0 ++ rest.
Proof.
  induction s as [|c s IH]; cbn [execFrom]; intro E.
  - destruct (group ContactSearch.emailRegex accept [] []) as [out|] eqn:Eg;
      [|discriminate].
    destruct (captures_group_outer emailRegex_captures _ _ _ Eg)
      as (u & s' & c' & Es & (c'' & (Hu & ->) & ->) & Hk).
    destruct Hu as (l & d & a1 & a2 & t & -> & _).
    destruct l; discriminate.
  - destruct (group ContactSearch.emailRegex accept (c :: s) []) as [out|] eqn:Eg.
    + destruct (captures_group_outer emailRegex_captures _ _ _ Eg)
        as (u & s' & c' & Es & (c'' & (Hu & ->) & ->) & Hk).
      injection Hk as <-. cbn in E. injection E as <- <- <-.
      split; [reflexivity|]. split; [exact Hu|].
      assert (Hrest : skipn (length u) (c :: s) = s').
      { rewrite Es, skipn_app, skipn_all, Nat.sub_diag. reflexivity. }
      rewrite Hrest. split.
      * rewrite Es, length_app.
        destruct Hu as (l & d & a1 & a2 & t & -> & Hl & _).
        destruct l; [congruence|]. simpl. lia.
      * exists []. exact Es.
    + destruct (IH E) as (H1 & H2 & H3 & pre & H4).
      split; [exact H1|]. split; [exact H2|]. split; [simpl; lia|].
      exists (c :: pre). simpl. congruence.
Qed.

(** The loop over the matches ends, and every match has the shape. *)
Lemma execAll_email (fuel : nat) :
  forall s,
    (length s < fuel)%nat ->
    exists ms,
      execAll fuel ContactSearch.emailRegex s = Some ms /\
      Forall (fun m => snd m = [fst m] /\ emailShape (fst m)
                       /\ includes s (fst m) = true) ms.
Proof.
  induction fuel as [|fuel IH]; intros s Hs; [lia|].
  cbn [execAll].
  destruct (execFrom ContactSearch.emailRegex s) as [[[m0 cs] rest]|] eqn:E.
  - destruct (execFrom_email _ E) as (-> & Hm & Hl & pre & Es).
    destruct (IH rest) as (ms & -> & Hms); [lia|].
    eexists. split; [reflexivity|]. constructor.
    + split; [reflexivity|]. split; [exact Hm|]. cbn [fst]. rewrite Es.
      apply includes_app_r, includes_app_l, startsWith_includes,
        startsWith_refl.
    + eapply Forall_impl; [|exact Hms].
      intros m (H1 & H2 & H3). split; [exact H1|]. split; [exact H2|].
      rewrite Es, app_assoc. apply includes_app_r, H3.
  - exists []. split; [reflexivity|constructor].
Qed.

Lemma emailsOf_textEmail (s target : jsstring) (ms : list (jsstring * caps)) :
  Forall (fun m => snd m = [fst m] /\ emailShape (fst m)
                   /\ includes s (fst m) = true) ms ->
  forall acc,
    Forall (textEmail s) acc ->
    exists l,
      ContactSearch.emailsOf target ms acc = Ok l /\ Forall (textEmail s) l.
Proof.
  induction 1 as [|[m0 cs] ms (Hc & Hm & Hi) _ IH]; intros acc Hacc.
  - exists acc. split; [reflexivity|exact Hacc].
  - simpl in Hc, Hm. subst cs. cbn [ContactSearch.emailsOf].
    unfold groupOf. cbn [nth_error Nat.sub].
    apply IH.
    destruct (ContactSearch._isRelevantEmail m0 (Some target)); [|exact Hacc].
    apply Forall_app. split; [exact Hacc|].
    constructor; [|constructor].
    repeat split; try reflexivity; assumption.
Qed.

Lemma ascii_not_space_nor_at (c : N) :
  (33 <= c <= 126)%N -> c <> 64%N -> ContactSearch.notSpaceNorAt c = true.
Proof.
  intros Hr Hn.
  unfold ContactSearch.notSpaceNorAt, isSpace, isWhiteSpace, isLineTerminator.
  repeat match goal with
  | |- context [(?a =? ?b)%N] =>
      destruct (N.eqb_spec a b); [lia|]
  | |- context [(?a <=? ?b)%N] =>
      destruct (N.leb_spec a b); try lia
  end; reflexivity.
Qed.

Lemma alpha_range (c : N) :
  ContactSearch.isAlpha c = true -> (33 <= c <= 126)%N /\ c <> 64%N.
Proof.
  unfold ContactSearch.isAlpha. intro H.
  apply orb_true_iff in H.
  destruct H as [H|H]; apply andb_true_iff in H; destruct H as [H1 H2];
    apply N.leb_le in H1, H2; lia.
Qed.

Lemma digit_range (c : N) :
  isDigit c = true -> (33 <= c <= 126)%N /\ c <> 64%N.
Proof.
  unfold isDigit. intro H. apply andb_true_iff in H. destruct H as [H1 H2].
  apply N.leb_le in H1, H2. lia.
Qed.

Lemma localChar_range (c : N) :
  ContactSearch.isLocalChar c = true -> (33 <= c <= 126)%N /\ c <> 64%N.
Proof.
  unfold ContactSearch.isLocalChar. intro H.
  repeat (apply orb_true_iff in H; destruct H as [H|H]);
    first [ apply N.eqb_eq in H; lia
          | apply andb_true_iff in H; destruct H as [H1 H2];
            apply N.leb_le in H1, H2; lia ].
Qed.

Lemma domainChar_range (c : N) :
  ContactSearch.isDomainChar c = true -> (33 <= c <= 126)%N /\ c <> 64%N.
Proof.
  unfold ContactSearch.isDomainChar. intro H.
  repeat (apply orb_true_iff in H; destruct H as [H|H]);
    first [ apply N.eqb_eq in H; lia
          | apply andb_true_iff in H; destruct H as [H1 H2];
            apply N.leb_le in H1, H2; lia ].
Qed.

Lemma forallb_weaken (p q : N -> bool) (u : jsstring) :
  (forall c, p c = true -> q c = true) ->
  forallb p u = true -> forallb q u = true.
Proof.
  intros H Hu. rewrite forallb_forall in *. auto.
Qed.

(** A greedy star gives back what the rest of the expression needs. *)
Lemma star_some (p : N -> bool) (k : cont) (u s : jsstring) (cs : caps) :
  forallb p u = true -> k s cs <> None -> star p k (u ++ s) cs <> None.
Proof.
  intros Hu Hk. induction u as [|c u IH].
  - destruct s as [|c s]; simpl; [exact Hk|].
    destruct (p c); [|exact Hk].
    destruct (star p k s cs); [discriminate|exact Hk].
  - simpl in Hu. apply andb_true_iff in Hu. destruct Hu as [Hc Hu].
    specialize (IH Hu). simpl in *. rewrite Hc.
    destruct (star p k (u ++ s) cs); [discriminate|congruence].
Qed.

Lemma plus_some (p : N -> bool) (k : cont) (u s : jsstring) (cs : caps) :
  u <> [] -> forallb p u = true -> k s cs <> None ->
  plus p k (u ++ s) cs <> None.
Proof.
  intros Hne Hu Hk. destruct u as [|c u]; [congruence|].
  simpl in Hu. apply andb_true_iff in Hu. destruct Hu as [Hc Hu].
  unfold plus, seq, cls. cbn [app]. rewrite Hc.
  apply star_some; assumption.
Qed.

(** What [emailRegex] matches passes the pattern of [_validateEmail]. *)
Lemma emailShape_valid (u : jsstring) :
  emailShape u -> testAtStart ContactSearch.reEmail u = true.
Proof.
  intros (l & d & a1 & a2 & t & -> & Hl1 & Hl2 & Hd1 & Hd2 & Ha1 & Ha2 & Ht).
  assert (Hl : forallb ContactSearch.notSpaceNorAt l = true).
  { apply (forallb_weaken _ _ _ (fun c H =>
      ascii_not_space_nor_at (proj1 (localChar_range c H))
                             (proj2 (localChar_range c H))) Hl2). }
  assert (Hd : forallb ContactSearch.notSpaceNorAt d = true).
  { apply (forallb_weaken _ _ _ (fun c H =>
      ascii_not_space_nor_at (proj1 (domainChar_range c H))
                             (proj2 (domainChar_range c H))) Hd2). }
  assert (Htld : forallb ContactSearch.notSpaceNorAt (a1 :: a2 :: t) = true).
  { apply (forallb_weaken ContactSearch.isAlpha).
    - intros c H. apply ascii_not_space_nor_at; apply (alpha_range _ H).
    - simpl. rewrite Ha1, Ha2. exact Ht. }
  unfold testAtStart.
  assert (E : ContactSearch.reEmail accept
                (l ++ 64%N :: d ++ 46%N :: a1 :: a2 :: t) [] <> None).
  { unfold ContactSearch.reEmail. unfold seq at 1.
    apply plus_some; [exact Hl1|exact Hl|].
    unfold seq at 1. unfold unit_ at 1. unfold cls at 1.
    change ((64 =? 64)%N) with true. cbv iota.
    unfold seq at 1.
    apply plus_some; [exact Hd1|exact Hd|].
    unfold seq at 1. unfold unit_ at 1. unfold cls at 1.
    change ((46 =? 46)%N) with true. cbv iota.
    unfold seq at 1.
    rewrite <- (app_nil_r (a1 :: a2 :: t)).
    apply plus_some; [discriminate|exact Htld|]. discriminate. }
  destruct (ContactSearch.reEmail accept _ []); [reflexivity|congruence].
Qed.

Lemma textEmail_validated (s target : jsstring) (loc : option jsstring)
    (c : ContactSearch.ContactResult) :
  textEmail s c ->
  4 # 5 <= ContactSearch.confidence
             (ContactSearch.validateOne target ContactSearch.email loc c) /\
  highConfidence (ContactSearch.validateOne target ContactSearch.email loc c)
  = true.
Proof.
  intros (Ht & Hs & _ & Hm & _). apply emailShape_valid in Hm.
  unfold highConfidence. validate_cases target loc c. rewrite Ht, Hs, Hm.
  cbn [ContactSearch.typeEqb andb ContactSearch.confidence].
  destruct dm, cw; split; vm_compute; first [reflexivity|discriminate].
Qed.

Lemma filter_all (A : Type) (f : A -> bool) (l : list A) :
  Forall (fun a => f a = true) l -> filter f l = l.
Proof.
  induction 1 as [|a l Ha _ IH]; [reflexivity|].
  simpl. rewrite Ha, IH. reflexivity.
Qed.

(** X21.  In a search for e-mail addresses, the extraction from the page text
    ends (the model needs no more fuel than the length of the text), never
    throws, and returns only contacts that the validation accepts: each has
    the extractor's confidence of 0.75 and a value that passes the
    validator's pattern, so the validation tool raises every confidence to
    0.8 or more and counts every one of them as a high-confidence contact.
    Every value returned occurs in the text. *)
Theorem text_emails_pass_validation (fuel : nat) (text_ : jsstring)
    (params : ContactSearch.Params) :
  ContactSearch.p_contactType params = ContactSearch.email ->
  (length text_ < fuel)%nat ->
  exists found,
    ContactSearch._extractContactsFromText fuel text_ params = Some (Ok found) /\
    Forall (fun c =>
              ContactSearch.type c = ContactSearch.email /\
              ContactSearch.source c = ContactSearch.text /\
              ContactSearch.confidence c = 3 # 4 /\
              testAtStart ContactSearch.reEmail (ContactSearch.value c) = true /\
              includes text_ (ContactSearch.value c) = true)
           found /\
    let out :=
      ContactSearch.contact_validation_tool found
        (ContactSearch.p_target params) ContactSearch.email
        (ContactSearch.p_location params) in
    ContactSearch.highConfidenceContacts out
    = ContactSearch.validatedContacts out /\
    Forall (fun c => 4 # 5 <= ContactSearch.confidence c)
           (ContactSearch.validatedContacts out).
Proof.
  intros Hty Hf.
  destruct (@execAll_email fuel text_ Hf) as (ms & Ems & Hms).
  destruct (@emailsOf_textEmail text_ (ContactSearch.p_target params) ms Hms []
              (Forall_nil _)) as (found & Ef & Hfound).
  exists found. split.
  { unfold ContactSearch._extractContactsFromText. rewrite Hty.
    cbn [ContactSearch.typeEqb]. rewrite Ems. cbn [option_map].
    rewrite Ef, app_nil_r. reflexivity. }
  split.
  { eapply Forall_impl; [|exact Hfound].
    intros c (H1 & H2 & H3 & H4 & H5). repeat split; auto.
    apply emailShape_valid, H4. }
  cbv zeta. unfold ContactSearch.contact_validation_tool.
  cbn [ContactSearch.highConfidenceContacts ContactSearch.validatedContacts].
  assert (Hv : Forall (fun v => 4 # 5 <= ContactSearch.confidence v /\
                                highConfidence v = true)
                 (map (ContactSearch.validateOne (ContactSearch.p_target params)
                         ContactSearch.email (ContactSearch.p_location params))
                      found)).
  { apply Forall_forall. intros v Hv. apply in_map_iff in Hv.
    destruct Hv as (c & <- & Hc). apply (@textEmail_validated text_).
    rewrite Forall_forall in Hfound. apply Hfound, Hc. }
  split.
  - apply filter_all. eapply Forall_impl; [|exact Hv].
    intros v (_ & H). exact H.
  - eapply Forall_impl; [|exact Hv]. intros v (H & _). exact H.
Qed.

Lemma text_emails_pass_validation_witness :
  exists found,
    ContactSearch._extractContactsFromText 100 contactPage emailSearch
    = Some (Ok found) /\
    Forall (fun c =>
              ContactSearch.type c = ContactSearch.email /\
              ContactSearch.source c = ContactSearch.text /\
              ContactSearch.confidence c = 3 # 4 /\
              testAtStart ContactSearch.reEmail (ContactSearch.value c) = true /\
              includes contactPage (ContactSearch.value c) = true)
           found /\
    let out :=
      ContactSearch.contact_validation_tool found
        (ContactSearch.p_target emailSearch) ContactSearch.email
        (ContactSearch.p_location emailSearch) in
    ContactSearch.highConfidenceContacts out
    = ContactSearch.validatedContacts out /\
    Forall (fun c => 4 # 5 <= ContactSearch.confidence c)
           (ContactSearch.validatedContacts out).
Proof.
  apply (@text_emails_pass_validation 100 contactPage emailSearch).
  - reflexivity.
  - apply Nat.ltb_lt. reflexivity.
Defined.

Example extractContactsFromText_page :
  option_map
    (fun r => match r with
              | Ok l => map ContactSearch.value l
              | Err _ => []
              end)
    (ContactSearch._extractContactsFromText 100 contactPage emailSearch)
  = Some [js "info@acme.com"; js "sales@acme.co.uk"].
Proof. vm_compute. reflexivity. Qed.

(** ** The request log of the gateway *)

Lemma sorted_snoc (l : list Q) (x : Q) :
  StronglySorted Qle l -> Forall (fun t => t <= x) l ->
  StronglySorted Qle (l ++ [x]).
Proof.
  induction 1 as [|a l Hs IH Ha]; intro Hx.
  - constructor; constructor.
  - inversion Hx as [|? ? Hax Hlx]; subst. simpl. constructor.
    + apply IH, Hlx.
    + apply Forall_app. split; [exact Ha|constructor; [exact Hax|constructor]].
Qed.

Lemma chrono_later (w : Gateway.World) (t : Q) :
  Gateway.now w <= t ->
  chronological w ->
  chronological (Gateway.mkWorld t (Gateway.lastRequestTime w) (Gateway.sent w)).
Proof.
  intros Ht (H1 & H2 & H3). unfold chronological. simpl.
  split; [lra|]. split; [|exact H3].
  eapply Forall_impl; [|exact H2]. simpl. intros a Ha. lra.
Qed.

Lemma chrono_sleep (delay : Q) (late : N) (w : Gateway.World) :
  chronological w -> chronological (Gateway.sleep delay late w).
Proof.
  intro H. unfold Gateway.sleep. apply chrono_later; [|exact H].
  pose proof (ofN_nonneg late) as Hl.
  destruct (delay ?= 0) eqn:E; try lra.
  apply Qgt_alt in E. lra.
Qed.

Lemma chrono_gate (config : Gateway.AIConfig) (late : N) (w : Gateway.World) :
  chronological w -> chronological (Gateway.gate config late w).
Proof.
  intro H. unfold Gateway.gate.
  set (w1 := match _ ?= _ with Lt => _ | _ => w end).
  assert (H1 : chronological w1).
  { unfold w1. destruct (_ ?= _); try exact H. apply chrono_sleep, H. }
  clearbody w1. destruct H1 as (_ & H2 & H3).
  unfold chronological. simpl. split; [lra|]. split; assumption.
Qed.

Lemma chrono_fetch (x : Gateway.Exchange) (w : Gateway.World) :
  chronological w -> chronological (snd (Gateway.fetch x w)).
Proof.
  intros (H1 & H2 & H3). unfold Gateway.fetch, chronological. simpl.
  pose proof (ofN_nonneg (Gateway.latency x)) as Hl.
  split; [lra|]. split.
  - apply Forall_app. split.
    + eapply Forall_impl; [|exact H2]. simpl. intros a Ha. lra.
    + constructor; [lra|constructor].
  - apply sorted_snoc; assumption.
Qed.

Lemma chrono_retry429 (e : Gateway.CallEnv) (r : Gateway.Response)
    (w : Gateway.World) :
  chronological w -> chronological (snd (Gateway.retry429 e r w)).
Proof.
  intro H. unfold Gateway.retry429.
  pose proof (chrono_fetch (Gateway.second e)
                (chrono_sleep (Gateway.retryTime r) (Gateway.retryLate e) H))
    as H2.
  unfold Gateway.fetch in *. simpl in H2. cbv zeta.
  destruct (Gateway.reply (Gateway.second e)) as [rr|m]; [|exact H2].
  destruct (Gateway.ok rr); [|exact H2].
  destruct (Gateway.candidateText rr) as [[[|c t]|]|m]; exact H2.
Qed.

Lemma chrono_callLLM (config : Gateway.AIConfig) (e : Gateway.CallEnv)
    (w : Gateway.World) :
  chronological w -> chronological (snd (Gateway.callLLM config e w)).
Proof.
  intro H. unfold Gateway.callLLM.
  destruct (negb (Gateway.enabled config) || _); [exact H|].
  cbv zeta.
  pose proof (chrono_fetch (Gateway.first e)
                (chrono_gate config (Gateway.gateLate e) H)) as H2.
  set (w1 := Gateway.gate config (Gateway.gateLate e) w) in *. clearbody w1.
  unfold Gateway.fetch at 1.
  set (w2 := snd (Gateway.fetch (Gateway.first e) w1)) in *.
  change (Gateway.mkWorld (Gateway.now w1 + Gateway.ofN (Gateway.latency (Gateway.first e)))
            (Gateway.lastRequestTime w1) (Gateway.sent w1 ++ [Gateway.now w1]))
    with w2.
  clearbody w2.
  destruct (Gateway.reply (Gateway.first e)) as [r|m]; [|exact H2].
  destruct (Gateway.ok r).
  - destruct (Gateway.decision r); exact H2.
  - destruct (Gateway.errorOf r) as [msg|]; [|exact H2].
    destruct (Gateway.isGoogle (Gateway.provider config) && (Gateway.status r =? 429)%Z).
    + apply chrono_retry429, H2.
    + destruct (_ && _); exact H2.
Qed.

(** X22.  Calls made one after the other keep the request log in order: the
    times of the requests are ascending and never in the future, and
    [lastRequestTime] is never in the future either. *)
Theorem callAll_chronological (config : Gateway.AIConfig)
    (es : list (N * Gateway.CallEnv)) :
  forall w, chronological w -> chronological (Gateway.callAll config es w).
Proof.
  induction es as [|[idle e] es IH]; intros w H; [exact H|].
  cbn [Gateway.callAll]. apply IH, chrono_callLLM, chrono_later; [|exact H].
  pose proof (ofN_nonneg idle). lra.
Qed.

Lemma callAll_chronological_witness :
  chronological (Gateway.callAll freeTier [(0%N, twice429); (500%N, twice429)] noon).
Proof.
  apply (@callAll_chronological freeTier [(0%N, twice429); (500%N, twice429)] noon).
  unfold chronological, noon. simpl.
  split; [vm_compute; discriminate|]. split; constructor.
Defined.

(** X23.  The calls that do not retry.  Without a key, or disabled, [callLLM]
    throws before it waits or sends anything.  When [fetch] rejects (the
    network fails, or the request is aborted after 30 s), the rejection is
    thrown as it is, after the one request.  When the response is ok, the
    decision read from its body is returned, after the one request. *)
Theorem callLLM_without_retry (config : Gateway.AIConfig)
    (e : Gateway.CallEnv) (w : Gateway.World) :
  (Gateway.enabled config = false \/ Gateway.apiKey config = [] ->
   Gateway.callLLM config e w
   = (Err (js "AI is not enabled or API key is missing. Configure in Settings."),
      w)) /\
  (active config ->
   forall m,
     Gateway.reply (Gateway.first e) = Err m ->
     fst (Gateway.callLLM config e w) = Err m /\
     Gateway.sent (snd (Gateway.callLLM config e w))
     = Gateway.sent w
       ++ [Gateway.now (Gateway.gate config (Gateway.gateLate e) w)]) /\
  (active config ->
   forall r,
     Gateway.reply (Gateway.first e) = Ok r -> Gateway.ok r = true ->
     fst (Gateway.callLLM config e w)
     = match Gateway.decision r with
       | Ok a => Ok (Gateway.Decision a)
       | Err m => Err m
       end /\
     Gateway.sent (snd (Gateway.callLLM config e w))
     = Gateway.sent w
       ++ [Gateway.now (Gateway.gate config (Gateway.gateLate e) w)]).
Proof.
  pose proof (gate_spec config (Gateway.gateLate e) w) as Hg. cbv zeta in Hg.
  destruct Hg as (_ & G2 & _).
  split; [|split].
  - intros [H|H]; unfold Gateway.callLLM; rewrite H.
    + reflexivity.
    + rewrite orb_true_r. reflexivity.
  - intros (He & Hk) m Hr. unfold Gateway.callLLM. rewrite He.
    destruct (Gateway.apiKey config) as [|c k]; [congruence|].
    cbn [negb orb]. cbv zeta. unfold Gateway.fetch. rewrite Hr.
    cbn [fst snd Gateway.sent]. rewrite G2. split; reflexivity.
  - intros (He & Hk) r Hr Hok. unfold Gateway.callLLM. rewrite He.
    destruct (Gateway.apiKey config) as [|c k]; [congruence|].
    cbn [negb orb]. cbv zeta. unfold Gateway.fetch. rewrite Hr, Hok.
    destruct (Gateway.decision r); cbn [fst snd Gateway.sent]; rewrite G2;
      split; reflexivity.
Qed.

Lemma callLLM_without_retry_witness :
  Gateway.callLLM keyless networkDown noon
  = (Err (js "AI is not enabled or API key is missing. Configure in Settings."),
     noon) /\
  fst (Gateway.callLLM freeTier networkDown noon) = Err (js "Aborted") /\
  Gateway.sent (snd (Gateway.callLLM freeTier networkDown noon))
  = Gateway.sent noon
    ++ [Gateway.now (Gateway.gate freeTier (Gateway.gateLate networkDown) noon)].
Proof.
  split.
  - apply (callLLM_without_retry keyless networkDown noon). right. reflexivity.
  - apply (callLLM_without_retry freeTier networkDown noon).
    + split; [reflexivity|discriminate].
    + reflexivity.
Defined.

(** ** Keywords in tasks *)

Lemma includes_tail (s : jsstring) (a : N) (p : jsstring) :
  includes s (a :: p) = true -> includes s p = true.
Proof.
  induction s as [|c s IH]; intro H.
  - discriminate.
  - cbn [includes] in H. apply orb_true_iff in H.
    cbn [includes]. apply orb_true_iff. right. destruct H as [H|H].
    + cbn [startsWith] in H. apply andb_true_iff in H.
      apply startsWith_includes, H.
    + apply IH, H.
Qed.

Lemma includes_suffix (s x p : jsstring) :
  includes s (x ++ p) = true -> includes s p = true.
Proof.
  induction x as [|a x IH]; intro H; [exact H|].
  apply IH. apply (includes_tail _ _ _ H).
Qed.

(** X24.  [estimateSteps] returns 8, 12 or 20.  Because [search] is tested
    first, a task that says [research] gets the 8 steps of a simple task;
    20 steps are estimated only for a task that says [analyze], [compare]
    or [multiple]. *)
Theorem estimateSteps_research (task : jsstring) :
  (estimateSteps task = 8 \/ estimateSteps task = 12 \/ estimateSteps task = 20)%Z /\
  (includes (toLowerCase task) (js "research") = true ->
   estimateSteps task = 8%Z) /\
  (estimateSteps task = 20%Z ->
   includes (toLowerCase task) (js "analyze") = true \/
   includes (toLowerCase task) (js "compare") = true \/
   includes (toLowerCase task) (js "multiple") = true).
Proof.
  unfold estimateSteps, simpleTasks, complexTasks. cbv zeta.
  cbn [existsb].
  assert (R : includes (toLowerCase task) (js "research") = true ->
              includes (toLowerCase task) (js "search") = true).
  { apply (includes_suffix (toLowerCase task) (js "re") (js "search")). }
  destruct (includes (toLowerCase task) (js "search")) eqn:E1.
  { cbn [orb]. split; [auto|]. split; [reflexivity|discriminate]. }
  destruct (includes (toLowerCase task) (js "research")) eqn:E2.
  { specialize (R eq_refl). discriminate. }
  cbn [orb].
  destruct (includes (toLowerCase task) (js "find") || _);
    [split; [auto|]; split; discriminate|].
  destruct (includes (toLowerCase task) (js "analyze")); cbn [orb];
    [split; [auto|]; split; [discriminate|auto]|].
  destruct (includes (toLowerCase task) (js "compare")); cbn [orb];
    [split; [auto|]; split; [discriminate|auto]|].
  destruct (includes (toLowerCase task) (js "multiple")); cbn [orb];
    split; auto; split; try discriminate; auto.
Qed.

Lemma estimateSteps_research_witness :
  estimateSteps (js "Research and compare multiple vendors") = 8%Z.
Proof.
  apply (estimateSteps_research (js "Research and compare multiple vendors")).
  reflexivity.
Defined.

(** X25.  The contact type detected in a task is never [general], and a task
    that asks for an [email address] is never searched as an e-mail
    search: it contains [address], which is tested before the default. *)
Theorem detectContactType_email_address (task : jsstring) :
  ContactSearch.detectContactType task <> ContactSearch.general /\
  (includes (toLowerCase task) (js "email address") = true ->
   ContactSearch.detectContactType task = ContactSearch.phone \/
   ContactSearch.detectContactType task = ContactSearch.address).
Proof.
  unfold ContactSearch.detectContactType. cbv zeta.
  assert (R : includes (toLowerCase task) (js "email address") = true ->
              includes (toLowerCase task) (js "address") = true).
  { apply (includes_suffix (toLowerCase task) (js "email ") (js "address")). }
  destruct (includes _ (js "phone") || _ || _); [split; [discriminate|auto]|].
  destruct (includes (toLowerCase task) (js "address")) eqn:E.
  { cbn [orb]. split; [discriminate|auto]. }
  cbn [orb].
  destruct (includes _ (js "location") || _); [split; [discriminate|auto]|].
  destruct (includes _ (js "linkedin") || _ || _);
    (split; [discriminate|]); intro H; specialize (R H); discriminate.
Qed.

Lemma detectContactType_email_address_witness :
  ContactSearch.detectContactType (js "Find the email address of Acme")
  = ContactSearch.phone \/
  ContactSearch.detectContactType (js "Find the email address of Acme")
  = ContactSearch.address.
Proof.
  apply (detectContactType_email_address (js "Find the email address of Acme")).
  reflexivity.
Defined.

(** ** Clicks that the loop does not make *)

(** X26.  A click whose coordinates are outside the viewport of the validation
    is replaced by one scroll down of 500 pixels: no tap is dispatched,
    nothing is added to the action log, and a failure of the scroll is
    thrown with the adapter's message, without the wrapping of
    [withErrorHandling]. *)
Theorem click_out_of_bounds_scrolls (env : Env) (st : Run) (x y : Z) :
  x <> 0%Z -> y <> 0%Z ->
  ~ ((0 <= x <= 375)%Z /\ (0 <= y <= 812)%Z) ->
  let r := doClick env (mkClick (Some x) (Some y)) st in
  calls (snd r) = calls st ++ [ScrollBy down 500] /\
  actions (result (snd r)) = actions (result st) /\
  (forall m,
      native env (calls st) (ScrollBy down 500) = Err m ->
      fst r = Err (js "Scroll down failed: Error: " ++ m)).
Proof.
  intros Hx Hy Hout. cbv zeta. unfold doClick.
  cbn [a_x a_y mkClick mkClickAt option_map].
  assert (Ht : truthyNum (Some (Integer x)) && truthyNum (Some (Integer y))
               = true).
  { unfold truthyNum. apply andb_true_iff.
    split; apply negb_true_iff, Z.eqb_neq; assumption. }
  rewrite Ht.
  destruct (validateCoordinates x y (width GeminiVision.getViewportDimensions)
              (height GeminiVision.getViewportDimensions)) eqn:V.
  { apply validateCoordinates_spec in V. simpl in V. contradiction. }
  unfold perform, browser_scroll, call.
  destruct (native env (calls st) (ScrollBy down 500)) as [a|m'];
    cbn [fst snd calls result]; repeat split; try reflexivity.
  - discriminate.
  - intros m Hm. injection Hm as <-. reflexivity.
Qed.

Lemma click_out_of_bounds_scrolls_witness :
  let r := doClick quietEnv (mkClick (Some 380%Z) (Some 20%Z)) initialRun in
  calls (snd r) = calls initialRun ++ [ScrollBy down 500] /\
  actions (result (snd r)) = actions (result initialRun) /\
  (forall m,
      native quietEnv (calls initialRun) (ScrollBy down 500) = Err m ->
      fst r = Err (js "Scroll down failed: Error: " ++ m)).
Proof.
  apply (@click_out_of_bounds_scrolls quietEnv initialRun 380 20).
  - discriminate.
  - discriminate.
  - intros [H _]. lia.
Defined.

(** ** A retry-after header that is not a number *)

Lemma retryTime_not_a_number (r : Gateway.Response) (c : N) (t : jsstring) :
  Gateway.retryAfter r = Some (c :: t) ->
  isSpace c = false -> isDigit c = false -> c <> 43%N -> c <> 45%N ->
  Gateway.retryTime r = 0.
Proof.
  intros Hr Hs Hd Hp Hm. unfold Gateway.retryTime. rewrite Hr.
  unfold parseInt, trimStart. cbn [dropWhile]. rewrite Hs. cbv iota.
  revert Hd Hp Hm. clear Hr Hs.
  destruct c as [|p];
    [intros Hd _ _; cbn [takeWhile]; rewrite Hd; reflexivity|].
  do 6 (destruct p as [p|p|];
        try (intros Hd _ _; cbv iota; cbn [takeWhile]; rewrite Hd;
             reflexivity));
    intros; congruence.
Qed.

(** X27.  When the [retry-after] header of a 429 does not start with a digit, a
    sign or white space (an HTTP date, for instance), [callLLM] does not
    wait before it retries: the second request is sent when the first
    response has come and the timer of 0 ms has fired. *)
Theorem retry_after_date_is_immediate (config : Gateway.AIConfig)
    (e : Gateway.CallEnv) (w : Gateway.World) (r : Gateway.Response)
    (c : N) (t : jsstring) :
  active config ->
  Gateway.reply (Gateway.first e) = Ok r ->
  retries config r = true ->
  Gateway.retryAfter r = Some (c :: t) ->
  isSpace c = false -> isDigit c = false -> c <> 43%N -> c <> 45%N ->
  let t1 := Gateway.now (Gateway.gate config (Gateway.gateLate e) w) in
  Gateway.retryTime r = 0 /\
  Gateway.sent (snd (Gateway.callLLM config e w))
  = Gateway.sent w
    ++ [t1;
        t1 + Gateway.ofN (Gateway.latency (Gateway.first e)) + 0
        + Gateway.ofN (Gateway.retryLate e)].
Proof.
  intros Ha Hr Ht Hh Hs Hd Hp Hm. cbv zeta.
  pose proof (retryTime_not_a_number r Hh Hs Hd Hp Hm) as Hz.
  split; [exact Hz|].
  rewrite (@callLLM_retry config e w r Ha Hr Ht).
  pose proof (gate_spec config (Gateway.gateLate e) w) as Hg. cbv zeta in Hg.
  destruct Hg as (_ & G2 & _).
  assert (W : forall x, Gateway.sent (snd (Gateway.retry429 e r x))
                        = Gateway.sent x
                          ++ [Gateway.now x + 0 + Gateway.ofN (Gateway.retryLate e)]).
  { intro x. unfold Gateway.retry429. rewrite Hz.
    unfold Gateway.sleep, Gateway.fetch. cbn [Qcompare Gateway.now Gateway.sent
      Gateway.lastRequestTime].
    change (0 ?= 0) with Eq. cbv iota.
    destruct (Gateway.reply (Gateway.second e)) as [rr|m]; [|reflexivity].
    destruct (Gateway.ok rr); [|reflexivity].
    destruct (Gateway.candidateText rr) as [[[|c' t']|]|m]; reflexivity. }
  rewrite W. unfold Gateway.fetch. cbn [snd Gateway.sent Gateway.now].
  rewrite G2, <- app_assoc. reflexivity.
Qed.

Lemma retry_after_date_is_immediate_witness :
  let t1 := Gateway.now (Gateway.gate freeTier (Gateway.gateLate datedRetry) noon) in
  Gateway.retryTime dated429 = 0 /\
  Gateway.sent (snd (Gateway.callLLM freeTier datedRetry noon))
  = Gateway.sent noon
    ++ [t1;
        t1 + Gateway.ofN (Gateway.latency (Gateway.first datedRetry)) + 0
        + Gateway.ofN (Gateway.retryLate datedRetry)].
Proof.
  apply (@retry_after_date_is_immediate freeTier datedRetry noon dated429
           87%N (js "ed, 21 Oct 2026 07:28:00 GMT")).
  - split; [reflexivity|discriminate].
  - reflexivity.
  - reflexivity.
  - reflexivity.
  - reflexivity.
  - reflexivity.
  - discriminate.
  - discriminate.
Defined.
